(** * Optimizer state sharding (fairscale/optim/oss.py)

    A shallow embedding of the [OSS] optimizer wrapper: the greedy partition of
    the parameters over the ranks, the bucketed broadcast that follows a local
    step, the release of the gradients owned by other ranks, and the two
    checkpoint formats; then the rank map and the device table, the sync of
    the hyperparameters, [add_param_group], the exchange of the shards and the
    last lines of the constructor.

    Python objects are embedded as follows.
    - A tensor parameter is a [Param]: its identity ([pid]), its element count
      ([numel]) and its device.  The mutable gradient lives in the [grads]
      store of the optimizer state, keyed by identity.
    - A [dict] with string keys is a [gmap string value]; [value] is the small
      universe of Python values that the code moves around.
    - A Python exception ([KeyError], [IndexError], [ValueError], a type error)
      is [None] in the option monad.
    - A [for] loop with a fallible body is [for_each].
    - The tensor runtime, the collective substrate and the wrapped optimizer
      are outside the module: copies and broadcasts are recorded as a trace of
      calls, and the methods of the optimizer are the fields of
      [Collaborators].

    The groups handed to the wrapped optimizer are the records of this rank in
    the cached partition.  Writes to their hyperparameters made through that
    alias are not tracked in the cache: after construction the code only reads
    the ["params"] lists of the cached records, which no such write changes. *)

From Stdlib Require Import ZArith Permutation Lia Sorted.
From stdpp Require Import gmap strings list fin_maps.

Local Set Warnings "-register-all".

(** ** Values *)

Record Param := mkParam {
  pid : positive;
  numel : nat;
  device : string;
}.

Inductive value :=
| VNone
| VBool (b : bool)
| VInt (z : Z)
| VStr (s : string)
| VParams (ps : list Param)
| VList (l : list value)
| VTuple (l : list value)
| VDict (d : gmap string value).

Abbreviation dict := (gmap string value).

(** [param_group["params"]], read as a list of parameters. *)
Definition group_params (g : dict) : option (list Param) :=
  match g !! "params" with
  | Some (VParams ps) => Some ps
  | _ => None
  end.

(** The entries of a group other than ["params"]. *)
Definition hyperparams (g : dict) : dict := delete "params" g.

(** ** Loops and list primitives *)

(** [for x in xs: s = body(s, x)], stopping at the first exception. *)
Fixpoint for_each {A S : Type} (body : S → A → option S) (xs : list A) (s : S)
  : option S :=
  match xs with
  | [] => Some s
  | x :: xs' => s' ← body s x; for_each body xs' s'
  end.

(** [enumerate(xs)], counting from [start]. *)
Fixpoint enumerate_from {A : Type} (start : nat) (xs : list A) : list (nat * A) :=
  match xs with
  | [] => []
  | x :: xs' => (start, x) :: enumerate_from (S start) xs'
  end.

Definition enumerate {A : Type} (xs : list A) : list (nat * A) :=
  enumerate_from 0 xs.

(** [min(l)]: [ValueError] on the empty list. *)
Definition py_min (l : list nat) : option nat :=
  match l with
  | [] => None
  | x :: xs => Some (foldl Nat.min x xs)
  end.

(** [max(l)]: [ValueError] on the empty list. *)
Definition py_max (l : list nat) : option nat :=
  match l with
  | [] => None
  | x :: xs => Some (foldl Nat.max x xs)
  end.

(** [l.index(x)]: the first position holding [x], [ValueError] if there is
    none. *)
Fixpoint py_index (x : nat) (l : list nat) : option nat :=
  match l with
  | [] => None
  | y :: ys => if decide (y = x) then Some 0 else S <$> py_index x ys
  end.

(** ** The wrapped optimizer and the OSS state *)

(** The wrapped optimizer, as far as this module looks into it. *)
Record Optimizer := mkOptimizer {
  opt_param_groups : list dict;
  opt_state : value;
}.

(** A scratch buffer: [torch.zeros(broadcast_buffer_size, ...)]. *)
Record Buffer := mkBuffer {
  buf_numel : nat;
}.

(** The fields of an [OSS] instance.  [group] is [None] for
    [dist.group.WORLD] and [Some f] for a custom process group whose logical
    ranks map to the global ranks [f].  [grads] holds [p.grad] for every
    parameter whose gradient is not [None]. *)
Record OSS := mkOSS {
  param_groups : list dict;
  world_size : nat;
  rank : nat;
  group : option (nat → nat);
  optim : Optimizer;
  _partition_parameters : list (list dict);
  _per_device_params : list (string * list (list Param));
  _param_rank : gmap positive nat;
  _all_states : list value;
  _broadcast_buffers : gmap string (list Buffer);
  grads : gmap positive value;
}.

Definition set_param_groups (v : list dict) (self : OSS) : OSS :=
  mkOSS v (world_size self) (rank self) (group self) (optim self)
        (_partition_parameters self) (_per_device_params self) (_param_rank self)
        (_all_states self) (_broadcast_buffers self) (grads self).

Definition set_optim (v : Optimizer) (self : OSS) : OSS :=
  mkOSS (param_groups self) (world_size self) (rank self) (group self) v
        (_partition_parameters self) (_per_device_params self) (_param_rank self)
        (_all_states self) (_broadcast_buffers self) (grads self).

Definition set_partition_parameters (v : list (list dict)) (self : OSS) : OSS :=
  mkOSS (param_groups self) (world_size self) (rank self) (group self) (optim self)
        v (_per_device_params self) (_param_rank self)
        (_all_states self) (_broadcast_buffers self) (grads self).

Definition set_per_device_params (v : list (string * list (list Param)))
    (self : OSS) : OSS :=
  mkOSS (param_groups self) (world_size self) (rank self) (group self) (optim self)
        (_partition_parameters self) v (_param_rank self)
        (_all_states self) (_broadcast_buffers self) (grads self).

Definition set_param_rank (v : gmap positive nat) (self : OSS) : OSS :=
  mkOSS (param_groups self) (world_size self) (rank self) (group self) (optim self)
        (_partition_parameters self) (_per_device_params self) v
        (_all_states self) (_broadcast_buffers self) (grads self).

Definition set_all_states (v : list value) (self : OSS) : OSS :=
  mkOSS (param_groups self) (world_size self) (rank self) (group self) (optim self)
        (_partition_parameters self) (_per_device_params self) (_param_rank self)
        v (_broadcast_buffers self) (grads self).

Definition set_grads (v : gmap positive value) (self : OSS) : OSS :=
  mkOSS (param_groups self) (world_size self) (rank self) (group self) (optim self)
        (_partition_parameters self) (_per_device_params self) (_param_rank self)
        (_all_states self) (_broadcast_buffers self) v.

(** The collaborators that the environment supplies: the wrapped optimizer's
    own methods, and the two helpers of [fairscale.optim.utils]. *)
Class Collaborators := {
  (** [optim.state_dict()] *)
  optim_state_dict : Optimizer → dict;
  (** [optim.step(closure)]: the new optimizer, the gradients left behind
      and the loss. *)
  optim_step : option nat → Optimizer → gmap positive value
               → Optimizer * gmap positive value * value;
  (** [broadcast_object(obj, src_rank=...)]: the object that arrives. *)
  broadcast_object : value → nat → value;
  (** [recursive_copy_to_device(value, device=cpu)] *)
  recursive_copy_to_device : value → value;
}.

(** [OSS.get_global_rank(group, rank)] *)
Definition get_global_rank (group : option (nat → nat)) (rank : nat) : nat :=
  match group with
  | None => rank
  | Some c10d_get_global_rank => c10d_get_global_rank rank
  end.

(** ** Partition helpers *)

Module Partition.

(** The loop state of one parameter group: [(param_lists, sizes)]. *)
Definition slots : Type := list (list Param) * list nat.

(** The body of [for param in param_group["params"]]:
<<
    rank = sizes.index(min(sizes))
    param_lists[rank].append(param)
    sizes[rank] += param.numel()
>> *)
Definition assign_param (st : slots) (param : Param) : option slots :=
  let '(param_lists, sizes) := st in
  m ← py_min sizes;
  rank ← py_index m sizes;
  params ← param_lists !! rank;
  size ← sizes !! rank;
  Some (<[rank := params ++ [param]]> param_lists,
        <[rank := size + numel param]> sizes).

(** The body of [for rank, params in enumerate(param_lists)]:
<<
    param_group_rank = copy.copy(param_group)
    param_group_rank["params"] = params
    self._partition_parameters[rank].append(param_group_rank)
>> *)
Definition append_record (param_group : dict) (partition : list (list dict))
    (entry : nat * list Param) : option (list (list dict)) :=
  let '(rank, params) := entry in
  let param_group_rank := <["params" := VParams params]> param_group in
  records ← partition !! rank;
  Some (<[rank := records ++ [param_group_rank]]> partition).

(** The body of [for param_group in self.param_groups]. *)
Definition partition_group (world_size : nat)
    (acc : list (list dict) * list nat) (param_group : dict)
  : option (list (list dict) * list nat) :=
  let '(partition, sizes) := acc in
  params ← group_params param_group;
  '(param_lists, sizes') ←
    for_each assign_param params (replicate world_size [], sizes);
  partition' ← for_each (append_record param_group) (enumerate param_lists) partition;
  Some (partition', sizes').

(** The partition computed when the cache is empty, with the final [sizes]. *)
Definition compute (world_size : nat) (groups : list dict)
  : option (list (list dict) * list nat) :=
  for_each (partition_group world_size) groups
           (replicate world_size [], replicate world_size 0).

End Partition.

(** [OSS.partition_parameters]: lazily computed, then cached. *)
Definition partition_parameters (self : OSS) : option (list (list dict) * OSS) :=
  if decide (length (_partition_parameters self) = 0) then
    '(partition, _) ← Partition.compute (world_size self) (param_groups self);
    Some (partition, set_partition_parameters partition self)
  else Some (_partition_parameters self, self).

(** The parameters that each rank holds for the group of index [gi]. *)
Definition group_slots (partition : list (list dict)) (gi : nat)
  : option (list (list Param)) :=
  mapM (λ records : list dict, record ← records !! gi; group_params record) partition.

(** All the parameters of a list of group records, in order. *)
Definition params_of (records : list dict) : list Param :=
  concat ((λ g, default [] (group_params g)) <$> records).

(** The total element count held by a rank. *)
Definition rank_numel (records : list dict) : nat :=
  sum_list (numel <$> params_of records).


(** [OSS.param_to_rank]: the rank of every parameter, by identity. *)
Definition record_ranks (acc : gmap positive nat) (entry : nat * list dict)
  : option (gmap positive nat) :=
  let '(rank, param_groups) := entry in
  for_each (λ acc param_group,
              params ← group_params param_group;
              Some (foldl (λ acc param, <[pid param := rank]> acc) acc params))
           param_groups acc.

Definition param_to_rank (self : OSS) : option (gmap positive nat * OSS) :=
  if decide (size (_param_rank self) = 0) then
    '(partition, self) ← partition_parameters self;
    param_rank ← for_each record_ranks (enumerate partition) (_param_rank self);
    Some (param_rank, set_param_rank param_rank self)
  else Some (_param_rank self, self).

(** ** The device/rank table *)

(** An [OrderedDict] from devices to per-rank lists, in insertion order. *)
Abbreviation table := (list (string * list (list Param))).

Fixpoint table_get (device : string) (t : table) : option (list (list Param)) :=
  match t with
  | [] => None
  | (d, v) :: t' => if decide (d = device) then Some v else table_get device t'
  end.

Fixpoint table_set (device : string) (v : list (list Param)) (t : table) : table :=
  match t with
  | [] => [(device, v)]
  | (d, w) :: t' =>
      if decide (d = device) then (d, v) :: t' else (d, w) :: table_set device v t'
  end.

(** [list.sort(key=lambda x: x.numel())]: a stable sort. *)
Fixpoint insert_by_numel (x : Param) (l : list Param) : list Param :=
  match l with
  | [] => [x]
  | y :: l' =>
      if decide (numel x < numel y) then x :: y :: l' else y :: insert_by_numel x l'
  end.

Definition sort_by_numel (l : list Param) : list Param :=
  foldl (λ acc x, insert_by_numel x acc) [] l.

(** The body of the inner loop of [per_device_params]:
<<
    device = param.device
    if self._per_device_params.get(device) is None:
        self._per_device_params[device] = [[] for _ in range(self.world_size)]
    self._per_device_params[device][self.param_to_rank[param]] += [param]
>> *)
Definition log_param (acc : table * OSS) (param : Param) : option (table * OSS) :=
  let '(t, self) := acc in
  let t := match table_get (device param) t with
           | None => table_set (device param) (replicate (world_size self) []) t
           | Some _ => t
           end in
  lists ← table_get (device param) t;
  '(param_rank, self) ← param_to_rank self;
  r ← param_rank !! pid param;
  params ← lists !! r;
  Some (table_set (device param) (<[r := params ++ [param]]> lists) t, self).

(** The body of the outer loop of [per_device_params]. *)
Definition log_group (acc : table * OSS) (param_group : dict) : option (table * OSS) :=
  params ← group_params param_group;
  for_each log_param params acc.

(** [for k in keys: for r in table[k]: r.sort(key=numel)] *)
Definition sort_table (t : table) : table :=
  map (λ entry : string * list (list Param), (entry.1, map sort_by_numel entry.2)) t.

(** [OSS.per_device_params] *)
Definition per_device_params (self : OSS) : option (table * OSS) :=
  if decide (length (_per_device_params self) = 0) then
    match for_each log_group (param_groups self) (_per_device_params self, self) with
    | Some (t, self) => Some (sort_table t, set_per_device_params (sort_table t) self)
    | None => None
    end
  else Some (_per_device_params self, self).

(** ** Broadcast of the updated parameters *)

(** The tensor runtime and the collective substrate are opaque: a call is
    recorded, in program order, and not executed. *)
Inductive tensor :=
| TBuffer (src_rank : nat)   (* the scratch buffer paired with [src_rank] *)
| TParam (p : Param).        (* [p.data] *)

Inductive op :=
| OpPack (src_rank : nat) (p : Param) (offset end_ : nat)
    (* [buffer[offset:end].copy_(p.data.view(-1))] *)
| OpBroadcast (t : tensor) (src : nat) (handle : nat)
    (* [dist.broadcast(tensor=t, src=src, async_op=True)], returning [handle] *)
| OpWait (handle : nat)
    (* [handle.wait()] *)
| OpUnpack (p : Param) (src_rank : nat) (offset end_ : nat).
    (* [p.data.copy_(buffers[src_rank][offset:end].view_as(p.data))] *)

(** One entry of [bucket_requests]: [(work_handle, src_rank, bucket_params)]. *)
Definition bucket_request : Type := nat * nat * list (Param * nat * nat).

(** The local variables of the issuing loops of [_broadcast_params], with the
    calls made so far ([trace]) and the next fresh work handle. *)
Record issue := mkIssue {
  offset : nat;
  bucket_sent : bool;
  bucket_params : list (Param * nat * nat);
  bucket_requests : list bucket_request;
  direct_requests : list nat;
  trace : list op;
  next_handle : nat;
}.

(** [bucket_requests.append((dist.broadcast(tensor=buffer, ...), src_rank,
    bucket_params))] *)
Definition send_bucket (global_src_rank src_rank : nat) (s : issue) : issue :=
  mkIssue (offset s) (bucket_sent s) (bucket_params s)
          (bucket_requests s ++ [(next_handle s, src_rank, bucket_params s)])
          (direct_requests s)
          (trace s ++ [OpBroadcast (TBuffer src_rank) global_src_rank (next_handle s)])
          (S (next_handle s)).

(** [direct_requests.append(dist.broadcast(tensor=p.data, ...))] *)
Definition send_direct (global_src_rank : nat) (p : Param) (s : issue) : issue :=
  mkIssue (offset s) (bucket_sent s) (bucket_params s) (bucket_requests s)
          (direct_requests s ++ [next_handle s])
          (trace s ++ [OpBroadcast (TParam p) global_src_rank (next_handle s)])
          (S (next_handle s)).

Definition set_bucket_sent (b : bool) (s : issue) : issue :=
  mkIssue (offset s) b (bucket_params s) (bucket_requests s) (direct_requests s)
          (trace s) (next_handle s).

(** The body of [for p in params]. *)
Definition issue_param (buffer_size global_src_rank src_rank : nat)
    (s : issue) (p : Param) : issue :=
  if negb (bucket_sent s) && bool_decide (offset s + numel p < buffer_size) then
    let end_ := offset s + numel p in
    mkIssue end_ (bucket_sent s) (bucket_params s ++ [(p, offset s, end_)])
            (bucket_requests s) (direct_requests s)
            (trace s ++ [OpPack src_rank p (offset s) end_]) (next_handle s)
  else
    let s :=
      if bool_decide (0 < offset s) && negb (bucket_sent s) then
        set_bucket_sent true (send_bucket global_src_rank src_rank s)
      else s in
    send_direct global_src_rank p s.

(** The body of
    [for (src_rank, params), buffer in zip(enumerate(per_rank_params), buffers)]. *)
Definition issue_rank (group : option (nat → nat)) (buffer_size : nat)
    (s : issue) (entry : (nat * list Param) * Buffer) : issue :=
  let '((src_rank, params), buffer) := entry in
  let global_src_rank := get_global_rank group src_rank in
  let s := mkIssue 0 false [] (bucket_requests s) (direct_requests s)
                   (trace s) (next_handle s) in
  let s := foldl (issue_param buffer_size global_src_rank src_rank) s params in
  (* Catch a trailing bucket *)
  if negb (bucket_sent s) then send_bucket global_src_rank src_rank s else s.

(** The body of [for work_handle, src_rank, bucket_params in bucket_requests]. *)
Definition unroll_bucket (self_rank : nat) (buffers : list Buffer)
    (tr : list op) (request : bucket_request) : option (list op) :=
  let '(work_handle, src_rank, bucket_params) := request in
  let tr := tr ++ [OpWait work_handle] in
  if decide (src_rank ≠ self_rank) then
    for_each (λ tr '(p, offset, end_),
                _ ← buffers !! src_rank;
                Some (tr ++ [OpUnpack p src_rank offset end_]))
             bucket_params tr
  else Some tr.

Definition issue_start : issue := mkIssue 0 false [] [] [] [] 0.

(** The issuing loop of [_broadcast_params] over all the ranks of a device. *)
Definition issue_all (group : option (nat → nat)) (buffer_size : nat)
    (buffers : list Buffer) (per_rank_params : list (list Param)) : issue :=
  foldl (issue_rank group buffer_size) issue_start
        (zip (enumerate per_rank_params) buffers).

(** [OSS._broadcast_params]: the calls made, in order. *)
Definition _broadcast_params (self : OSS) (buffers : list Buffer)
    (per_rank_params : list (list Param)) : option (list op) :=
  buffer0 ← buffers !! 0;
  let buffer_size := buf_numel buffer0 in
  let s := issue_all (group self) buffer_size buffers per_rank_params in
  (* Unroll the initial packed small parameters *)
  tr ← for_each (unroll_bucket (rank self) buffers) (bucket_requests s) (trace s);
  (* Unroll all the async work items, just in case *)
  Some (tr ++ (OpWait <$> direct_requests s)).

(** ** The optimization step *)

(** The body of [for k in filter(lambda x: x != "params", local_group.keys())]. *)
Definition sync_key (local_to_global : bool) (acc : dict * dict) (k : string)
  : dict * dict :=
  let '(global_group, local_group) := acc in
  if decide (k = "params") then acc
  else if local_to_global then
    match local_group !! k with
    | Some v => (<[k := v]> global_group, local_group)
    | None => acc
    end
  else
    match global_group !! k with
    | Some v => (global_group, <[k := v]> local_group)
    | None => acc
    end.

Definition sync_group (local_to_global : bool) (global_group local_group : dict)
  : dict * dict :=
  foldl (sync_key local_to_global) (global_group, local_group)
        (map fst (map_to_list local_group)).

(** [for global_group, local_group in zip(self.param_groups,
    self.optim.param_groups)]: the groups past the shorter list are left as
    they are. *)
Fixpoint sync_groups (local_to_global : bool) (globals locals : list dict)
  : list dict * list dict :=
  match globals, locals with
  | g :: globals', l :: locals' =>
      let '(g', l') := sync_group local_to_global g l in
      let '(gs, ls) := sync_groups local_to_global globals' locals' in
      (g' :: gs, l' :: ls)
  | _, _ => (globals, locals)
  end.

(** [OSS._sync_param_groups] *)
Definition _sync_param_groups (local_to_global : bool) (self : OSS) : OSS :=
  let '(globals, locals) :=
    sync_groups local_to_global (param_groups self) (opt_param_groups (optim self)) in
  set_optim (mkOptimizer locals (opt_state (optim self)))
            (set_param_groups globals self).

(** [t.grad = None] for every [t] of a list of parameters. *)
Definition free_grads (params : list Param) (grads : gmap positive value)
  : gmap positive value :=
  foldl (λ grads t, delete (pid t) grads) grads params.

(** The body of [for rank, partition in enumerate(self.partition_parameters())]. *)
Definition free_rank (self_rank : nat) (grads : gmap positive value)
    (entry : nat * list dict) : option (gmap positive value) :=
  let '(rank, partition) := entry in
  if decide (rank = self_rank) then Some grads
  else for_each (λ grads p, params ← group_params p; Some (free_grads params grads))
                partition grads.

(** [OSS._free_other_grads] *)
Definition _free_other_grads (self : OSS) : option OSS :=
  '(partition, self) ← partition_parameters self;
  grads ← for_each (free_rank (rank self)) (enumerate partition) (grads self);
  Some (set_grads grads self).

(** What [step] does up to the call of the wrapped optimizer. *)
Definition step_prepare (self : OSS) : option OSS :=
  (* Sync oss param_groups attributes in case they've been updated by a scheduler. *)
  let self := _sync_param_groups false self in
  (* Run the optimizer step on this shard only *)
  _free_other_grads self.

(** The body of [for device, device_params in self.per_device_params.items()]. *)
Definition broadcast_device (self : OSS) (tr : list op)
    (entry : string * list (list Param)) : option (list op) :=
  let '(device, device_params) := entry in
  buffers ← _broadcast_buffers self !! device;
  tr' ← _broadcast_params self buffers device_params;
  Some (tr ++ tr').

(** What [step] does once the wrapped optimizer has returned [result]. *)
Definition step_finish (self : OSS)
    (result : Optimizer * gmap positive value * value)
  : option (OSS * value * list op) :=
  let '(optim', grads', loss) := result in
  let self := set_grads grads' (set_optim optim' self) in
  (* Sync all the updated shards in between the ranks *)
  '(t, self) ← per_device_params self;
  tr ← for_each (broadcast_device self) t [];
  (* Sync hypothethical new results from the wrapped optimizer *)
  let self := _sync_param_groups true self in
  Some (self, loss, tr).

(** [OSS.step]: the new state, the loss and the collective calls made. *)
Definition step `{Collaborators} (closure : option nat) (self : OSS)
  : option (OSS * value * list op) :=
  self ← step_prepare self;
  step_finish self (optim_step closure (optim self) (grads self)).

(** ** Checkpoints *)

(** The items of a Python sequence. *)
Definition items (v : value) : option (list value) :=
  match v with
  | VList l | VTuple l => Some l
  | _ => None
  end.

(** [v[key]] for a dict [v]. *)
Definition getitem (key : string) (v : value) : option value :=
  match v with
  | VDict d => d !! key
  | _ => None
  end.

Definition as_int (v : value) : option Z :=
  match v with
  | VInt z => Some z
  | _ => None
  end.

(** A slice bound, as Python clamps it for a list of length [n]. *)
Definition clamp (n : nat) (i : Z) : nat :=
  if decide (i < 0)%Z then Z.to_nat (Z.max (i + Z.of_nat n) 0)
  else Nat.min (Z.to_nat i) n.

(** [l[a:b]] *)
Definition py_slice {A : Type} (l : list A) (a b : Z) : list A :=
  take (clamp (length l) b - clamp (length l) a) (drop (clamp (length l) a) l).

Definition warning_not_consolidated : string :=
  "Optimizer state has not been consolidated. Returning the local state".
Definition warning_call_consolidate : string :=
  "Please call `consolidate_state_dict()` beforehand if you meant to save the global state".

(** [OSS.local_state_dict] *)
Definition local_state_dict `{Collaborators} (self : OSS) : dict :=
  optim_state_dict (optim self).

(** The accumulators of the flattening loop of [state_dict]:
    [(partition, param_groups, start)]. *)
Definition flat : Type := list (Z * Z) * list value * Z.

(** The body of [for i, s in enumerate(self._all_states)]:
<<
    param_groups.extend(s["param_groups"])
    end = start + len(s["param_groups"])
    partition.append((start, end))
    start = end
>> *)
Definition flatten_shard (acc : flat) (s : value) : option flat :=
  let '(partition, param_groups, start) := acc in
  groups ← getitem "param_groups" s ≫= items;
  let end_ := (start + Z.of_nat (length groups))%Z in
  Some (partition ++ [(start, end_)], param_groups ++ groups, end_).

(** [OSS.state_dict]: the dictionary returned and the warnings logged. *)
Definition state_dict `{Collaborators} (self : OSS) : option (dict * list string) :=
  if decide (length (_all_states self) = 0) then
    let state_dict := local_state_dict self in
    Some (<["local_state_dict" := VBool true]> state_dict,
          [warning_not_consolidated; warning_call_consolidate])
  else
    '(partition, param_groups, _) ←
      for_each flatten_shard (_all_states self) ([], [], 0%Z);
    states ← mapM (getitem "state") (_all_states self);
    Some (<["state" := VList states]>
          (<["param_groups" := VList param_groups]>
          (<["partition" := VList ((λ se : Z * Z, VTuple [VInt se.1; VInt se.2]) <$> partition)]>
          (<["local_state_dict" := VBool false]> ∅))), []).

(** [OSS.rank_local_state_dict] *)
Definition rank_local_state_dict (rank : nat) (state_dict : dict) : option dict :=
  all_groups ← state_dict !! "param_groups" ≫= items;
  partition ← state_dict !! "partition" ≫= items;
  bounds ← partition !! rank ≫= items;
  start ← bounds !! 0 ≫= as_int;
  end_ ← bounds !! 1 ≫= as_int;
  let param_groups := py_slice all_groups start end_ in
  states ← state_dict !! "state" ≫= items;
  state ← states !! rank;
  Some (<["state" := state]> (<["param_groups" := VList param_groups]> ∅)).

(** [torch.tensor([0], dtype=torch.uint8)] *)
Definition empty_buffer : value := VList [VInt 0].

(** [OSS._collect_sharded_states] *)
Definition _collect_sharded_states `{Collaborators} (self : OSS) : list value :=
  (λ r,
     if decide (r = rank self) then
       recursive_copy_to_device (VDict (local_state_dict self))
     else
       let global_rank := get_global_rank (group self) r in
       let replica_state := broadcast_object empty_buffer global_rank in
       recursive_copy_to_device replica_state)
  <$> seq 0 (world_size self).

(** [OSS.consolidate_state_dict]: on the other ranks the broadcasts of
    [_broadcast_state_dict] leave the instance as it is. *)
Definition consolidate_state_dict `{Collaborators} (recipient_rank : nat)
    (self : OSS) : OSS :=
  let self := _sync_param_groups false self in
  if decide (rank self = recipient_rank) then
    set_all_states (_collect_sharded_states self) self
  else self.

(** ** The greedy assignment, as the specification words it

    Groups are taken in their order and parameters in theirs; each parameter
    goes to the rank whose running size is the smallest, the lowest rank winning
    a tie, and its element count is added to the running size of that rank.
    These definitions follow that description and are compared with
    [Partition.compute] below. *)

Module Greedy.

(** Scan [sizes] from position [i], holding the best rank seen so far and its
    size; only a strictly smaller size replaces it. *)
Fixpoint argmin_from (best best_size i : nat) (sizes : list nat) : nat :=
  match sizes with
  | [] => best
  | s :: sizes' =>
      if decide (s < best_size) then argmin_from i s (S i) sizes'
      else argmin_from best best_size (S i) sizes'
  end.

(** The lowest rank of smallest size. *)
Definition argmin (sizes : list nat) : nat :=
  match sizes with
  | [] => 0
  | s :: sizes' => argmin_from 0 s 1 sizes'
  end.

Definition add_size (r n : nat) (sizes : list nat) : list nat :=
  alter (λ s, s + n) r sizes.

(** The rank given to each of the element counts [ns], in order. *)
Fixpoint ranks (sizes : list nat) (ns : list nat) : list nat :=
  match ns with
  | [] => []
  | n :: ns' => argmin sizes :: ranks (add_size (argmin sizes) n sizes) ns'
  end.

(** The running sizes once [ns] have been placed. *)
Fixpoint sizes_after (sizes : list nat) (ns : list nat) : list nat :=
  match ns with
  | [] => sizes
  | n :: ns' => sizes_after (add_size (argmin sizes) n sizes) ns'
  end.

(** The parameters that were given rank [r], in their order. *)
Fixpoint select (r : nat) (params : list Param) (rs : list nat) : list Param :=
  match params, rs with
  | p :: params', r' :: rs' =>
      if decide (r' = r) then p :: select r params' rs' else select r params' rs'
  | _, _ => []
  end.

Definition params_list (g : dict) : list Param := default [] (group_params g).

Definition numels (g : dict) : list nat := numel <$> params_list g.

(** The share of rank [r] in group [g], placed from the running [sizes]. *)
Definition share (r : nat) (sizes : list nat) (g : dict) : list Param :=
  select r (params_list g) (ranks sizes (numels g)).

(** The record of rank [r] for group [g]: the group with its ["params"]
    replaced by the share of [r]. *)
Definition record (r : nat) (sizes : list nat) (g : dict) : dict :=
  <["params" := VParams (share r sizes g)]> g.

Fixpoint records (r : nat) (sizes : list nat) (groups : list dict) : list dict :=
  match groups with
  | [] => []
  | g :: groups' => record r sizes g :: records r (sizes_after sizes (numels g)) groups'
  end.

Fixpoint final_sizes (sizes : list nat) (groups : list dict) : list nat :=
  match groups with
  | [] => sizes
  | g :: groups' => final_sizes (sizes_after sizes (numels g)) groups'
  end.

Definition partition (world_size : nat) (groups : list dict) : list (list dict) :=
  (λ r, records r (replicate world_size 0) groups) <$> seq 0 world_size.

End Greedy.

(** ** Derived notions used in the statements *)

(** Every group has a ["params"] entry holding a list of parameters. *)
Definition well_formed (groups : list dict) : Prop :=
  Forall (λ g, is_Some (group_params g)) groups.

(** All the parameters of the global groups, in order. *)
Definition all_params (groups : list dict) : list Param :=
  concat (Greedy.params_list <$> groups).

(** No two ranks differ by more than [bound] elements. *)
Definition balanced (bound : nat) (sizes : list nat) : Prop :=
  ∀ i j x y, sizes !! i = Some x → sizes !! j = Some y → x ≤ y + bound.

(** [r] is the lowest position of [sizes] that holds its minimum [m]. *)
Definition is_argmin (sizes : list nat) (r m : nat) : Prop :=
  sizes !! r = Some m
  ∧ (∀ j x, sizes !! j = Some x → m ≤ x)
  ∧ (∀ j x, j < r → sizes !! j = Some x → m < x).

(** ** Reading a trace of calls *)

(** The [(p, offset, end)] of the packing copies. *)
Definition pack_triples (ops : list op) : list (Param * nat * nat) :=
  omap (λ o, match o with OpPack _ p off e => Some (p, off, e) | _ => None end) ops.

(** The parameters packed into a scratch buffer. *)
Definition packed_params (ops : list op) : list Param :=
  (λ t : Param * nat * nat, t.1.1) <$> pack_triples ops.

(** The parameters broadcast on their own. *)
Definition direct_params (ops : list op) : list Param :=
  omap (λ o, match o with OpBroadcast (TParam p) _ _ => Some p | _ => None end) ops.

(** The work handles of the broadcasts of a scratch buffer. *)
Definition bucket_handles (ops : list op) : list nat :=
  omap (λ o, match o with OpBroadcast (TBuffer _) _ h => Some h | _ => None end) ops.

(** The work handles of the broadcasts of a parameter. *)
Definition direct_handles (ops : list op) : list nat :=
  omap (λ o, match o with OpBroadcast (TParam _) _ h => Some h | _ => None end) ops.

(** The work handles waited on. *)
Definition waited (ops : list op) : list nat :=
  omap (λ o, match o with OpWait h => Some h | _ => None end) ops.



(** A packing copy or the issue of a broadcast. *)
Definition is_request (o : op) : Prop :=
  match o with
  | OpPack _ _ _ _ | OpBroadcast _ _ _ => True
  | _ => False
  end.

(** A wait or a copy out of a scratch buffer. *)
Definition is_completion (o : op) : Prop :=
  match o with
  | OpWait _ | OpUnpack _ _ _ _ => True
  | _ => False
  end.

(** Every packing copy of [ops] is into the buffer of [src_rank], is made
    before any broadcast of a buffer, starts where the previous one ended
    (at 0 for the first) and ends strictly below [buffer_size]. *)
Definition packs_in_order (buffer_size src_rank start : nat) (ops : list op) : Prop :=
  ∀ pre r p off e post,
    ops = pre ++ OpPack r p off e :: post →
    r = src_rank
    ∧ bucket_handles pre = []
    ∧ off = start + sum_list (numel <$> packed_params pre)
    ∧ e = off + numel p
    ∧ e < buffer_size.

(** What the issuing loop does for one rank: the calls [ops] made for the
    entry [(src_rank, params), buffer]. *)
Definition rank_issued (buffer_size : nat) (entry : (nat * list Param) * Buffer)
    (ops : list op) : Prop :=
  Forall is_request ops
  ∧ packed_params ops ++ direct_params ops ≡ₚ entry.1.2
  ∧ sum_list (numel <$> packed_params ops) ≤ buffer_size
  ∧ packs_in_order buffer_size entry.1.1 0 ops
  ∧ length (bucket_handles ops) = 1.

(** The entry of [bucket_requests] that goes with the calls [ops] of a rank. *)
Definition rank_request (entry : (nat * list Param) * Buffer) (ops : list op)
    (request : bucket_request) : Prop :=
  bucket_handles ops = [request.1.1]
  ∧ request.1.2 = entry.1.1
  ∧ request.2 = pack_triples ops.

(** The calls that complete one bucket request. *)
Definition unroll_ops (self_rank : nat) (request : bucket_request) : list op :=
  OpWait request.1.1 ::
  if decide (request.1.2 ≠ self_rank) then
    (λ t : Param * nat * nat, OpUnpack t.1.1 request.1.2 t.1.2 t.2) <$> request.2
  else [].

(** ** Reading a list of collected shards *)

(** A shard as the wrapped optimizer writes it: a dict with a ["state"] and a
    list under ["param_groups"]. *)
Definition is_shard (s : value) : Prop :=
  is_Some (getitem "state" s) ∧ is_Some (getitem "param_groups" s ≫= items).

Definition shard_groups (s : value) : list value :=
  default [] (getitem "param_groups" s ≫= items).

(** The cumulative group-count ranges of a list of shards, from [start]. *)
Fixpoint offsets (start : Z) (shards : list value) : list (Z * Z) :=
  match shards with
  | [] => []
  | s :: shards' =>
      let end_ := (start + Z.of_nat (length (shard_groups s)))%Z in
      (start, end_) :: offsets end_ shards'
  end.

(** The global dictionary that [state_dict] returns for a list of shards. *)
Definition global_state (states groups : list value) (partition : list (Z * Z))
  : dict :=
  <["state" := VList states]>
  (<["param_groups" := VList groups]>
  (<["partition" := VList ((λ se : Z * Z, VTuple [VInt se.1; VInt se.2]) <$> partition)]>
  (<["local_state_dict" := VBool false]> ∅))).

(** The parameters in the records of the ranks other than [self_rank], the
    first list of [partition] being that of rank [k]. *)
Fixpoint others_from (self_rank k : nat) (partition : list (list dict))
  : list Param :=
  match partition with
  | [] => []
  | records :: partition' =>
      (if decide (k = self_rank) then [] else params_of records)
        ++ others_from self_rank (S k) partition'
  end.

(** ** Concrete instances *)

Module Ex.

Definition p10 : Param := mkParam 1 10 "cpu".
Definition p1a : Param := mkParam 2 1 "cpu".
Definition p1b : Param := mkParam 3 1 "cpu".

(** One group holding parameters of 10, 1 and 1 elements. *)
Definition g0 : dict :=
  <["lr" := VStr "0.1"]> (<["params" := VParams [p10; p1a; p1b]]> ∅).

Definition opt0 : Optimizer := mkOptimizer [] VNone.

(** Rank 0 of a world of two, nothing cached yet. *)
Definition oss0 : OSS := mkOSS [g0] 2 0 None opt0 [] [] ∅ [] ∅ ∅.

(** The same group in a world of five: two ranks own nothing. *)
Definition oss5 : OSS := mkOSS [g0] 5 3 None opt0 [] [] ∅ [] ∅ ∅.

(** Two scratch buffers of four elements, and the sorted lists of two ranks:
    the first holds two parameters that fit and one that does not. *)
Definition buffers4 : list Buffer := [mkBuffer 4; mkBuffer 4].
Definition sorted_params : list (list Param) := [[p1a; p1b; p10]; []].

(** The environment: an optimizer whose [state_dict] shows its two fields and
    whose [step] changes nothing; a replica of global rank [src] sends a shard
    of one group. *)
Definition collaborators : Collaborators := {|
  optim_state_dict o :=
    <["state" := opt_state o]>
    (<["param_groups" := VList (VDict <$> opt_param_groups o)]> ∅);
  optim_step _ o g := (o, g, VNone);
  broadcast_object _ src :=
    VDict (<["state" := VInt (Z.of_nat src)]>
           (<["param_groups" := VList [VStr "group"]]> ∅));
  recursive_copy_to_device v := v;
|}.

(** Rank 0 with the gradients of the three parameters in place. *)
Definition oss_grads : OSS :=
  mkOSS [g0] 2 0 None opt0 [] [] ∅ [] ∅
        (<[1%positive := VStr "grad10"]>
         (<[2%positive := VStr "grad1a"]>
          (<[3%positive := VStr "grad1b"]> ∅))).

(** The partition of [g0] over two ranks. *)
Definition partition0 : list (list dict) :=
  [ [<["params" := VParams [p10]]> g0];
    [<["params" := VParams [p1a; p1b]]> g0] ].

End Ex.


(** ** Adding a parameter group *)

(** The methods of [torch.optim.Optimizer] that [add_param_group] calls. *)
Class TorchOptimizer := {
  (** [super().add_param_group(param_group)] on the global groups: the new
      list of groups, or an exception. *)
  base_add_param_group : dict → list dict → option (list dict);
  (** [optim.add_param_group(param_group)] on the wrapped optimizer. *)
  wrapped_add_param_group : dict → Optimizer → option Optimizer;
}.

(** [OSS.add_param_group].  The flag [self.in_super_constructor], which the
    record of the instance does not carry, is an argument. *)
Definition add_param_group `{TorchOptimizer} (in_super_constructor : bool)
    (param_group : dict) (self : OSS) : option OSS :=
  groups ← base_add_param_group param_group (param_groups self);
  let self := set_param_groups groups self in
  if negb in_super_constructor then
    (* Force a re-partitioning *)
    let self := set_partition_parameters [] self in
    let self := set_per_device_params [] self in
    let self := set_param_rank ∅ self in
    '(partition, self) ← partition_parameters self;
    param_groups ← partition !! rank self;
    if decide (length param_groups = length (opt_param_groups (optim self)) + 1) then
      new_group ← last param_groups;
      optim' ← wrapped_add_param_group new_group (optim self);
      Some (set_optim optim' self)
    else Some self
  else Some self.

(** ** Reading a global dictionary back *)

(** The ["param_groups"] that [rank_local_state_dict] extracts for [rank]. *)
Definition rank_groups (rank : nat) (state_dict : dict) : option (list value) :=
  local ← rank_local_state_dict rank state_dict;
  groups ← local !! "param_groups";
  items groups.

(** ** More on the traces of [_broadcast_params] *)

(** The work handles of all the broadcasts, in the order of issue. *)
Definition all_handles (ops : list op) : list nat :=
  omap (λ o, match o with OpBroadcast _ _ h => Some h | _ => None end) ops.

(** Ascending element counts, as [per_device_params] sorts the lists. *)
Definition by_numel (p q : Param) : Prop := numel p ≤ numel q.


(** From [s] to [s'] the trace grew by calls whose broadcasts carry the
    handles from [next_handle s] up to [next_handle s'], in order. *)
Definition issued_between (s s' : issue) : Prop :=
  ∃ ops,
    trace s' = trace s ++ ops
    ∧ next_handle s ≤ next_handle s'
    ∧ all_handles ops = seq (next_handle s) (next_handle s' - next_handle s).

(** ** Reading the rank map and the device table *)

(** The last rank from [k] on whose records hold the parameter of identity
    [key]: the rank that [param_to_rank] ends up recording for it. *)
Fixpoint owner_from (key : positive) (k : nat) (partition : list (list dict))
  : option nat :=
  match partition with
  | [] => None
  | records :: partition' =>
      match owner_from key (S k) partition' with
      | Some r => Some r
      | None => if decide (key ∈ pid <$> params_of records) then Some k else None
      end
  end.

(** The parameters of a device table, device by device and rank by rank. *)
Definition table_params (t : table) : list Param :=
  concat ((λ entry : string * list (list Param), concat entry.2) <$> t).

(** A device table over [world_size] ranks: no device twice, one list per
    rank for each device, and every parameter under its own device and under
    the rank that [param_rank] gives it. *)
Definition table_placed (world_size : nat) (param_rank : gmap positive nat)
    (t : table) : Prop :=
  NoDup (t.*1)
  ∧ Forall (λ entry : string * list (list Param),
              length entry.2 = world_size
              ∧ ∀ r l p, entry.2 !! r = Some l → p ∈ l →
                         device p = entry.1 ∧ param_rank !! pid p = Some r) t.

(** ** The caches and the end of the constructor *)

(** The partition cache is empty, or holds what [partition_parameters]
    computes from the groups as they are now. *)
Definition partition_cache_ok (self : OSS) : Prop :=
  _partition_parameters self = []
  ∨ partition_parameters (set_partition_parameters [] self)
    = Some (_partition_parameters self, self).

Definition set_broadcast_buffers (v : gmap string (list Buffer)) (self : OSS) : OSS :=
  mkOSS (param_groups self) (world_size self) (rank self) (group self) (optim self)
        (_partition_parameters self) (_per_device_params self) (_param_rank self)
        (_all_states self) v (grads self).


(** The body of [for device, per_device in self.per_device_params.items()]
    in the constructor:
<<
    self._broadcast_buffers[device] = [
        torch.zeros(broadcast_buffer_size, dtype=per_device[0][0].dtype, device=device)
        for _ in range(len(per_device))
    ]
>> *)
Definition allocate (broadcast_buffer_size : nat)
    (acc : gmap string (list Buffer)) (entry : string * list (list Param))
  : option (gmap string (list Buffer)) :=
  let '(device, per_device) := entry in
  buffers ← mapM (λ _ : nat,
                    first_rank ← per_device !! 0;
                    _ ← first_rank !! 0;
                    Some (mkBuffer broadcast_buffer_size))
                 (seq 0 (length per_device));
  Some (<[device := buffers]> acc).

(** The last statements of the constructor: the buffers of every device. *)
Definition allocate_buffers (broadcast_buffer_size : nat) (self : OSS)
  : option OSS :=
  '(t, self) ← per_device_params self;
  buffers ← for_each (allocate broadcast_buffer_size) t ∅;
  Some (set_broadcast_buffers buffers self).


(** [self'] differs from [self] in the three caches at most. *)
Definition same_outside_caches (self self' : OSS) : Prop :=
  param_groups self' = param_groups self
  ∧ world_size self' = world_size self
  ∧ rank self' = rank self
  ∧ group self' = group self
  ∧ optim self' = optim self
  ∧ _all_states self' = _all_states self
  ∧ _broadcast_buffers self' = _broadcast_buffers self
  ∧ grads self' = grads self.

(** ** The exchange of the shards *)

(** [self.global_rank], set by the constructor to
    [self.get_global_rank(self.group, self.rank)]. *)
Definition global_rank (self : OSS) : nat := get_global_rank (group self) (rank self).

(** The calls [broadcast_object(obj, src_rank=...)] that
    [_collect_sharded_states] makes, in order, as pairs [(obj, src_rank)]. *)
Definition collect_broadcasts (self : OSS) : list (value * nat) :=
  (λ r,
     if decide (r = rank self) then
       (* Sync with other replicas *)
       (empty_buffer, global_rank self)
     else
       (* Fetch the optim state from the other replicas *)
       (empty_buffer, get_global_rank (group self) r))
  <$> seq 0 (world_size self).

(** [OSS._broadcast_state_dict]: the calls [broadcast_object(obj,
    src_rank=...)] made, in order. *)
Definition _broadcast_state_dict `{Collaborators} (self : OSS) : list (value * nat) :=
  (λ r,
     if decide (r = rank self) then
       (* Send the state to the reference replica *)
       (VDict (local_state_dict self), global_rank self)
     else
       (* Discard this tensor/rank, broadcast necessary for syncing *)
       (empty_buffer, get_global_rank (group self) r))
  <$> seq 0 (world_size self).

(** ** More concrete instances *)

Module Ex2.

(** A base optimizer that appends the group as it is, and a wrapped
    optimizer that does the same with its own groups. *)
Definition torch_optimizer : TorchOptimizer := {|
  base_add_param_group g groups := Some (groups ++ [g]);
  wrapped_add_param_group g o :=
    Some (mkOptimizer (opt_param_groups o ++ [g]) (opt_state o));
|}.

Definition q7 : Param := mkParam 4 7 "cuda:0".
Definition q2 : Param := mkParam 5 2 "cuda:0".

(** A second group, on another device. *)
Definition g1 : dict :=
  <["lr" := VStr "0.5"]> (<["params" := VParams [q7; q2]]> ∅).

(** Rank 1 of a world of two whose wrapped optimizer holds one group. *)
Definition oss1 : OSS :=
  mkOSS [Ex.g0] 2 1 None (mkOptimizer [<["params" := VParams [Ex.p1a; Ex.p1b]]> Ex.g0] VNone)
        [] [] ∅ [] ∅ ∅.

(** One group over two devices; in a world of two, rank 0 holds nothing on
    the second device. *)
Definition g_mixed : dict := <["params" := VParams [Ex.p10; q2]]> ∅.

Definition oss_mixed : OSS := mkOSS [g_mixed] 2 0 None Ex.opt0 [] [] ∅ [] ∅ ∅.

(** Rank 0 of a world of two once its constructor has run, with buffers of
    four elements for the only device. *)
Definition oss_ready : OSS :=
  mkOSS [Ex.g0] 2 0 None Ex.opt0 Ex.partition0
        [("cpu", [[Ex.p10]; [Ex.p1a; Ex.p1b]])]
        (<[1%positive := 0]> (<[2%positive := 1]> (<[3%positive := 1]> ∅)))
        [] (<["cpu" := [mkBuffer 4; mkBuffer 4]]> ∅) ∅.

End Ex2.

(** * Properties *)

(** ** Loops *)

Lemma for_each_app {A S : Type} (body : S → A → option S) (xs ys : list A) (s : S) :
  for_each body (xs ++ ys) s = for_each body xs s ≫= for_each body ys.
Proof.
  revert s. induction xs as [|x xs IH]; intros s; simpl; [done|].
  destruct (body s x) as [s'|]; simpl; [apply IH | done].
Qed.

Lemma enumerate_from_length {A : Type} (k : nat) (xs : list A) :
  length (enumerate_from k xs) = length xs.
Proof. revert k. induction xs; intros; simpl; auto. Qed.

Lemma enumerate_from_lookup {A : Type} (k i : nat) (xs : list A) :
  enumerate_from k xs !! i = (λ x, (k + i, x)) <$> xs !! i.
Proof.
  revert k i. induction xs as [|x xs IH]; intros k [|i]; simpl; try done.
  - by rewrite Nat.add_0_r.
  - rewrite IH. by replace (S k + i) with (k + S i) by lia.
Qed.

(** ** The rank of smallest size *)

Lemma is_argmin_unique sizes r m r' m' :
  is_argmin sizes r m → is_argmin sizes r' m' → r = r' ∧ m = m'.
Proof.
  intros (Hr & Hmin & Hlow) (Hr' & Hmin' & Hlow').
  destruct (lt_eq_lt_dec r r') as [[Hlt|Heq]|Hgt].
  - specialize (Hlow' _ _ Hlt Hr). specialize (Hmin _ _ Hr'). lia.
  - subst. rewrite Hr in Hr'. by inversion Hr'.
  - specialize (Hlow _ _ Hgt Hr'). specialize (Hmin' _ _ Hr). lia.
Qed.

Lemma foldl_min_le (x : nat) (xs : list nat) :
  foldl Nat.min x xs ≤ x ∧ Forall (λ y, foldl Nat.min x xs ≤ y) xs.
Proof.
  revert x. induction xs as [|y ys IH]; intros x; simpl.
  - split; [lia | constructor].
  - destruct (IH (x `min` y)) as [Hle Hall]. split; [lia|].
    constructor; [lia | done].
Qed.

Lemma foldl_min_elem (x : nat) (xs : list nat) :
  foldl Nat.min x xs ∈ x :: xs.
Proof.
  revert x. induction xs as [|y ys IH]; intros x; simpl.
  - set_solver.
  - specialize (IH (x `min` y)).
    apply elem_of_cons in IH as [Heq | Hin].
    + rewrite Heq. destruct (Nat.min_dec x y) as [-> | ->]; set_solver.
    + set_solver.
Qed.

Lemma py_min_spec (l : list nat) :
  l ≠ [] → ∃ m, py_min l = Some m ∧ m ∈ l ∧ ∀ j x, l !! j = Some x → m ≤ x.
Proof.
  destruct l as [|x xs]; [done|]. intros _. eexists; split; [done|].
  split; [apply foldl_min_elem|].
  destruct (foldl_min_le x xs) as [Hx Hxs].
  intros [|j] y; simpl; intros Hj.
  - by inversion Hj; subst.
  - rewrite Forall_forall in Hxs. apply Hxs. by eapply list_elem_of_lookup_2.
Qed.

Lemma py_index_spec (x : nat) (l : list nat) :
  x ∈ l → ∃ i, py_index x l = Some i ∧ l !! i = Some x
               ∧ ∀ j, j < i → l !! j ≠ Some x.
Proof.
  induction l as [|y ys IH]; intros Hin; [by apply elem_of_nil in Hin|].
  simpl. destruct (decide (y = x)) as [->|Hne].
  - exists 0. repeat split; auto. intros; lia.
  - apply elem_of_cons in Hin as [->|Hin]; [done|].
    destruct (IH Hin) as (i & -> & Hi & Hlow). exists (S i).
    repeat split; auto. intros [|j] Hj; simpl; [congruence|].
    apply Hlow. lia.
Qed.

(** [sizes.index(min(sizes))] is the lowest rank of smallest size. *)
Lemma py_argmin_spec (sizes : list nat) :
  sizes ≠ [] →
  ∃ m r, py_min sizes = Some m ∧ py_index m sizes = Some r ∧ is_argmin sizes r m.
Proof.
  intros Hne. destruct (py_min_spec sizes Hne) as (m & Hm & Hin & Hle).
  destruct (py_index_spec m sizes Hin) as (r & Hr & Hlook & Hlow).
  exists m, r. repeat split; auto.
  intros j x Hj Hx. specialize (Hle _ _ Hx). specialize (Hlow _ Hj).
  assert (x ≠ m) by congruence. lia.
Qed.

Lemma argmin_from_spec (rest pre : list nat) (best best_size : nat) :
  is_argmin pre best best_size →
  ∃ m, is_argmin (pre ++ rest)
         (Greedy.argmin_from best best_size (length pre) rest) m.
Proof.
  revert pre best best_size.
  induction rest as [|s rest IH]; intros pre best bs Hbest; simpl.
  - rewrite app_nil_r. eauto.
  - destruct Hbest as (Hb & Hmin & Hlow).
    assert (Hstep : ∀ b v, is_argmin (pre ++ [s]) b v →
              ∃ m, is_argmin (pre ++ s :: rest)
                     (Greedy.argmin_from b v (S (length pre)) rest) m).
    { intros b v Hbv. specialize (IH (pre ++ [s]) b v Hbv).
      rewrite length_app, <- app_assoc in IH. simpl in IH.
      by replace (length pre + 1) with (S (length pre)) in IH by lia. }
    destruct (decide (s < bs)) as [Hlt|Hge]; apply Hstep.
    + split; [by rewrite list_lookup_middle|]. split.
      * intros j x Hj. apply lookup_app_Some in Hj as [Hj|[_ Hj]].
        -- specialize (Hmin _ _ Hj). lia.
        -- apply list_lookup_singleton_Some in Hj as [_ ->]. lia.
      * intros j x Hj Hx. rewrite lookup_app_l in Hx by done.
        specialize (Hmin _ _ Hx). lia.
    + split; [by apply lookup_app_l_Some|]. split.
      * intros j x Hj. apply lookup_app_Some in Hj as [Hj|[_ Hj]].
        -- eauto.
        -- apply list_lookup_singleton_Some in Hj as [_ ->]. lia.
      * intros j x Hj Hx. apply lookup_lt_Some in Hb.
        rewrite lookup_app_l in Hx by lia. eauto.
Qed.

Lemma greedy_argmin_spec (sizes : list nat) :
  sizes ≠ [] → ∃ m, is_argmin sizes (Greedy.argmin sizes) m.
Proof.
  destruct sizes as [|s rest]; [done|]. intros _.
  apply (argmin_from_spec rest [s] 0 s).
  split; [done|]. split.
  - intros [|j] x Hj; simpl in Hj; [by inversion Hj|]. by destruct j.
  - intros; lia.
Qed.

(** The two ways of finding the rank agree. *)
Lemma py_argmin_greedy (sizes : list nat) :
  sizes ≠ [] →
  ∃ m, py_min sizes = Some m ∧ py_index m sizes = Some (Greedy.argmin sizes)
       ∧ is_argmin sizes (Greedy.argmin sizes) m.
Proof.
  intros Hne. destruct (py_argmin_spec sizes Hne) as (m & r & Hm & Hr & Harg).
  destruct (greedy_argmin_spec sizes Hne) as (m' & Harg').
  destruct (is_argmin_unique _ _ _ _ _ Harg Harg') as [-> ->]. eauto.
Qed.

(** ** The loops of [partition_parameters] against the greedy assignment *)

Lemma add_size_insert (sizes : list nat) (r m n : nat) :
  sizes !! r = Some m → <[r := m + n]> sizes = Greedy.add_size r n sizes.
Proof.
  intros Hr. apply list_eq; intros i. unfold Greedy.add_size.
  destruct (decide (r = i)) as [<-|Hne].
  - rewrite list_lookup_alter_eq, Hr.
    apply list_lookup_insert_eq. by eapply lookup_lt_Some.
  - by rewrite list_lookup_alter_ne, list_lookup_insert_ne.
Qed.

Lemma add_size_length (sizes : list nat) (r n : nat) :
  length (Greedy.add_size r n sizes) = length sizes.
Proof. apply length_alter. Qed.

Lemma sizes_after_length (ns sizes : list nat) :
  length (Greedy.sizes_after sizes ns) = length sizes.
Proof.
  revert sizes. induction ns as [|n ns IH]; intros sizes; simpl; [done|].
  by rewrite IH, add_size_length.
Qed.

Lemma final_sizes_length (groups : list dict) (sizes : list nat) :
  length (Greedy.final_sizes sizes groups) = length sizes.
Proof.
  revert sizes. induction groups as [|g groups IH]; intros sizes; simpl; [done|].
  by rewrite IH, sizes_after_length.
Qed.

Lemma argmin_lt (sizes : list nat) :
  sizes ≠ [] → Greedy.argmin sizes < length sizes.
Proof.
  intros Hne. destruct (greedy_argmin_spec sizes Hne) as (m & Hm & _).
  by eapply lookup_lt_Some.
Qed.

Lemma length_nonempty {A : Type} (l : list A) : 0 < length l → l ≠ [].
Proof. destruct l; simpl; [lia | done]. Qed.

(** One parameter: the code picks the greedy rank. *)
Lemma assign_param_greedy (param_lists : list (list Param)) (sizes : list nat)
    (param : Param) :
  length param_lists = length sizes → 0 < length sizes →
  ∃ params,
    param_lists !! Greedy.argmin sizes = Some params
    ∧ Partition.assign_param (param_lists, sizes) param =
      Some (<[Greedy.argmin sizes := params ++ [param]]> param_lists,
            Greedy.add_size (Greedy.argmin sizes) (numel param) sizes).
Proof.
  intros Hlen Hpos.
  destruct (py_argmin_greedy sizes (length_nonempty _ Hpos))
    as (m & Hm & Hr & Hlook & _).
  destruct (lookup_lt_is_Some_2 param_lists (Greedy.argmin sizes)) as [params Hps].
  { rewrite Hlen. by eapply lookup_lt_Some. }
  exists params. split; [done|].
  unfold Partition.assign_param. rewrite Hm. simpl. rewrite Hr. simpl.
  rewrite Hps. simpl. rewrite Hlook. simpl.
  by rewrite (add_size_insert _ _ _ _ Hlook).
Qed.

(** All the parameters of a group. *)
Lemma assign_params_greedy (params : list Param) (param_lists : list (list Param))
    (sizes : list nat) :
  length param_lists = length sizes → 0 < length sizes →
  for_each Partition.assign_param params (param_lists, sizes) =
  Some (imap (λ r ps, ps ++ Greedy.select r params (Greedy.ranks sizes (numel <$> params)))
             param_lists,
        Greedy.sizes_after sizes (numel <$> params)).
Proof.
  revert param_lists sizes.
  induction params as [|p params IH]; intros pls sizes Hlen Hpos.
  - simpl. do 2 f_equal. apply list_eq; intros i.
    rewrite list_lookup_imap. destruct (pls !! i); simpl; [|done].
    by rewrite app_nil_r.
  - destruct (assign_param_greedy pls sizes p Hlen Hpos) as (ps & Hps & Hstep).
    cbn [for_each]. rewrite Hstep. cbn [mbind option_bind].
    rewrite IH by (rewrite ?length_insert, ?add_size_length; done).
    do 2 f_equal. apply list_eq; intros i. rewrite !list_lookup_imap.
    cbn [fmap list_fmap Greedy.ranks Greedy.select].
    destruct (decide (Greedy.argmin sizes = i)) as [<-|Hne].
    + rewrite list_lookup_insert_eq by (by eapply lookup_lt_Some).
      rewrite Hps. simpl. by rewrite <- app_assoc.
    + by rewrite list_lookup_insert_ne.
Qed.

(** The records of a group are appended rank by rank. *)
Lemma append_records (g : dict) (param_lists : list (list Param)) :
  ∀ (k : nat) (pre rest : list (list dict)),
    length pre = k → length rest = length param_lists →
    for_each (Partition.append_record g) (enumerate_from k param_lists) (pre ++ rest) =
    Some (pre ++ zip_with (λ records ps, records ++ [<["params" := VParams ps]> g])
                          rest param_lists).
Proof.
  induction param_lists as [|ps pls IH]; intros k pre rest Hk Hlen.
  - destruct rest; [|done]. done.
  - destruct rest as [|records rest]; [done|]. simpl in Hlen.
    cbn [enumerate_from for_each Partition.append_record].
    rewrite list_lookup_middle by done. cbn [mbind option_bind].
    rewrite insert_app_r_alt by lia. rewrite Hk, Nat.sub_diag. cbn [insert list_insert].
    rewrite (cons_middle _ pre rest), app_assoc.
    rewrite (IH (S k)) by (rewrite ?length_app; simpl; lia).
    by rewrite <- app_assoc.
Qed.

(** One group. *)
Lemma partition_group_greedy (ws : nat) (partition : list (list dict))
    (sizes : list nat) (g : dict) :
  length partition = ws → length sizes = ws → 0 < ws →
  is_Some (group_params g) →
  Partition.partition_group ws (partition, sizes) g =
  Some (imap (λ r records, records ++ [Greedy.record r sizes g]) partition,
        Greedy.sizes_after sizes (Greedy.numels g)).
Proof.
  intros Hp Hs Hpos [params Hg]. unfold Partition.partition_group.
  rewrite Hg. cbn [mbind option_bind].
  rewrite assign_params_greedy by (rewrite ?length_replicate; lia).
  cbn [mbind option_bind]. unfold enumerate.
  rewrite (append_records g _ 0 [] partition) by (rewrite ?length_imap, ?length_replicate; done).
  cbn [mbind option_bind app].
  unfold Greedy.numels, Greedy.params_list. rewrite Hg. cbn [default].
  do 2 f_equal. apply list_eq; intros i.
  rewrite lookup_zip_with, !list_lookup_imap.
  destruct (partition !! i) as [records|] eqn:Hi; [|done]. cbn [mbind option_bind fmap option_fmap option_map].
  rewrite lookup_replicate_2 by (apply lookup_lt_Some in Hi; lia).
  cbn. unfold Greedy.record, Greedy.share, Greedy.numels, Greedy.params_list.
  by rewrite Hg.
Qed.

(** All the groups. *)
Lemma partition_groups_greedy (ws : nat) (groups : list dict) :
  ∀ (partition : list (list dict)) (sizes : list nat),
    length partition = ws → length sizes = ws → 0 < ws → well_formed groups →
    for_each (Partition.partition_group ws) groups (partition, sizes) =
    Some (imap (λ r records, records ++ Greedy.records r sizes groups) partition,
          Greedy.final_sizes sizes groups).
Proof.
  induction groups as [|g groups IH]; intros partition sizes Hp Hs Hpos Hwf.
  - simpl. do 2 f_equal. apply list_eq; intros i.
    rewrite list_lookup_imap. destruct (partition !! i); simpl; [|done].
    by rewrite app_nil_r.
  - apply Forall_cons in Hwf as [Hg Hwf]. cbn [for_each].
    rewrite partition_group_greedy by done. cbn [mbind option_bind].
    rewrite IH by (rewrite ?length_imap, ?sizes_after_length; done).
    cbn [Greedy.final_sizes Greedy.records]. do 2 f_equal.
    apply list_eq; intros i. rewrite !list_lookup_imap.
    destruct (partition !! i); simpl; [|done]. by rewrite <- app_assoc.
Qed.

(** The partition computed by the code is the greedy partition. *)
Lemma compute_greedy (ws : nat) (groups : list dict) :
  0 < ws → well_formed groups →
  Partition.compute ws groups =
  Some (Greedy.partition ws groups, Greedy.final_sizes (replicate ws 0) groups).
Proof.
  intros Hpos Hwf. unfold Partition.compute.
  rewrite partition_groups_greedy by (rewrite ?length_replicate; done).
  do 2 f_equal. unfold Greedy.partition. apply list_eq; intros i.
  rewrite list_lookup_imap, list_lookup_fmap.
  destruct (decide (i < ws)) as [Hi|Hi].
  - by rewrite lookup_replicate_2, lookup_seq_lt.
  - rewrite lookup_seq_ge by lia.
    by rewrite (proj1 (lookup_replicate_None _ _ _)) by lia.
Qed.

(** ** Properties of the greedy assignment *)

Lemma ranks_length (ns sizes : list nat) :
  length (Greedy.ranks sizes ns) = length ns.
Proof.
  revert sizes. induction ns as [|n ns IH]; intros sizes; simpl; [done|].
  by rewrite IH.
Qed.

Lemma ranks_lt (ns sizes : list nat) :
  0 < length sizes → Forall (λ r, r < length sizes) (Greedy.ranks sizes ns).
Proof.
  revert sizes. induction ns as [|n ns IH]; intros sizes Hpos; simpl.
  - constructor.
  - constructor; [by apply argmin_lt, length_nonempty|].
    rewrite <- (add_size_length sizes (Greedy.argmin sizes) n).
    apply IH. by rewrite add_size_length.
Qed.


(** Putting [p] in front of the list of one rank puts it in the union. *)
Lemma concat_seq_cons (p : Param) (f : nat → list Param) (r0 n k : nat) :
  k ≤ r0 < k + n →
  concat ((λ r, if decide (r0 = r) then p :: f r else f r) <$> seq k n)
  ≡ₚ p :: concat (f <$> seq k n).
Proof.
  revert k. induction n as [|n IH]; intros k Hr; [lia|].
  change (seq k (S n)) with (k :: seq (S k) n). rewrite !fmap_cons.
  cbn [concat]. destruct (decide (r0 = k)) as [->|Hne].
  - assert (((λ r, if decide (k = r) then p :: f r else f r) <$> seq (S k) n)
            = f <$> seq (S k) n) as ->; [|done].
    apply list_fmap_ext. intros i x Hx. apply lookup_seq in Hx as [-> _].
    destruct (decide (k = S k + i)); [lia | done].
  - rewrite IH by lia. by rewrite Permutation_middle.
Qed.

(** The shares of the ranks partition the parameters. *)
Lemma select_partition (n : nat) (params : list Param) (rs : list nat) :
  length rs = length params → Forall (λ r, r < n) rs →
  concat ((λ r, Greedy.select r params rs) <$> seq 0 n) ≡ₚ params.
Proof.
  revert rs. induction params as [|p params IH]; intros [|r0 rs] Hlen Hlt;
    try discriminate.
  - simpl. induction (seq 0 n); simpl; auto.
  - apply Forall_cons in Hlt as [Hr0 Hlt]. simpl in Hlen.
    cbn [Greedy.select]. rewrite concat_seq_cons by lia.
    constructor. apply IH; [lia | done].
Qed.

Lemma sizes_after_lookup (params : list Param) (sizes : list nat) (r : nat) :
  Greedy.sizes_after sizes (numel <$> params) !! r =
  (λ s, s + sum_list (numel <$>
       Greedy.select r params (Greedy.ranks sizes (numel <$> params))))
    <$> sizes !! r.
Proof.
  revert sizes. induction params as [|p params IH]; intros sizes.
  - simpl. destruct (sizes !! r); simpl; [|done]. f_equal; lia.
  - cbn [fmap list_fmap Greedy.sizes_after Greedy.ranks Greedy.select].
    rewrite IH. destruct (decide (Greedy.argmin sizes = r)) as [Heq|Hne].
    + unfold Greedy.add_size at 2. rewrite Heq, list_lookup_alter_eq.
      destruct (sizes !! r); simpl; [|done]. f_equal.
      symmetry. apply Nat.add_assoc.
    + unfold Greedy.add_size at 2. by rewrite list_lookup_alter_ne.
Qed.

Lemma add_size_balanced (bound n : nat) (sizes : list nat) :
  sizes ≠ [] → n ≤ bound → balanced bound sizes →
  balanced bound (Greedy.add_size (Greedy.argmin sizes) n sizes).
Proof.
  intros Hne Hn Hbal.
  destruct (greedy_argmin_spec sizes Hne) as (m & Hm & Hmin & _).
  rewrite <- (add_size_insert sizes (Greedy.argmin sizes) m n Hm).
  intros i j x y Hi Hj.
  apply list_lookup_insert_Some in Hi as [(_ & Hx & _)|[_ Hx]];
    apply list_lookup_insert_Some in Hj as [(_ & Hy & _)|[_ Hy]].
  - lia.
  - specialize (Hmin _ _ Hy). lia.
  - specialize (Hbal _ _ _ _ Hx Hm). lia.
  - eauto.
Qed.

Lemma sizes_after_balanced (bound : nat) (ns sizes : list nat) :
  sizes ≠ [] → Forall (λ n, n ≤ bound) ns → balanced bound sizes →
  balanced bound (Greedy.sizes_after sizes ns).
Proof.
  revert sizes. induction ns as [|n ns IH]; intros sizes Hne Hns Hbal; [done|].
  apply Forall_cons in Hns as [Hn Hns]. simpl. apply IH; [|done|].
  - apply length_nonempty. rewrite add_size_length.
    destruct sizes; simpl; [done | lia].
  - by apply add_size_balanced.
Qed.

Lemma all_params_cons (g : dict) (groups : list dict) :
  all_params (g :: groups) = Greedy.params_list g ++ all_params groups.
Proof. done. Qed.

Lemma final_sizes_balanced (bound : nat) (groups : list dict) (sizes : list nat) :
  sizes ≠ [] → Forall (λ p, numel p ≤ bound) (all_params groups) →
  balanced bound sizes → balanced bound (Greedy.final_sizes sizes groups).
Proof.
  revert sizes. induction groups as [|g groups IH]; intros sizes Hne Hall Hbal;
    [done|].
  rewrite all_params_cons in Hall. apply Forall_app in Hall as [Hg Hall].
  simpl. apply IH; [|done|].
  - apply length_nonempty. rewrite sizes_after_length.
    destruct sizes; simpl; [done | lia].
  - apply sizes_after_balanced; [done| |done].
    unfold Greedy.numels. by apply Forall_fmap.
Qed.

Lemma group_params_record (r : nat) (sizes : list nat) (g : dict) :
  group_params (Greedy.record r sizes g) = Some (Greedy.share r sizes g).
Proof.
  unfold group_params, Greedy.record. by rewrite lookup_insert_eq.
Qed.


Lemma params_of_cons (g : dict) (records : list dict) :
  params_of (g :: records) = default [] (group_params g) ++ params_of records.
Proof. done. Qed.

(** The running sizes are the element counts of the records written. *)
Lemma final_sizes_lookup (groups : list dict) (sizes : list nat) (r : nat) :
  Greedy.final_sizes sizes groups !! r =
  (λ s, s + rank_numel (Greedy.records r sizes groups)) <$> sizes !! r.
Proof.
  revert sizes. induction groups as [|g groups IH]; intros sizes.
  - simpl. destruct (sizes !! r); simpl; [|done]. unfold rank_numel. simpl.
    f_equal; lia.
  - cbn [Greedy.final_sizes Greedy.records]. rewrite IH.
    unfold Greedy.numels. rewrite sizes_after_lookup.
    destruct (sizes !! r); cbn [fmap option_fmap option_map]; [|done]. f_equal.
    unfold rank_numel. rewrite params_of_cons, group_params_record.
    cbn [default]. rewrite fmap_app, sum_list_with_app.
    unfold Greedy.share, Greedy.numels. symmetry. apply Nat.add_assoc.
Qed.

Lemma records_length (r : nat) (groups : list dict) (sizes : list nat) :
  length (Greedy.records r sizes groups) = length groups.
Proof.
  revert sizes. induction groups as [|g groups IH]; intros sizes; simpl; [done|].
  by rewrite IH.
Qed.

(** The record of rank [r] for the group of index [gi]. *)
Lemma records_lookup (r : nat) (groups : list dict) (sizes : list nat)
    (gi : nat) (g : dict) :
  groups !! gi = Some g →
  Greedy.records r sizes groups !! gi =
  Some (Greedy.record r (Greedy.final_sizes sizes (take gi groups)) g).
Proof.
  revert sizes gi. induction groups as [|g' groups IH]; intros sizes [|gi] Hg;
    simpl in *; try done.
  - by inversion Hg.
  - by apply IH.
Qed.

Lemma partition_length (ws : nat) (groups : list dict) :
  length (Greedy.partition ws groups) = ws.
Proof. unfold Greedy.partition. by rewrite length_fmap, length_seq. Qed.

Lemma partition_lookup (ws : nat) (groups : list dict) (r : nat) :
  r < ws →
  Greedy.partition ws groups !! r = Some (Greedy.records r (replicate ws 0) groups).
Proof.
  intros Hr. unfold Greedy.partition.
  by rewrite list_lookup_fmap, lookup_seq_lt.
Qed.

(** ** The partition produced by [partition_parameters] *)

Lemma partition_parameters_fresh (self : OSS) :
  _partition_parameters self = [] → 0 < world_size self →
  well_formed (param_groups self) →
  partition_parameters self =
  Some (Greedy.partition (world_size self) (param_groups self),
        set_partition_parameters
          (Greedy.partition (world_size self) (param_groups self)) self).
Proof.
  intros Hcache Hpos Hwf. unfold partition_parameters.
  rewrite Hcache. simpl. by rewrite compute_greedy.
Qed.

Lemma group_slots_greedy (ws : nat) (groups : list dict) (gi : nat) (g : dict) :
  groups !! gi = Some g →
  group_slots (Greedy.partition ws groups) gi =
  Some ((λ r, Greedy.share r (Greedy.final_sizes (replicate ws 0) (take gi groups)) g)
          <$> seq 0 ws).
Proof.
  intros Hg. unfold group_slots, Greedy.partition.
  apply mapM_Some_2, Forall2_fmap, Forall_Forall2_diag, Forall_forall.
  intros r _. rewrite (records_lookup _ _ _ _ _ Hg). simpl.
  apply group_params_record.
Qed.

Lemma NoDup_concat_lookup {A : Type} (ls : list (list A)) (i j : nat)
    (a b : list A) (x : A) :
  NoDup (concat ls) → ls !! i = Some a → ls !! j = Some b →
  x ∈ a → x ∈ b → i = j.
Proof.
  revert i j. induction ls as [|l ls IH]; intros i j Hnd Hi Hj Ha Hb; [done|].
  simpl in Hnd. apply NoDup_app in Hnd as (_ & Hdisj & Hnd).
  assert (Hin : ∀ k c, ls !! k = Some c → x ∈ c → x ∈ concat ls).
  { intros k c Hk Hc. apply list_elem_of_In, in_concat. exists c.
    split; apply list_elem_of_In; [by eapply list_elem_of_lookup_2 | done]. }
  destruct i as [|i], j as [|j]; simpl in *.
  - done.
  - inversion Hi; subst. exfalso. eapply Hdisj; eauto.
  - inversion Hj; subst. exfalso. eapply Hdisj; eauto.
  - f_equal. eauto.
Qed.

Lemma py_max_spec (l : list nat) :
  l ≠ [] → ∃ m, py_max l = Some m ∧ m ∈ l.
Proof.
  destruct l as [|x xs]; [done|]. intros _. eexists; split; [done|].
  revert x. induction xs as [|y ys IH]; intros x; simpl; [set_solver|].
  specialize (IH (x `max` y)). apply elem_of_cons in IH as [Heq | Hin].
  - rewrite Heq. destruct (Nat.max_dec x y) as [-> | ->]; set_solver.
  - set_solver.
Qed.

Lemma rank_numel_partition (ws : nat) (groups : list dict) :
  rank_numel <$> Greedy.partition ws groups =
  Greedy.final_sizes (replicate ws 0) groups.
Proof.
  apply list_eq; intros r. rewrite list_lookup_fmap, final_sizes_lookup.
  destruct (decide (r < ws)) as [Hr|Hr].
  - by rewrite partition_lookup, lookup_replicate_2.
  - rewrite (proj1 (lookup_replicate_None _ _ _)) by lia.
    rewrite lookup_ge_None_2; [done|]. rewrite partition_length. lia.
Qed.

(** C1. With an empty cache, a world of at least one rank and groups that each
    hold a list of parameters, [partition_parameters] returns one list of
    records per rank; for every global group, the lists that the ranks hold
    for it are together a rearrangement of the parameters of the group, and
    when these are distinct no parameter is held by two ranks. *)
Theorem partition_complete_disjoint (self : OSS) :
  _partition_parameters self = [] → 1 ≤ world_size self →
  well_formed (param_groups self) →
  ∃ partition self',
    partition_parameters self = Some (partition, self')
    ∧ length partition = world_size self
    ∧ ∀ gi g params,
        param_groups self !! gi = Some g → group_params g = Some params →
        ∃ slots,
          group_slots partition gi = Some slots
          ∧ length slots = world_size self
          ∧ concat slots ≡ₚ params
          ∧ (NoDup params →
             ∀ i j a b p, slots !! i = Some a → slots !! j = Some b →
                          p ∈ a → p ∈ b → i = j).
Proof.
  intros Hcache Hws Hwf. eexists _, _.
  split; [by apply partition_parameters_fresh|].
  split; [apply partition_length|].
  intros gi g params Hgi Hg. eexists.
  split; [by apply group_slots_greedy|].
  split; [by rewrite length_fmap, length_seq|].
  assert (Hperm : concat ((λ r, Greedy.share r
            (Greedy.final_sizes (replicate (world_size self) 0)
               (take gi (param_groups self))) g) <$> seq 0 (world_size self))
          ≡ₚ params).
  { unfold Greedy.share, Greedy.numels, Greedy.params_list. rewrite Hg. simpl.
    apply select_partition.
    - by rewrite ranks_length, length_fmap.
    - eapply Forall_impl; [apply ranks_lt|].
      + rewrite final_sizes_length, length_replicate. lia.
      + intros r Hr. by rewrite final_sizes_length, length_replicate in Hr. }
  split; [done|].
  intros Hnd i j a b p. apply NoDup_concat_lookup. by rewrite Hperm.
Qed.

Lemma partition_complete_disjoint_witness :
  ∃ partition self',
    partition_parameters Ex.oss0 = Some (partition, self')
    ∧ length partition = 2
    ∧ ∀ gi g params,
        [Ex.g0] !! gi = Some g → group_params g = Some params →
        ∃ slots,
          group_slots partition gi = Some slots
          ∧ length slots = 2
          ∧ concat slots ≡ₚ params
          ∧ (NoDup params →
             ∀ i j a b p, slots !! i = Some a → slots !! j = Some b →
                          p ∈ a → p ∈ b → i = j).
Proof.
  apply (partition_complete_disjoint Ex.oss0).
  - reflexivity.
  - simpl. lia.
  - repeat constructor. by eexists.
Defined.

(** C2. [partition_parameters] is the greedy assignment: groups in their
    order, parameters in theirs, each one given to the rank of smallest running
    size, the lowest such rank on a tie ([Greedy.argmin] is that rank), and its
    element count added to that size.  With two ranks and one group of element
    counts 10, 1, 1, rank 0 holds the parameter of 10 elements and rank 1 the
    two of one element. *)
Theorem partition_is_greedy :
  (∀ self : OSS,
     _partition_parameters self = [] → 1 ≤ world_size self →
     well_formed (param_groups self) →
     fst <$> partition_parameters self =
     Some (Greedy.partition (world_size self) (param_groups self)))
  ∧ (∀ sizes : list nat,
       sizes ≠ [] → ∃ m, is_argmin sizes (Greedy.argmin sizes) m)
  ∧ (∀ (param_lists : list (list Param)) (sizes : list nat) (param : Param),
       length param_lists = length sizes → sizes ≠ [] →
       ∃ params size,
         param_lists !! Greedy.argmin sizes = Some params
         ∧ sizes !! Greedy.argmin sizes = Some size
         ∧ Partition.assign_param (param_lists, sizes) param =
           Some (<[Greedy.argmin sizes := params ++ [param]]> param_lists,
                 <[Greedy.argmin sizes := size + numel param]> sizes))
  ∧ fst <$> partition_parameters Ex.oss0 =
    Some [ [<["params" := VParams [Ex.p10]]> Ex.g0];
           [<["params" := VParams [Ex.p1a; Ex.p1b]]> Ex.g0] ].
Proof.
  split; [|split; [|split]].
  - intros self Hcache Hws Hwf. by rewrite partition_parameters_fresh.
  - apply greedy_argmin_spec.
  - intros pls sizes p Hlen Hne.
    assert (Hpos : 0 < length sizes) by (destruct sizes; simpl; [done | lia]).
    destruct (assign_param_greedy pls sizes p Hlen Hpos) as (ps & Hps & Hstep).
    destruct (greedy_argmin_spec sizes Hne) as (m & Hm & _).
    exists ps, m. repeat split; try done.
    by rewrite Hstep, (add_size_insert _ _ _ _ Hm).
  - vm_compute. reflexivity.
Qed.

Lemma partition_is_greedy_witness :
  fst <$> partition_parameters Ex.oss5 = Some (Greedy.partition 5 [Ex.g0])
  ∧ (∃ m, is_argmin [10; 1; 1; 7] (Greedy.argmin [10; 1; 1; 7]) m)
  ∧ ∃ params size,
      [[Ex.p10]; []] !! Greedy.argmin [10; 0] = Some params
      ∧ [10; 0] !! Greedy.argmin [10; 0] = Some size
      ∧ Partition.assign_param ([[Ex.p10]; []], [10; 0]) Ex.p1a =
        Some (<[Greedy.argmin [10; 0] := params ++ [Ex.p1a]]> [[Ex.p10]; []],
              <[Greedy.argmin [10; 0] := size + numel Ex.p1a]> [10; 0]).
Proof.
  destruct partition_is_greedy as (Hpartition & Hargmin & Hstep & _).
  split; [|split].
  - apply (Hpartition Ex.oss5).
    + reflexivity.
    + simpl. lia.
    + repeat constructor. by eexists.
  - by apply (Hargmin [10; 1; 1; 7]).
  - by apply (Hstep [[Ex.p10]; []] [10; 0] Ex.p1a).
Defined.

(** C5. Once [partition_parameters] has run, the largest per-rank total element
    count exceeds the smallest by at most the element count of the largest
    parameter. *)
Theorem partition_balanced (self : OSS) :
  _partition_parameters self = [] → 1 ≤ world_size self →
  well_formed (param_groups self) →
  ∃ partition self' largest smallest,
    partition_parameters self = Some (partition, self')
    ∧ py_max (rank_numel <$> partition) = Some largest
    ∧ py_min (rank_numel <$> partition) = Some smallest
    ∧ smallest ≤ largest
    ∧ largest - smallest ≤ max_list (numel <$> all_params (param_groups self)).
Proof.
  intros Hcache Hws Hwf.
  set (ws := world_size self) in *. set (groups := param_groups self) in *.
  assert (Hne : rank_numel <$> Greedy.partition ws groups ≠ []).
  { apply length_nonempty. rewrite length_fmap, partition_length. lia. }
  destruct (py_max_spec _ Hne) as (largest & Hmax & Hlargest).
  destruct (py_min_spec _ Hne) as (smallest & Hmin & Hsmallest & Hle).
  exists (Greedy.partition ws groups),
         (set_partition_parameters (Greedy.partition ws groups) self),
         largest, smallest.
  split; [by apply partition_parameters_fresh|].
  split; [done|]. split; [done|].
  apply list_elem_of_lookup_1 in Hlargest as [i Hi].
  apply list_elem_of_lookup_1 in Hsmallest as [j Hj].
  split; [by eapply Hle|].
  rewrite rank_numel_partition in Hi, Hj.
  assert (Hbal : balanced (max_list (numel <$> all_params groups))
                   (Greedy.final_sizes (replicate ws 0) groups)).
  { apply final_sizes_balanced.
    - apply length_nonempty. rewrite length_replicate. lia.
    - apply Forall_forall. intros p Hp. apply max_list_elem_of_le.
      by apply list_elem_of_fmap_2.
    - intros a b x y Ha Hb. apply lookup_replicate in Ha as [-> _]. lia. }
  specialize (Hbal _ _ _ _ Hi Hj). lia.
Qed.

Lemma partition_balanced_witness :
  ∃ partition self' largest smallest,
    partition_parameters Ex.oss0 = Some (partition, self')
    ∧ py_max (rank_numel <$> partition) = Some largest
    ∧ py_min (rank_numel <$> partition) = Some smallest
    ∧ smallest ≤ largest
    ∧ largest - smallest ≤ max_list (numel <$> all_params [Ex.g0]).
Proof.
  apply (partition_balanced Ex.oss0).
  - reflexivity.
  - simpl. lia.
  - repeat constructor. by eexists.
Defined.



(** In a world of five, ranks 3 and 4 own nothing of the group and still get
    its record, with an empty list. *)
Example partition_empty_share :
  fst <$> partition_parameters Ex.oss5 =
  Some [ [<["params" := VParams [Ex.p10]]> Ex.g0];
         [<["params" := VParams [Ex.p1a]]> Ex.g0];
         [<["params" := VParams [Ex.p1b]]> Ex.g0];
         [<["params" := VParams []]> Ex.g0];
         [<["params" := VParams []]> Ex.g0] ].
Proof. vm_compute. reflexivity. Qed.

(** ** The issuing loops of [_broadcast_params] *)

Lemma cons_split {A : Type} (a x : A) (l pre post : list A) :
  a :: l = pre ++ x :: post →
  (pre = [] ∧ a = x ∧ l = post) ∨ (∃ pre', pre = a :: pre' ∧ l = pre' ++ x :: post).
Proof.
  destruct pre as [|b pre]; simpl; intros Heq; inversion Heq; subst; eauto.
Qed.

Lemma app_split {A : Type} (x : A) (l1 l2 pre post : list A) :
  l1 ++ l2 = pre ++ x :: post →
  (∃ post', l1 = pre ++ x :: post' ∧ post = post' ++ l2)
  ∨ (∃ pre', l2 = pre' ++ x :: post ∧ pre = l1 ++ pre').
Proof.
  revert pre. induction l1 as [|a l1 IH]; intros pre Heq; simpl in *.
  - right. by exists pre.
  - apply cons_split in Heq as [(-> & -> & <-)|(pre' & -> & Heq)].
    + left. by exists l1.
    + apply IH in Heq as [(post' & -> & ->)|(pre'' & -> & ->)].
      * left. by exists post'.
      * right. by exists pre''.
Qed.

Lemma sum_packed_pack (r : nat) (p : Param) (off e : nat) (ops : list op) :
  sum_list (numel <$> packed_params (OpPack r p off e :: ops)) =
  numel p + sum_list (numel <$> packed_params ops).
Proof. done. Qed.

Lemma sum_packed_broadcast (t : tensor) (g h : nat) (ops : list op) :
  sum_list (numel <$> packed_params (OpBroadcast t g h :: ops)) =
  sum_list (numel <$> packed_params ops).
Proof. done. Qed.

(** The three things that the loop body can do. *)
Lemma issue_param_cases (bs g r : nat) (s : issue) (p : Param) :
  (bucket_sent s = false ∧ offset s + numel p < bs
   ∧ issue_param bs g r s p =
     mkIssue (offset s + numel p) false
             (bucket_params s ++ [(p, offset s, offset s + numel p)])
             (bucket_requests s) (direct_requests s)
             (trace s ++ [OpPack r p (offset s) (offset s + numel p)])
             (next_handle s))
  ∨ (bucket_sent s = false ∧ 0 < offset s
     ∧ issue_param bs g r s p =
       mkIssue (offset s) true (bucket_params s)
               (bucket_requests s ++ [(next_handle s, r, bucket_params s)])
               (direct_requests s ++ [S (next_handle s)])
               ((trace s ++ [OpBroadcast (TBuffer r) g (next_handle s)])
                  ++ [OpBroadcast (TParam p) g (S (next_handle s))])
               (S (S (next_handle s))))
  ∨ (issue_param bs g r s p =
     mkIssue (offset s) (bucket_sent s) (bucket_params s)
             (bucket_requests s) (direct_requests s ++ [next_handle s])
             (trace s ++ [OpBroadcast (TParam p) g (next_handle s)])
             (S (next_handle s))).
Proof.
  unfold issue_param.
  destruct (bucket_sent s) eqn:Hsent; simpl.
  - right; right. rewrite andb_false_r. unfold send_direct. by rewrite Hsent.
  - case_bool_decide as Hfit; simpl.
    + by left.
    + rewrite andb_true_r. case_bool_decide as Hoff.
      * right; left. done.
      * right; right. unfold send_direct. by rewrite Hsent.
Qed.

(** The loop over the parameters of one rank, from any state [s]. *)
Lemma issue_params_spec (bs g r : nat) (params : list Param) :
  ∀ s : issue,
    let s' := foldl (issue_param bs g r) s params in
    ∃ ops,
      trace s' = trace s ++ ops
      ∧ Forall is_request ops
      ∧ bucket_params s' = bucket_params s ++ pack_triples ops
      ∧ offset s' = offset s + sum_list (numel <$> packed_params ops)
      ∧ (offset s ≤ bs → offset s' ≤ bs)
      ∧ packed_params ops ++ direct_params ops ≡ₚ params
      ∧ direct_requests s' = direct_requests s ++ direct_handles ops
      ∧ (bucket_sent s = true →
         bucket_sent s' = true ∧ bucket_requests s' = bucket_requests s
         ∧ bucket_handles ops = [] ∧ pack_triples ops = [])
      ∧ (bucket_sent s = false →
         (bucket_sent s' = false ∧ bucket_requests s' = bucket_requests s
          ∧ bucket_handles ops = [])
         ∨ (bucket_sent s' = true
            ∧ ∃ h, bucket_requests s' = bucket_requests s ++ [(h, r, bucket_params s')]
                   ∧ bucket_handles ops = [h]))
      ∧ (∀ pre r' p off e post,
           ops = pre ++ OpPack r' p off e :: post →
           bucket_sent s = false ∧ r' = r ∧ bucket_handles pre = []
           ∧ off = offset s + sum_list (numel <$> packed_params pre)
           ∧ e = off + numel p ∧ e < bs).
Proof.
  induction params as [|p params IH]; intros s; cbn zeta.
  - exists []. simpl. rewrite !app_nil_r.
    split; [done|]. split; [constructor|]. split; [done|]. split; [lia|].
    split; [done|]. split; [done|]. split; [done|]. split; [done|].
    split; [intros; by left|].
    intros pre r' p off e post Heq. by destruct pre.
  - cbn [foldl].
    destruct (IH (issue_param bs g r s p))
      as (ops & Htr & Hreq & Hbps & Hoff & Hle & Hperm & Hdir & Hsent & Hunsent & Hpacks).
    clear IH. set (s' := foldl (issue_param bs g r) (issue_param bs g r s p) params) in *.
    destruct (issue_param_cases bs g r s p) as
      [(Hs & Hfit & Hstep)|[(Hs & Hpos & Hstep)|Hstep]];
      rewrite Hstep in Htr, Hbps, Hoff, Hle, Hdir, Hsent, Hunsent, Hpacks;
      cbn [offset bucket_sent bucket_params bucket_requests direct_requests trace
           next_handle] in *.
    + (* the parameter is packed *)
      exists (OpPack r p (offset s) (offset s + numel p) :: ops).
      rewrite <- app_assoc in Htr, Hbps. simpl in Htr, Hbps.
      split; [done|]. split; [by constructor|]. split; [done|].
      split; [rewrite sum_packed_pack; lia|]. split; [intros; apply Hle; lia|].
      split; [simpl; by constructor|]. split; [done|].
      split; [congruence|]. split.
      * intros _. destruct (Hunsent eq_refl) as [(? & ? & ?)|(? & h & ? & ?)];
          [left | right]; eauto.
      * intros pre r' p' off e post Heq.
        apply cons_split in Heq as [(-> & Heq & ->)|(pre' & -> & ->)].
        -- inversion Heq; subst. simpl. repeat split; auto; lia.
        -- destruct (Hpacks _ _ _ _ _ _ eq_refl) as (_ & -> & Hb & -> & -> & Hlt).
           rewrite sum_packed_pack. repeat split; auto; lia.
    + (* the bucket is sent, then the parameter *)
      destruct (Hsent eq_refl) as (Hs' & Hbr & Hbh & Hpt).
      exists (OpBroadcast (TBuffer r) g (next_handle s)
              :: OpBroadcast (TParam p) g (S (next_handle s)) :: ops).
      rewrite <- !app_assoc in Htr. rewrite <- app_assoc in Hdir.
      simpl in Htr, Hdir. rewrite Hpt in Hbps. rewrite app_nil_r in Hbps.
      split; [done|]. split; [by repeat constructor|].
      split; [simpl; by rewrite Hpt, app_nil_r|].
      split; [done|]. split; [done|].
      split.
      { unfold packed_params in *. simpl. rewrite Hpt in *. simpl in *.
        by constructor. }
      split; [done|]. split; [congruence|]. split.
      * intros _. right. split; [done|]. exists (next_handle s).
        simpl. rewrite Hbh. by rewrite Hbr, Hbps.
      * intros pre r' p' off e post Heq.
        apply cons_split in Heq as [(_ & Heq & _)|(pre' & -> & Heq)];
          [done|].
        apply cons_split in Heq as [(_ & Heq & _)|(pre'' & -> & ->)];
          [done|].
        by destruct (Hpacks _ _ _ _ _ _ eq_refl) as (? & _).
    + (* the parameter is sent on its own *)
      exists (OpBroadcast (TParam p) g (next_handle s) :: ops).
      rewrite <- app_assoc in Htr, Hdir. simpl in Htr, Hdir.
      split; [done|]. split; [by constructor|]. split; [done|].
      split; [done|]. split; [done|].
      split.
      { simpl. rewrite <- Permutation_middle. by constructor. }
      split; [done|]. split; [done|]. split; [done|].
      intros pre r' p' off e post Heq.
      apply cons_split in Heq as [(_ & Heq & _)|(pre' & -> & ->)]; [done|].
      destruct (Hpacks _ _ _ _ _ _ eq_refl) as (? & -> & Hb & -> & -> & Hlt).
      rewrite sum_packed_broadcast. repeat split; auto.
Qed.

Lemma not_pack_split (o : op) (pre post : list op) (r : nat) (p : Param)
    (off e : nat) :
  [o] = pre ++ OpPack r p off e :: post → o = OpPack r p off e.
Proof.
  intros Heq. apply cons_split in Heq as [(_ & -> & _)|(pre' & _ & Heq)]; [done|].
  by destruct pre'.
Qed.

(** One rank: its calls, and the one bucket request that it leaves. *)
Lemma issue_rank_spec (group : option (nat → nat)) (bs : nat) (s : issue)
    (entry : (nat * list Param) * Buffer) :
  ∃ ops request,
    trace (issue_rank group bs s entry) = trace s ++ ops
    ∧ bucket_requests (issue_rank group bs s entry) = bucket_requests s ++ [request]
    ∧ direct_requests (issue_rank group bs s entry) =
      direct_requests s ++ direct_handles ops
    ∧ rank_issued bs entry ops
    ∧ rank_request entry ops request.
Proof.
  destruct entry as [[r params] buffer]. unfold issue_rank.
  set (g := get_global_rank group r).
  set (s0 := mkIssue 0 false [] (bucket_requests s) (direct_requests s)
                     (trace s) (next_handle s)).
  destruct (issue_params_spec bs g r params s0)
    as (ops & Htr & Hreq & Hbps & Hoff & Hle & Hperm & Hdir & _ & Hunsent & Hpacks).
  set (sl := foldl (issue_param bs g r) s0 params) in *.
  cbn [offset bucket_sent bucket_params bucket_requests direct_requests trace s0] in *.
  specialize (Hle (Nat.le_0_l bs)).
  destruct (Hunsent eq_refl) as [(Hsl & Hbr & Hbh)|(Hsl & h & Hbr & Hbh)];
    rewrite Hsl; cbn [negb].
  - (* the trailing bucket *)
    exists (ops ++ [OpBroadcast (TBuffer r) g (next_handle sl)]),
           (next_handle sl, r, bucket_params sl).
    cbn [send_bucket trace bucket_requests direct_requests].
    assert (Hpt : pack_triples (ops ++ [OpBroadcast (TBuffer r) g (next_handle sl)])
                  = pack_triples ops).
    { unfold pack_triples. rewrite omap_app. simpl. by rewrite app_nil_r. }
    split; [by rewrite Htr, app_assoc|]. split; [by rewrite Hbr|].
    split.
    { rewrite Hdir. unfold direct_handles. rewrite omap_app. simpl.
      by rewrite app_nil_r. }
    split; [|split; [|split]].
    + unfold rank_issued. unfold packed_params. rewrite Hpt.
      fold (packed_params ops). cbn [fst snd].
      split; [apply Forall_app; split; [done | by repeat constructor]|].
      split.
      { unfold direct_params. rewrite omap_app. simpl. by rewrite app_nil_r. }
      split; [lia|]. split.
      * intros pre r' p off e post Heq.
        apply app_split in Heq as [(post' & -> & ->)|(pre' & Heq & ->)].
        -- destruct (Hpacks _ _ _ _ _ _ eq_refl) as (_ & ? & ? & ? & ? & ?).
           repeat split; auto.
        -- by apply not_pack_split in Heq.
      * unfold bucket_handles. rewrite omap_app. fold (bucket_handles ops).
        by rewrite Hbh.
    + cbn [fst snd]. unfold bucket_handles. rewrite omap_app.
      fold (bucket_handles ops). by rewrite Hbh.
    + done.
    + cbn [fst snd]. by rewrite Hbps, Hpt.
  - (* the bucket went out inside the loop *)
    exists ops, (h, r, bucket_params sl).
    split; [done|]. split; [done|]. split; [done|].
    split; [|split; [|split]].
    + unfold rank_issued. cbn [fst snd]. split; [done|]. split; [done|].
      split; [lia|]. split.
      * intros pre r' p off e post Heq.
        destruct (Hpacks _ _ _ _ _ _ Heq) as (_ & ? & ? & ? & ? & ?).
        repeat split; auto.
      * by rewrite Hbh.
    + done.
    + done.
    + cbn [fst snd]. by rewrite Hbps.
Qed.

(** All the ranks of a device, from any state [s]. *)
Lemma issue_ranks_spec (group : option (nat → nat)) (bs : nat)
    (entries : list ((nat * list Param) * Buffer)) :
  ∀ s : issue,
    ∃ segments requests,
      trace (foldl (issue_rank group bs) s entries) = trace s ++ concat segments
      ∧ bucket_requests (foldl (issue_rank group bs) s entries) =
        bucket_requests s ++ requests
      ∧ direct_requests (foldl (issue_rank group bs) s entries) =
        direct_requests s ++ direct_handles (concat segments)
      ∧ Forall2 (rank_issued bs) entries segments
      ∧ Forall3 rank_request entries segments requests.
Proof.
  induction entries as [|entry entries IH]; intros s.
  - exists [], []. simpl. rewrite !app_nil_r. repeat split; constructor.
  - cbn [foldl].
    destruct (issue_rank_spec group bs s entry)
      as (ops & request & Htr & Hbr & Hdir & Hissued & Hrequest).
    destruct (IH (issue_rank group bs s entry))
      as (segments & requests & Htr' & Hbr' & Hdir' & Hall & Hall3).
    exists (ops :: segments), (request :: requests).
    split; [by rewrite Htr', Htr, <- app_assoc|].
    split; [by rewrite Hbr', Hbr, <- app_assoc|].
    split.
    { rewrite Hdir', Hdir, <- app_assoc. simpl. unfold direct_handles.
      by rewrite omap_app. }
    split; by constructor.
Qed.

Lemma entries_lookup (per_rank_params : list (list Param)) (buffers : list Buffer)
    (i : nat) (entry : (nat * list Param) * Buffer) :
  zip (enumerate per_rank_params) buffers !! i = Some entry →
  ∃ params buffer,
    entry = ((i, params), buffer)
    ∧ per_rank_params !! i = Some params ∧ buffers !! i = Some buffer.
Proof.
  intros Hi. apply lookup_zip_with_Some in Hi as (x & buffer & -> & Hx & Hb).
  unfold enumerate in Hx. rewrite enumerate_from_lookup in Hx.
  destruct (per_rank_params !! i) as [params|] eqn:Hp; [|done].
  simpl in Hx. inversion Hx; subst. eauto.
Qed.

Lemma entries_length (per_rank_params : list (list Param)) (buffers : list Buffer) :
  length (zip (enumerate per_rank_params) buffers) =
  length per_rank_params `min` length buffers.
Proof.
  rewrite length_zip_with. unfold enumerate. by rewrite enumerate_from_length.
Qed.

(** ** The completion loops of [_broadcast_params] *)

Lemma unpack_all (buffers : list Buffer) (src : nat)
    (bps : list (Param * nat * nat)) :
  is_Some (buffers !! src) →
  ∀ tr, for_each (λ tr '(p, off, e),
                    _ ← buffers !! src; Some (tr ++ [OpUnpack p src off e]))
                 bps tr =
        Some (tr ++ ((λ t : Param * nat * nat, OpUnpack t.1.1 src t.1.2 t.2) <$> bps)).
Proof.
  intros [buffer Hb]. rewrite Hb.
  induction bps as [|[[p off] e] bps IH]; intros tr; simpl.
  - by rewrite app_nil_r.
  - etransitivity; [apply IH|]. by rewrite <- app_assoc.
Qed.

Lemma unroll_bucket_spec (self_rank : nat) (buffers : list Buffer) (tr : list op)
    (request : bucket_request) :
  is_Some (buffers !! request.1.2) →
  unroll_bucket self_rank buffers tr request =
  Some (tr ++ unroll_ops self_rank request).
Proof.
  destruct request as [[h src] bps]. cbn [fst snd]. intros Hb.
  unfold unroll_bucket, unroll_ops. cbn [fst snd]. cbn beta iota zeta.
  destruct (decide (src ≠ self_rank)); [|done].
  etransitivity; [by apply unpack_all|]. by rewrite <- app_assoc.
Qed.

Lemma unroll_buckets_spec (self_rank : nat) (buffers : list Buffer)
    (requests : list bucket_request) :
  Forall (λ request : bucket_request, is_Some (buffers !! request.1.2)) requests →
  ∀ tr, for_each (unroll_bucket self_rank buffers) requests tr =
        Some (tr ++ concat (unroll_ops self_rank <$> requests)).
Proof.
  induction 1 as [|request requests Hb _ IH]; intros tr; simpl.
  - by rewrite app_nil_r.
  - rewrite unroll_bucket_spec by done. simpl. rewrite IH.
    by rewrite <- app_assoc.
Qed.

(** The whole of [_broadcast_params]: the calls of every rank, then the
    completion of every bucket request, then the waits on the parameters sent
    on their own. *)
Lemma broadcast_params_spec (self : OSS) (buffers : list Buffer)
    (per_rank_params : list (list Param)) (buffer0 : Buffer) :
  buffers !! 0 = Some buffer0 →
  ∃ segments requests,
    _broadcast_params self buffers per_rank_params =
    Some (concat segments
            ++ concat (unroll_ops (rank self) <$> requests)
            ++ (OpWait <$> direct_handles (concat segments)))
    ∧ Forall2 (rank_issued (buf_numel buffer0))
              (zip (enumerate per_rank_params) buffers) segments
    ∧ Forall3 rank_request (zip (enumerate per_rank_params) buffers)
              segments requests.
Proof.
  intros Hb0. unfold _broadcast_params, issue_all. rewrite Hb0. cbn [mbind option_bind].
  destruct (issue_ranks_spec (group self) (buf_numel buffer0)
              (zip (enumerate per_rank_params) buffers) issue_start)
    as (segments & requests & Htr & Hbr & Hdir & Hall & Hall3).
  exists segments, requests. rewrite Htr, Hbr, Hdir. simpl.
  rewrite unroll_buckets_spec.
  - simpl. split; [|done]. by rewrite <- app_assoc.
  - apply Forall_lookup_2. intros i request Hi.
    destruct (Forall3_lookup_r _ _ _ _ _ _ Hall3 Hi)
      as (entry & ops & Hentry & _ & (_ & Hsrc & _)).
    apply entries_lookup in Hentry as (params & buffer & -> & _ & Hbuf).
    rewrite Hsrc. simpl. eauto.
Qed.



Lemma waited_app (ops1 ops2 : list op) :
  waited (ops1 ++ ops2) = waited ops1 ++ waited ops2.
Proof. apply omap_app. Qed.

Lemma bucket_handles_app (ops1 ops2 : list op) :
  bucket_handles (ops1 ++ ops2) = bucket_handles ops1 ++ bucket_handles ops2.
Proof. apply omap_app. Qed.



Lemma waited_unroll_ops (self_rank : nat) (request : bucket_request) :
  waited (unroll_ops self_rank request) = [request.1.1].
Proof.
  unfold unroll_ops, waited. simpl. f_equal.
  destruct (decide (request.1.2 ≠ self_rank)); [|done].
  induction (request.2); simpl; auto.
Qed.


Lemma unroll_ops_completion (self_rank : nat) (request : bucket_request) :
  Forall (λ o, is_completion o
               ∧ ∀ p src off e, o = OpUnpack p src off e → src ≠ self_rank)
         (unroll_ops self_rank request).
Proof.
  unfold unroll_ops. constructor; [done|].
  destruct (decide (request.1.2 ≠ self_rank)) as [Hne|]; [|constructor].
  apply Forall_fmap, Forall_forall. intros t _. simpl. split; [done|].
  intros p src off e Heq. by inversion Heq; subst.
Qed.

(** ** The calls of [_broadcast_params] *)

(** C3. A pass of [_broadcast_params] over one device makes, rank by rank, the
    calls [segments], and only waits and copies out of the buffers after them.
    For each rank, every parameter of its list is packed once or sent on its
    own once (the packed and the directly sent parameters are together a
    rearrangement of the list); the packed element counts add up to at most
    the capacity of the buffer; and each packing copy is made before any
    broadcast of the buffer, at the current offset, and ends strictly below the
    capacity. *)
Theorem bucket_packing (self : OSS) (buffers : list Buffer)
    (per_rank_params : list (list Param)) (buffer0 : Buffer) :
  buffers !! 0 = Some buffer0 →
  ∃ segments completion,
    _broadcast_params self buffers per_rank_params =
    Some (concat segments ++ completion)
    ∧ Forall is_completion completion
    ∧ length segments = length per_rank_params `min` length buffers
    ∧ ∀ r params ops,
        per_rank_params !! r = Some params → segments !! r = Some ops →
        Forall is_request ops
        ∧ packed_params ops ++ direct_params ops ≡ₚ params
        ∧ sum_list (numel <$> packed_params ops) ≤ buf_numel buffer0
        ∧ packs_in_order (buf_numel buffer0) r 0 ops.
Proof.
  intros Hb0.
  destruct (broadcast_params_spec self buffers per_rank_params buffer0 Hb0)
    as (segments & requests & Hrun & Hall & _).
  exists segments, (concat (unroll_ops (rank self) <$> requests)
                    ++ (OpWait <$> direct_handles (concat segments))).
  split; [done|]. split.
  { apply Forall_app. split.
    - apply Forall_concat, Forall_fmap, Forall_forall. intros request _.
      eapply Forall_impl; [apply unroll_ops_completion|]. by intros o [? _].
    - apply Forall_fmap, Forall_forall. by intros h _. }
  split; [by rewrite <- (Forall2_length _ _ _ Hall), entries_length|].
  intros r params ops Hparams Hops.
  destruct (Forall2_lookup_r _ _ _ _ _ Hall Hops) as (entry & Hentry & Hissued).
  apply entries_lookup in Hentry as (params' & buffer & -> & Hparams' & _).
  rewrite Hparams in Hparams'. inversion Hparams'; subst params'.
  destruct Hissued as (? & ? & ? & ? & _). done.
Qed.

Lemma bucket_packing_witness :
  ∃ segments completion,
    _broadcast_params Ex.oss0 Ex.buffers4 Ex.sorted_params =
    Some (concat segments ++ completion)
    ∧ Forall is_completion completion
    ∧ length segments = 2 `min` 2
    ∧ ∀ r params ops,
        Ex.sorted_params !! r = Some params → segments !! r = Some ops →
        Forall is_request ops
        ∧ packed_params ops ++ direct_params ops ≡ₚ params
        ∧ sum_list (numel <$> packed_params ops) ≤ 4
        ∧ packs_in_order 4 r 0 ops.
Proof.
  apply (bucket_packing Ex.oss0 Ex.buffers4 Ex.sorted_params (mkBuffer 4)).
  reflexivity.
Defined.

(** The calls of that pass, seen from rank 0: the two small parameters are
    packed and the buffer is broadcast when the large one overflows it; rank 1
    has nothing and its empty buffer is broadcast all the same. *)
Example broadcast_params_trace :
  _broadcast_params Ex.oss0 Ex.buffers4 Ex.sorted_params =
  Some [ OpPack 0 Ex.p1a 0 1; OpPack 0 Ex.p1b 1 2;
         OpBroadcast (TBuffer 0) 0 0; OpBroadcast (TParam Ex.p10) 0 1;
         OpBroadcast (TBuffer 1) 1 2;
         OpWait 0; OpWait 2; OpWait 1 ].
Proof. reflexivity. Qed.

(** Every rank gets exactly one broadcast of its buffer in a pass, whether or
    not anything was packed into it. *)
Lemma bucket_always_broadcast (self : OSS) (buffers : list Buffer)
    (per_rank_params : list (list Param)) (buffer0 : Buffer) :
  buffers !! 0 = Some buffer0 →
  ∃ segments completion,
    _broadcast_params self buffers per_rank_params =
    Some (concat segments ++ completion)
    ∧ length segments = length per_rank_params `min` length buffers
    ∧ Forall (λ ops, length (bucket_handles ops) = 1) segments.
Proof.
  intros Hb0.
  destruct (broadcast_params_spec self buffers per_rank_params buffer0 Hb0)
    as (segments & requests & Hrun & Hall & _).
  eexists segments, _. split; [done|].
  split; [by rewrite <- (Forall2_length _ _ _ Hall), entries_length|].
  apply Forall_lookup_2. intros r ops Hops.
  destruct (Forall2_lookup_r _ _ _ _ _ Hall Hops) as (entry & _ & Hissued).
  by destruct Hissued as (_ & _ & _ & _ & ?).
Qed.

(** C4, as the code runs.  The only parameter of the rank has ten elements and
    the buffer four: nothing is packed, the parameter is sent on its own, and
    the trailing broadcast of the buffer is issued with an empty bucket. *)
Theorem empty_bucket_is_broadcast :
  _broadcast_params Ex.oss0 [mkBuffer 4] [[Ex.p10]] =
  Some [ OpBroadcast (TParam Ex.p10) 0 0; OpBroadcast (TBuffer 0) 0 1;
         OpWait 1; OpWait 0 ]
  ∧ bucket_requests (issue_all None 4 [mkBuffer 4] [[Ex.p10]]) = [(1, 0, [])]
  ∧ offset (foldl (issue_param 4 0 0) issue_start [Ex.p10]) = 0.
Proof. repeat split. Qed.



(** The same pass seen from rank 3: the parameters packed by rank 0 are copied
    out of its buffer once the broadcast of that buffer has completed. *)
Example broadcast_params_unpack :
  _broadcast_params Ex.oss5 Ex.buffers4 Ex.sorted_params =
  Some [ OpPack 0 Ex.p1a 0 1; OpPack 0 Ex.p1b 1 2;
         OpBroadcast (TBuffer 0) 0 0; OpBroadcast (TParam Ex.p10) 0 1;
         OpBroadcast (TBuffer 1) 1 2;
         OpWait 0; OpUnpack Ex.p1a 0 0 1; OpUnpack Ex.p1b 0 1 2; OpWait 2;
         OpWait 1 ].
Proof. reflexivity. Qed.

(** ** What [_sync_param_groups] leaves alone *)

Lemma sync_rank (b : bool) (self : OSS) :
  rank (_sync_param_groups b self) = rank self.
Proof. unfold _sync_param_groups. by destruct (sync_groups _ _ _). Qed.

Lemma sync_world_size (b : bool) (self : OSS) :
  world_size (_sync_param_groups b self) = world_size self.
Proof. unfold _sync_param_groups. by destruct (sync_groups _ _ _). Qed.

Lemma sync_grads (b : bool) (self : OSS) :
  grads (_sync_param_groups b self) = grads self.
Proof. unfold _sync_param_groups. by destruct (sync_groups _ _ _). Qed.

Lemma sync_partition_parameters (b : bool) (self : OSS) :
  _partition_parameters (_sync_param_groups b self) = _partition_parameters self.
Proof. unfold _sync_param_groups. by destruct (sync_groups _ _ _). Qed.

(** ** Checkpoints *)

Lemma flatten_shards (shards : list value) :
  Forall is_shard shards →
  ∀ partition groups start,
    for_each flatten_shard shards (partition, groups, start) =
    Some (partition ++ offsets start shards,
          groups ++ concat (shard_groups <$> shards),
          (start + Z.of_nat (length (concat (shard_groups <$> shards))))%Z).
Proof.
  induction 1 as [|s shards [_ [gs Hgs]] _ IH]; intros partition groups start.
  - simpl. rewrite !app_nil_r. do 3 f_equal. lia.
  - assert (Hsg : shard_groups s = gs) by (unfold shard_groups; by rewrite Hgs).
    cbn [for_each flatten_shard]. rewrite Hgs. cbn [mbind option_bind].
    rewrite IH, fmap_cons. cbn [offsets concat].
    rewrite Hsg, length_app, <- !app_assoc. cbn [app]. do 2 f_equal. lia.
Qed.

Lemma shard_states (shards : list value) :
  Forall is_shard shards →
  ∃ states, mapM (getitem "state") shards = Some states
            ∧ ∀ r, states !! r = shards !! r ≫= getitem "state".
Proof.
  induction 1 as [|s shards [[st Hst] _] _ (states & Hstates & Hlook)].
  - exists []. split; [done|]. by intros [|r].
  - exists (st :: states). split.
    + cbn. rewrite Hst. cbn. by rewrite Hstates.
    + intros [|r]; simpl; [done | apply Hlook].
Qed.

(** After a consolidation: the global dictionary. *)
Lemma state_dict_global `{Collaborators} (self : OSS) :
  _all_states self ≠ [] → Forall is_shard (_all_states self) →
  ∃ states,
    state_dict self =
    Some (global_state states (concat (shard_groups <$> _all_states self))
                       (offsets 0 (_all_states self)), [])
    ∧ ∀ r, states !! r = _all_states self !! r ≫= getitem "state".
Proof.
  intros Hne Hshards. destruct (shard_states _ Hshards) as (states & Hstates & Hlook).
  exists states. split; [|done]. unfold state_dict.
  destruct (decide (length (_all_states self) = 0)) as [Hlen|_].
  { by destruct (_all_states self). }
  rewrite flatten_shards by done. cbn [mbind option_bind app].
  by rewrite Hstates.
Qed.

Lemma offsets_lookup (shards : list value) (r : nat) (shard : value) :
  shards !! r = Some shard →
  ∀ start,
    offsets start shards !! r =
    Some ((start + Z.of_nat (length (concat (shard_groups <$> take r shards))))%Z,
          (start + Z.of_nat (length (concat (shard_groups <$> take r shards)))
           + Z.of_nat (length (shard_groups shard)))%Z).
Proof.
  revert r. induction shards as [|s shards IH]; intros [|r] Hr start;
    simpl in *; try done.
  - inversion Hr; subst. do 2 f_equal; lia.
  - rewrite (IH r Hr). rewrite length_app.
    change (list_fmap value (list value) shard_groups (take r shards))
      with (shard_groups <$> take r shards).
    do 2 f_equal; lia.
Qed.

Lemma py_slice_middle {A : Type} (pre mid post : list A) :
  py_slice (pre ++ mid ++ post) (Z.of_nat (length pre))
           (Z.of_nat (length pre) + Z.of_nat (length mid)) = mid.
Proof.
  unfold py_slice, clamp. rewrite !length_app.
  destruct (decide (Z.of_nat (length pre) < 0)%Z); [lia|].
  destruct (decide (Z.of_nat (length pre) + Z.of_nat (length mid) < 0)%Z); [lia|].
  replace (Z.to_nat (Z.of_nat (length pre)) `min`
           (length pre + (length mid + length post))) with (length pre) by lia.
  replace (Z.to_nat (Z.of_nat (length pre) + Z.of_nat (length mid)) `min`
           (length pre + (length mid + length post)) - length pre)
    with (length mid) by lia.
  rewrite drop_app_length. by rewrite take_app_length.
Qed.

(** C7. While no shard has been collected, [state_dict] does not fail: it logs
    the two warnings and returns the local state dict with
    ["local_state_dict"] set to [True].  Once shards have been collected, as
    on the recipient rank of [consolidate_state_dict], it returns the global
    dictionary, in which ["local_state_dict"] is [False], and logs nothing. *)
Theorem state_dict_before_and_after `{Collaborators} (self : OSS) :
  (_all_states self = [] →
   state_dict self =
   Some (<["local_state_dict" := VBool true]> (local_state_dict self),
         [warning_not_consolidated; warning_call_consolidate]))
  ∧ (_all_states self ≠ [] → Forall is_shard (_all_states self) →
     ∃ states groups partition,
       state_dict self = Some (global_state states groups partition, [])
       ∧ global_state states groups partition !! "local_state_dict"
         = Some (VBool false))
  ∧ (1 ≤ world_size self →
     Forall is_shard (_all_states (consolidate_state_dict (rank self) self)) →
     length (_all_states (consolidate_state_dict (rank self) self)) = world_size self
     ∧ ∃ states groups partition,
         state_dict (consolidate_state_dict (rank self) self) =
         Some (global_state states groups partition, [])
         ∧ global_state states groups partition !! "local_state_dict"
           = Some (VBool false)).
Proof.
  assert (Hglobal : ∀ self' : OSS,
            _all_states self' ≠ [] → Forall is_shard (_all_states self') →
            ∃ states groups partition,
              state_dict self' = Some (global_state states groups partition, [])
              ∧ global_state states groups partition !! "local_state_dict"
                = Some (VBool false)).
  { intros self' Hne Hshards.
    destruct (state_dict_global self' Hne Hshards) as (states & Hsd & _).
    eexists _, _, _. split; [exact Hsd | done]. }
  split; [|split].
  - intros Hnil. unfold state_dict. by rewrite Hnil.
  - apply Hglobal.
  - intros Hws Hshards.
    assert (Hlen : length (_all_states (consolidate_state_dict (rank self) self))
                   = world_size self).
    { unfold consolidate_state_dict. rewrite sync_rank.
      destruct (decide (rank self = rank self)); [|done].
      cbn [_all_states set_all_states]. unfold _collect_sharded_states.
      by rewrite length_fmap, length_seq, sync_world_size. }
    split; [done|]. apply Hglobal; [|done].
    apply length_nonempty. lia.
Qed.

Lemma state_dict_before_and_after_witness :
  (state_dict (H := Ex.collaborators) Ex.oss0 =
   Some (<["local_state_dict" := VBool true]>
           (local_state_dict (H := Ex.collaborators) Ex.oss0),
         [warning_not_consolidated; warning_call_consolidate]))
  ∧ length (_all_states
              (consolidate_state_dict (H := Ex.collaborators) 0 Ex.oss0)) = 2
  ∧ ∃ states groups partition,
      state_dict (H := Ex.collaborators)
                 (consolidate_state_dict (H := Ex.collaborators) 0 Ex.oss0) =
      Some (global_state states groups partition, [])
      ∧ global_state states groups partition !! "local_state_dict"
        = Some (VBool false).
Proof.
  destruct (state_dict_before_and_after (H := Ex.collaborators) Ex.oss0)
    as (Hbefore & _ & Hafter).
  split; [by apply Hbefore|]. apply Hafter.
  - simpl. lia.
  - repeat constructor; by eexists.
Defined.

Lemma global_state_states (states groups : list value) (partition : list (Z * Z)) :
  global_state states groups partition !! "state" = Some (VList states).
Proof. unfold global_state. by simplify_map_eq. Qed.

Lemma global_state_groups (states groups : list value) (partition : list (Z * Z)) :
  global_state states groups partition !! "param_groups" = Some (VList groups).
Proof. unfold global_state. by simplify_map_eq. Qed.

Lemma global_state_partition (states groups : list value) (partition : list (Z * Z)) :
  global_state states groups partition !! "partition" =
  Some (VList ((λ se : Z * Z, VTuple [VInt se.1; VInt se.2]) <$> partition)).
Proof. unfold global_state. by simplify_map_eq. Qed.

(** C8. For every rank [r] with a collected shard, [rank_local_state_dict r]
    applied to the global dictionary that [state_dict] returns gives back the
    ["state"] and the ["param_groups"] of that shard: the ranges of the
    partition map are the cumulative group counts, so the slice of the
    flattened groups is the shard's own list. *)
Theorem rank_local_round_trip `{Collaborators} (self : OSS) (r : nat)
    (shard state : value) (groups : list value) :
  Forall is_shard (_all_states self) →
  _all_states self !! r = Some shard →
  getitem "state" shard = Some state →
  getitem "param_groups" shard = Some (VList groups) →
  ∃ d,
    state_dict self = Some (d, [])
    ∧ rank_local_state_dict r d =
      Some (<["state" := state]> (<["param_groups" := VList groups]> ∅)).
Proof.
  intros Hshards Hr Hstate Hgroups.
  assert (Hne : _all_states self ≠ []) by (by destruct (_all_states self)).
  destruct (state_dict_global self Hne Hshards) as (states & Hsd & Hlook).
  eexists. split; [exact Hsd|].
  assert (Hsg : shard_groups shard = groups).
  { unfold shard_groups. by rewrite Hgroups. }
  unfold rank_local_state_dict.
  rewrite global_state_groups, global_state_partition, global_state_states.
  cbn [mbind option_bind items].
  rewrite list_lookup_fmap, (offsets_lookup _ _ _ Hr). cbn.
  rewrite Hlook, Hr. cbn [mbind option_bind]. rewrite Hstate. cbn [mbind option_bind].
  do 4 f_equal.
  rewrite <- (take_drop_middle _ _ _ Hr) at 1.
  rewrite fmap_app, fmap_cons, concat_app. cbn [concat]. rewrite Hsg.
  rewrite !Z.add_0_l. apply py_slice_middle.
Qed.

Lemma rank_local_round_trip_witness :
  ∃ d,
    state_dict (H := Ex.collaborators)
               (consolidate_state_dict (H := Ex.collaborators) 0 Ex.oss0) =
    Some (d, [])
    ∧ rank_local_state_dict 1 d =
      Some (<["state" := VInt 1]> (<["param_groups" := VList [VStr "group"]]> ∅)).
Proof.
  apply (rank_local_round_trip (H := Ex.collaborators)
           (consolidate_state_dict (H := Ex.collaborators) 0 Ex.oss0) 1
           (VDict (<["state" := VInt 1]>
                   (<["param_groups" := VList [VStr "group"]]> ∅)))).
  - repeat constructor; by eexists.
  - reflexivity.
  - reflexivity.
  - reflexivity.
Defined.

(** ** The gradients released by [step] *)

Lemma free_grads_lookup (params : list Param) (grads : gmap positive value)
    (key : positive) :
  free_grads params grads !! key =
  if decide (key ∈ pid <$> params) then None else grads !! key.
Proof.
  revert grads. induction params as [|t params IH]; intros grads.
  - simpl. destruct (decide (key ∈ [])) as [Hin|_]; [|done].
    by apply elem_of_nil in Hin.
  - cbn [free_grads foldl]. fold (free_grads params (delete (pid t) grads)).
    rewrite IH, fmap_cons.
    destruct (decide (key ∈ pid <$> params)) as [Hin|Hout].
    + rewrite decide_True by (by right). done.
    + destruct (decide (key = pid t)) as [->|Hne].
      * rewrite decide_True by (by left). apply lookup_delete_eq.
      * rewrite decide_False by (by intros [?|?]%elem_of_cons).
        by apply lookup_delete_ne.
Qed.

Lemma free_grads_app (params1 params2 : list Param) (grads : gmap positive value) :
  free_grads (params1 ++ params2) grads =
  free_grads params2 (free_grads params1 grads).
Proof. apply foldl_app. Qed.

(** The records of one other rank. *)
Lemma free_records (records : list dict) :
  Forall (λ g, is_Some (group_params g)) records →
  ∀ grads,
    for_each (λ grads p, params ← group_params p; Some (free_grads params grads))
             records grads =
    Some (free_grads (params_of records) grads).
Proof.
  induction 1 as [|g records [params Hg] _ IH]; intros grads; [done|].
  cbn [for_each]. rewrite Hg. cbn [mbind option_bind]. rewrite IH.
  by rewrite params_of_cons, Hg, free_grads_app.
Qed.

(** The loop over the ranks releases the parameters of the other ranks. *)
Lemma free_ranks (self_rank : nat) (partition : list (list dict)) :
  Forall (Forall (λ g, is_Some (group_params g))) partition →
  ∀ (k : nat) (grads : gmap positive value),
    for_each (free_rank self_rank) (enumerate_from k partition) grads =
    Some (free_grads (others_from self_rank k partition) grads).
Proof.
  induction 1 as [|records partition Hrecords _ IH]; intros k grads; [done|].
  cbn [enumerate_from for_each free_rank others_from].
  rewrite free_grads_app. destruct (decide (k = self_rank)).
  - cbn [mbind option_bind]. by rewrite IH.
  - rewrite free_records by done. cbn [mbind option_bind]. by rewrite IH.
Qed.

Lemma elem_of_others_from (self_rank : nat) (partition : list (list dict))
    (k : nat) (p : Param) :
  p ∈ others_from self_rank k partition ↔
  ∃ i records, partition !! i = Some records ∧ k + i ≠ self_rank
               ∧ p ∈ params_of records.
Proof.
  revert k. induction partition as [|records partition IH]; intros k.
  - simpl. split; [by intros ?%elem_of_nil | by intros (i & ? & ? & _)].
  - cbn [others_from]. rewrite elem_of_app, IH. split.
    + intros [Hin|(i & recs & Hi & Hne & Hin)].
      * destruct (decide (k = self_rank)); [by apply elem_of_nil in Hin|].
        exists 0, records. split; [done|]. split; [lia | done].
      * exists (S i), recs. split; [done|]. split; [lia | done].
    + intros ([|i] & recs & Hi & Hne & Hin).
      * left. simpl in Hi. inversion Hi; subst.
        rewrite decide_False by lia. done.
      * right. exists i, recs. split; [done|]. split; [lia | done].
Qed.

Lemma sync_keys_global (keys : list string) (g l : dict) :
  (foldl (sync_key false) (g, l) keys).1 = g.
Proof.
  revert l. induction keys as [|k keys IH]; intros l; [done|].
  cbn [foldl]. unfold sync_key at 2.
  destruct (decide (k = "params")); [apply IH|].
  destruct (g !! k); apply IH.
Qed.

Lemma sync_groups_global (globals locals : list dict) :
  (sync_groups false globals locals).1 = globals.
Proof.
  revert locals. induction globals as [|g globals IH]; intros [|l locals];
    try done.
  cbn [sync_groups]. unfold sync_group.
  pose proof (sync_keys_global (map fst (map_to_list l)) g l) as Hg.
  destruct (foldl _ _ _) as [g' l']. simpl in Hg. subst g'.
  specialize (IH locals). destruct (sync_groups false globals locals) as [gs ls].
  simpl in *. by subst.
Qed.

Lemma sync_param_groups_global (self : OSS) :
  param_groups (_sync_param_groups false self) = param_groups self.
Proof.
  unfold _sync_param_groups.
  pose proof (sync_groups_global (param_groups self) (opt_param_groups (optim self))).
  by destruct (sync_groups _ _ _).
Qed.

(** Syncing the hyperparameters of the local groups does not change the
    partition. *)
Lemma partition_parameters_sync (self : OSS) :
  partition_parameters (_sync_param_groups false self) =
  (λ ps, (ps.1, _sync_param_groups false ps.2)) <$> partition_parameters self.
Proof.
  unfold partition_parameters.
  rewrite sync_partition_parameters, sync_world_size, sync_param_groups_global.
  destruct (decide (length (_partition_parameters self) = 0)); [|done].
  destruct (Partition.compute _ _) as [[partition sizes]|]; [|done].
  simpl. do 2 f_equal. unfold _sync_param_groups. simpl.
  by destruct (sync_groups _ _ _).
Qed.

Lemma partition_parameters_frame (self self' : OSS) (partition : list (list dict)) :
  partition_parameters self = Some (partition, self') →
  rank self' = rank self ∧ grads self' = grads self.
Proof.
  unfold partition_parameters.
  destruct (decide (length (_partition_parameters self) = 0)).
  - destruct (Partition.compute _ _) as [[p sizes]|]; [|done].
    simpl. by intros [= <- <-].
  - by intros [= <- <-].
Qed.

Lemma fmap_concat {A B : Type} (f : A → B) (ls : list (list A)) :
  f <$> concat ls = concat ((λ l : list A, f <$> l) <$> ls).
Proof.
  induction ls as [|l ls IH]; [done|]. simpl. by rewrite fmap_app, IH.
Qed.

(** What [_free_other_grads] leaves in [grads]. *)
Lemma free_other_grads_spec (self self' : OSS) (partition : list (list dict)) :
  partition_parameters self = Some (partition, self') →
  Forall (Forall (λ g, is_Some (group_params g))) partition →
  _free_other_grads self =
  Some (set_grads (free_grads (others_from (rank self) 0 partition) (grads self))
                  self').
Proof.
  intros Hpart Hwf. unfold _free_other_grads. rewrite Hpart.
  cbn [mbind option_bind]. unfold enumerate.
  destruct (partition_parameters_frame _ _ _ Hpart) as [-> ->].
  by rewrite free_ranks.
Qed.

(** C9. In [step], the wrapped optimizer is called on the state [prepared],
    in which the gradient of every parameter in the records of another rank is
    [None] and the gradient of every parameter in the records of this rank is
    what it was.  The parameters are distinct objects, each in the records of
    one rank. *)
Theorem step_frees_other_grads `{Collaborators} (closure : option nat)
    (self self' : OSS) (partition : list (list dict)) :
  partition_parameters self = Some (partition, self') →
  Forall (Forall (λ g, is_Some (group_params g))) partition →
  NoDup (pid <$> concat (params_of <$> partition)) →
  ∃ prepared,
    step_prepare self = Some prepared
    ∧ step closure self =
      step_finish prepared (optim_step closure (optim prepared) (grads prepared))
    ∧ ∀ r records p,
        partition !! r = Some records → p ∈ params_of records →
        (r ≠ rank self → grads prepared !! pid p = None)
        ∧ (r = rank self → grads prepared !! pid p = grads self !! pid p).
Proof.
  intros Hpart Hwf Hnd.
  assert (Hprep : step_prepare self =
            Some (set_grads (free_grads (others_from (rank self) 0 partition)
                                        (grads self))
                            (_sync_param_groups false self'))).
  { unfold step_prepare.
    rewrite (free_other_grads_spec _ (_sync_param_groups false self') partition).
    - by rewrite sync_rank, sync_grads.
    - by rewrite partition_parameters_sync, Hpart.
    - done. }
  eexists. split; [exact Hprep|]. split.
  { unfold step. by rewrite Hprep. }
  intros r records p Hr Hp. cbn [grads set_grads].
  rewrite free_grads_lookup. split.
  - intros Hne. rewrite decide_True; [done|].
    apply list_elem_of_fmap_2, elem_of_others_from. by exists r, records.
  - intros ->. rewrite decide_False; [done|].
    intros (q & Hpid & Hq)%list_elem_of_fmap.
    apply elem_of_others_from in Hq as (i & recs & Hi & Hne & Hq).
    rewrite fmap_concat, <- list_fmap_compose in Hnd.
    assert (rank self = i); [|lia].
    eapply (NoDup_concat_lookup _ (rank self) i _ _ (pid p) Hnd).
    + by rewrite list_lookup_fmap, Hr.
    + by rewrite list_lookup_fmap, Hi.
    + simpl. by apply list_elem_of_fmap_2.
    + simpl. rewrite Hpid. by apply list_elem_of_fmap_2.
Qed.

Lemma step_frees_other_grads_witness :
  ∃ prepared,
    step_prepare Ex.oss_grads = Some prepared
    ∧ step (H := Ex.collaborators) None Ex.oss_grads =
      step_finish prepared
        (optim_step (Collaborators := Ex.collaborators) None
                    (optim prepared) (grads prepared))
    ∧ ∀ r records p,
        Ex.partition0 !! r = Some records → p ∈ params_of records →
        (r ≠ 0 → grads prepared !! pid p = None)
        ∧ (r = 0 → grads prepared !! pid p = grads Ex.oss_grads !! pid p).
Proof.
  apply (step_frees_other_grads (H := Ex.collaborators) None Ex.oss_grads
           (set_partition_parameters Ex.partition0 Ex.oss_grads) Ex.partition0).
  - vm_compute. reflexivity.
  - repeat constructor; by eexists.
  - apply (bool_decide_unpack _). vm_compute. reflexivity.
Defined.

(** On rank 0 the step keeps the gradient of the parameter of ten elements and
    releases the two others before the wrapped optimizer runs. *)
Example step_prepare_grads :
  grads <$> step_prepare Ex.oss_grads =
  Some (<[1%positive := VStr "grad10"]> ∅).
Proof. vm_compute. reflexivity. Qed.

Lemma concat_fmap_app_perm {A : Type} (f h : nat → list A) (l : list nat) :
  concat ((λ r, f r ++ h r) <$> l) ≡ₚ concat (f <$> l) ++ concat (h <$> l).
Proof.
  induction l as [|r l IH]; [done|]. rewrite !fmap_cons. cbn [concat].
  rewrite IH, <- !app_assoc. f_equiv.
  rewrite !app_assoc. f_equiv. apply Permutation_app_comm.
Qed.

(** The records of all the ranks hold the parameters of all the groups. *)
Lemma partition_params_perm (groups : list dict) :
  ∀ (sizes : list nat),
    0 < length sizes →
    concat ((λ r, params_of (Greedy.records r sizes groups)) <$> seq 0 (length sizes))
    ≡ₚ all_params groups.
Proof.
  induction groups as [|g groups IH]; intros sizes Hpos.
  - simpl. induction (seq 0 (length sizes)); simpl; auto.
  - cbn [Greedy.records]. rewrite all_params_cons.
    erewrite list_fmap_ext; last first.
    { intros i r _. rewrite params_of_cons, group_params_record. cbn [default].
      reflexivity. }
    rewrite (concat_fmap_app_perm
               (λ r, Greedy.share r sizes g)
               (λ r, params_of (Greedy.records r
                       (Greedy.sizes_after sizes (Greedy.numels g)) groups))).
    f_equiv.
    + unfold Greedy.share. apply select_partition.
      * unfold Greedy.numels. by rewrite ranks_length, length_fmap.
      * by apply ranks_lt.
    + rewrite <- (sizes_after_length (Greedy.numels g) sizes).
      apply IH. by rewrite sizes_after_length.
Qed.

(** With an empty cache and distinct parameters in the global groups, the
    partition that [step] consults has well-formed records and holds each
    parameter once. *)
Lemma fresh_partition_distinct (self : OSS) :
  _partition_parameters self = [] → 1 ≤ world_size self →
  well_formed (param_groups self) →
  NoDup (pid <$> all_params (param_groups self)) →
  ∃ partition self',
    partition_parameters self = Some (partition, self')
    ∧ Forall (Forall (λ g, is_Some (group_params g))) partition
    ∧ NoDup (pid <$> concat (params_of <$> partition)).
Proof.
  intros Hcache Hws Hwf Hnd. eexists _, _.
  split; [by apply partition_parameters_fresh|]. split.
  - apply Forall_lookup_2. intros r records Hr.
    assert (r < world_size self).
    { apply lookup_lt_Some in Hr. by rewrite partition_length in Hr. }
    rewrite partition_lookup in Hr by done. inversion Hr; subst.
    apply Forall_lookup_2. intros gi record Hrec.
    destruct (lookup_lt_is_Some_2 (param_groups self) gi) as [g Hg].
    { apply lookup_lt_Some in Hrec. by rewrite records_length in Hrec. }
    rewrite (records_lookup _ _ _ _ _ Hg) in Hrec. inversion Hrec; subst.
    rewrite group_params_record. eauto.
  - unfold Greedy.partition. rewrite <- list_fmap_compose. unfold compose.
    pose proof (partition_params_perm (param_groups self)
                  (replicate (world_size self) 0)) as Hperm.
    rewrite length_replicate in Hperm. by rewrite Hperm.
Qed.

(** * More properties of the module *)

(** ** Growing the list of groups *)

Lemma final_sizes_app (groups more : list dict) (sizes : list nat) :
  Greedy.final_sizes sizes (groups ++ more) =
  Greedy.final_sizes (Greedy.final_sizes sizes groups) more.
Proof.
  revert sizes. induction groups as [|g groups IH]; intros sizes; [done|].
  simpl. apply IH.
Qed.

Lemma records_app (r : nat) (groups more : list dict) (sizes : list nat) :
  Greedy.records r sizes (groups ++ more) =
  Greedy.records r sizes groups
    ++ Greedy.records r (Greedy.final_sizes sizes groups) more.
Proof.
  revert sizes. induction groups as [|g groups IH]; intros sizes; [done|].
  simpl. by rewrite IH.
Qed.

(** X1. Appending groups to the global list leaves the records that every rank
    holds for the earlier groups as they were: a parameter never changes rank
    when groups are added after it.  Each rank gets one more record per added
    group. *)
Theorem partition_extends (self1 self2 : OSS) (more : list dict) :
  _partition_parameters self1 = [] → _partition_parameters self2 = [] →
  world_size self2 = world_size self1 → 1 ≤ world_size self1 →
  param_groups self2 = param_groups self1 ++ more →
  well_formed (param_groups self2) →
  ∃ partition1 partition2 self1' self2',
    partition_parameters self1 = Some (partition1, self1')
    ∧ partition_parameters self2 = Some (partition2, self2')
    ∧ Forall2 (λ records1 records2,
                 ∃ new, records2 = records1 ++ new ∧ length new = length more)
              partition1 partition2.
Proof.
  intros Hc1 Hc2 Hws Hpos Hgroups Hwf.
  assert (Hwf1 : well_formed (param_groups self1)).
  { rewrite Hgroups in Hwf. by apply Forall_app in Hwf as [? _]. }
  eexists _, _, _, _.
  split; [by apply partition_parameters_fresh|].
  split; [apply partition_parameters_fresh; [done | lia | done]|].
  rewrite Hws, Hgroups. unfold Greedy.partition.
  apply Forall2_fmap, Forall_Forall2_diag, Forall_forall. intros r _.
  rewrite records_app. eexists. split; [done|]. apply records_length.
Qed.

Lemma partition_extends_witness :
  ∃ partition1 partition2 self1' self2',
    partition_parameters Ex.oss0 = Some (partition1, self1')
    ∧ partition_parameters (set_param_groups [Ex.g0; Ex.g0] Ex.oss0)
      = Some (partition2, self2')
    ∧ Forall2 (λ records1 records2,
                 ∃ new, records2 = records1 ++ new ∧ length new = length [Ex.g0])
              partition1 partition2.
Proof.
  apply (partition_extends Ex.oss0 (set_param_groups [Ex.g0; Ex.g0] Ex.oss0)
           [Ex.g0]).
  - reflexivity.
  - reflexivity.
  - reflexivity.
  - simpl. lia.
  - reflexivity.
  - repeat constructor; by eexists.
Defined.

(** ** The load of the fullest rank *)

Lemma sum_list_concat_numel (ls : list (list Param)) :
  sum_list (numel <$> concat ls) =
  sum_list ((λ l : list Param, sum_list (numel <$> l)) <$> ls).
Proof.
  induction ls as [|l ls IH]; [done|].
  rewrite fmap_cons. cbn [concat]. rewrite fmap_app, sum_list_with_app, IH. done.
Qed.

Lemma sum_list_lower (bound mx : nat) (l : list nat) :
  Forall (λ x, mx ≤ x + bound) l →
  length l * mx ≤ sum_list l + length l * bound.
Proof.
  induction 1 as [|x l Hx _ IH]; [simpl; lia|].
  cbn [length sum_list_with]. unfold id at 1. lia.
Qed.

Lemma balanced_load (bound mx i : nat) (sizes : list nat) :
  balanced bound sizes → sizes !! i = Some mx →
  length sizes * mx ≤ sum_list sizes + (length sizes - 1) * bound.
Proof.
  intros Hbal Hi.
  assert (Hall : Forall (λ x, mx ≤ x + bound) sizes).
  { apply Forall_lookup_2. intros j x Hj. by apply (Hbal i j). }
  rewrite <- (take_drop_middle _ _ _ Hi) in Hall |- *.
  apply Forall_app in Hall as [Htake Hdrop].
  apply Forall_cons in Hdrop as [_ Hdrop].
  apply sum_list_lower in Htake, Hdrop.
  rewrite length_app, sum_list_with_app. cbn [length sum_list_with]. unfold id at 2.
  generalize dependent (length (take i sizes)).
  generalize dependent (length (drop (S i) sizes)).
  intros n Hdrop m Htake. nia.
Qed.

(** X2. The per-rank totals add up to the element count of all the parameters,
    and the fullest rank holds at most its even share plus the largest
    parameter: [world_size * largest <= total + (world_size - 1) * biggest]. *)
Theorem partition_load_bound (self : OSS) :
  _partition_parameters self = [] → 1 ≤ world_size self →
  well_formed (param_groups self) →
  ∃ partition self' largest,
    partition_parameters self = Some (partition, self')
    ∧ sum_list (rank_numel <$> partition)
      = sum_list (numel <$> all_params (param_groups self))
    ∧ py_max (rank_numel <$> partition) = Some largest
    ∧ world_size self * largest
      ≤ sum_list (numel <$> all_params (param_groups self))
        + (world_size self - 1) * max_list (numel <$> all_params (param_groups self)).
Proof.
  intros Hcache Hws Hwf.
  set (ws := world_size self) in *. set (groups := param_groups self) in *.
  assert (Hne : rank_numel <$> Greedy.partition ws groups ≠ []).
  { apply length_nonempty. rewrite length_fmap, partition_length. lia. }
  destruct (py_max_spec _ Hne) as (largest & Hmax & Hlargest).
  assert (Hsum : sum_list (rank_numel <$> Greedy.partition ws groups)
                 = sum_list (numel <$> all_params groups)).
  { pose proof (partition_params_perm groups (replicate ws 0)) as Hperm.
    rewrite length_replicate in Hperm. rewrite <- Hperm by lia.
    rewrite sum_list_concat_numel. unfold Greedy.partition.
    by rewrite <- !list_fmap_compose. }
  exists (Greedy.partition ws groups),
         (set_partition_parameters (Greedy.partition ws groups) self), largest.
  split; [by apply partition_parameters_fresh|]. split; [done|]. split; [done|].
  apply list_elem_of_lookup_1 in Hlargest as [i Hi].
  rewrite <- Hsum. rewrite rank_numel_partition in Hi |- *.
  assert (Hbal : balanced (max_list (numel <$> all_params groups))
                   (Greedy.final_sizes (replicate ws 0) groups)).
  { apply final_sizes_balanced.
    - apply length_nonempty. rewrite length_replicate. lia.
    - apply Forall_forall. intros p Hp. apply max_list_elem_of_le.
      by apply list_elem_of_fmap_2.
    - intros a b x y Ha Hb. apply lookup_replicate in Ha as [-> _]. lia. }
  pose proof (balanced_load _ _ _ _ Hbal Hi) as Hload.
  by rewrite final_sizes_length, length_replicate in Hload.
Qed.

Lemma partition_load_bound_witness :
  ∃ partition self' largest,
    partition_parameters Ex.oss0 = Some (partition, self')
    ∧ sum_list (rank_numel <$> partition)
      = sum_list (numel <$> all_params [Ex.g0])
    ∧ py_max (rank_numel <$> partition) = Some largest
    ∧ 2 * largest
      ≤ sum_list (numel <$> all_params [Ex.g0])
        + (2 - 1) * max_list (numel <$> all_params [Ex.g0]).
Proof.
  apply (partition_load_bound Ex.oss0).
  - reflexivity.
  - simpl. lia.
  - repeat constructor; by eexists.
Defined.

(** ** What [_sync_param_groups] writes *)

Lemma elem_of_keys (l : dict) (k : string) :
  k ∈ map fst (map_to_list l) ↔ is_Some (l !! k).
Proof.
  rewrite list_elem_of_In, in_map_iff. split.
  - intros ([k' v] & <- & Hin). apply list_elem_of_In, elem_of_map_to_list in Hin.
    by exists v.
  - intros [v Hv]. exists (k, v). split; [done|].
    by apply list_elem_of_In, elem_of_map_to_list.
Qed.

Lemma sync_keys_up (keys : list string) (l : dict) :
  ∀ g : dict,
    ∃ g', foldl (sync_key true) (g, l) keys = (g', l)
          ∧ ∀ k, g' !! k =
                 if decide (k ∈ keys ∧ k ≠ "params" ∧ is_Some (l !! k))
                 then l !! k else g !! k.
Proof.
  induction keys as [|k0 keys IH]; intros g.
  - exists g. split; [done|]. intros k. rewrite decide_False; [done|].
    by intros [?%elem_of_nil _].
  - cbn [foldl]. unfold sync_key at 2.
    destruct (decide (k0 = "params")) as [->|Hk0].
    + destruct (IH g) as (g' & -> & Hg'). exists g'. split; [done|].
      intros k. rewrite Hg'.
      destruct (decide (k ∈ keys ∧ k ≠ "params" ∧ is_Some (l !! k)))
        as [(? & ? & ?)|Hno].
      * rewrite decide_True; [done|]. repeat split; [by right | done | done].
      * rewrite decide_False; [done|].
        intros ([->|?]%elem_of_cons & ? & ?); [done|]. by apply Hno.
    + cbn [sync_key]. destruct (l !! k0) as [v|] eqn:Hv.
      * destruct (IH (<[k0 := v]> g)) as (g' & -> & Hg'). exists g'.
        split; [done|]. intros k. rewrite Hg'.
        destruct (decide (k ∈ keys ∧ k ≠ "params" ∧ is_Some (l !! k)))
          as [(? & ? & ?)|Hno].
        -- rewrite decide_True; [done|]. repeat split; [by right | done | done].
        -- destruct (decide (k = k0)) as [->|Hne].
           ++ rewrite decide_True by (repeat split; [by left | done | by eexists]).
              by rewrite lookup_insert_eq.
           ++ rewrite lookup_insert_ne by done. rewrite decide_False; [done|].
              intros ([->|?]%elem_of_cons & ? & ?); [done|]. by apply Hno.
      * destruct (IH g) as (g' & -> & Hg'). exists g'. split; [done|].
        intros k. rewrite Hg'.
        destruct (decide (k ∈ keys ∧ k ≠ "params" ∧ is_Some (l !! k)))
          as [(? & ? & ?)|Hno].
        -- rewrite decide_True; [done|]. repeat split; [by right | done | done].
        -- rewrite decide_False; [done|].
           intros ([->|?]%elem_of_cons & ? & [? ?]); [congruence|].
           apply Hno. repeat split; [done | done | by eexists].
Qed.

(** Syncing one pair of groups upwards: the entries of the local group other
    than ["params"] are written over the global group. *)
Lemma sync_group_up (g l : dict) :
  sync_group true g l = (hyperparams l ∪ g, l).
Proof.
  unfold sync_group.
  destruct (sync_keys_up (map fst (map_to_list l)) l g) as (g' & -> & Hg').
  f_equal. apply map_eq. intros k. rewrite Hg'. unfold hyperparams.
  destruct (decide (k ∈ map fst (map_to_list l) ∧ k ≠ "params" ∧ is_Some (l !! k)))
    as [(_ & Hne & [v Hv])|Hno].
  - rewrite Hv. symmetry. apply lookup_union_Some_l. by rewrite lookup_delete_ne.
  - symmetry. apply lookup_union_r.
    destruct (decide (k = "params")) as [->|Hne]; [apply lookup_delete_eq|].
    rewrite lookup_delete_ne by done.
    destruct (l !! k) as [v|] eqn:Hv; [|done]. exfalso. apply Hno.
    repeat split; [|done|by eexists]. apply elem_of_keys. rewrite Hv. by eexists.
Qed.

Lemma sync_keys_down (keys : list string) (g : dict) :
  ∀ l : dict,
    ∃ l', foldl (sync_key false) (g, l) keys = (g, l')
          ∧ ∀ k, l' !! k =
                 if decide (k ∈ keys ∧ k ≠ "params" ∧ is_Some (g !! k))
                 then g !! k else l !! k.
Proof.
  induction keys as [|k0 keys IH]; intros l.
  - exists l. split; [done|]. intros k. rewrite decide_False; [done|].
    by intros [?%elem_of_nil _].
  - cbn [foldl]. unfold sync_key at 2.
    destruct (decide (k0 = "params")) as [->|Hk0].
    + destruct (IH l) as (l' & -> & Hl'). exists l'. split; [done|].
      intros k. rewrite Hl'.
      destruct (decide (k ∈ keys ∧ k ≠ "params" ∧ is_Some (g !! k)))
        as [(? & ? & ?)|Hno].
      * rewrite decide_True; [done|]. repeat split; [by right | done | done].
      * rewrite decide_False; [done|].
        intros ([->|?]%elem_of_cons & ? & ?); [done|]. by apply Hno.
    + cbn [sync_key]. destruct (g !! k0) as [v|] eqn:Hv.
      * destruct (IH (<[k0 := v]> l)) as (l' & -> & Hl'). exists l'.
        split; [done|]. intros k. rewrite Hl'.
        destruct (decide (k ∈ keys ∧ k ≠ "params" ∧ is_Some (g !! k)))
          as [(? & ? & ?)|Hno].
        -- rewrite decide_True; [done|]. repeat split; [by right | done | done].
        -- destruct (decide (k = k0)) as [->|Hne].
           ++ rewrite decide_True by (repeat split; [by left | done | by eexists]).
              by rewrite lookup_insert_eq.
           ++ rewrite lookup_insert_ne by done. rewrite decide_False; [done|].
              intros ([->|?]%elem_of_cons & ? & ?); [done|]. by apply Hno.
      * destruct (IH l) as (l' & -> & Hl'). exists l'. split; [done|].
        intros k. rewrite Hl'.
        destruct (decide (k ∈ keys ∧ k ≠ "params" ∧ is_Some (g !! k)))
          as [(? & ? & ?)|Hno].
        -- rewrite decide_True; [done|]. repeat split; [by right | done | done].
        -- rewrite decide_False; [done|].
           intros ([->|?]%elem_of_cons & ? & [? ?]); [congruence|].
           apply Hno. repeat split; [done | done | by eexists].
Qed.

(** Syncing one pair of groups downwards: every key of the local group other
    than ["params"] takes the value that the global group has for it, if it
    has one. *)
Lemma sync_group_down (g l : dict) :
  ∃ l', sync_group false g l = (g, l')
        ∧ ∀ k, l' !! k =
               if decide (is_Some (l !! k) ∧ k ≠ "params" ∧ is_Some (g !! k))
               then g !! k else l !! k.
Proof.
  unfold sync_group.
  destruct (sync_keys_down (map fst (map_to_list l)) g l) as (l' & -> & Hl').
  exists l'. split; [done|]. intros k. rewrite Hl'.
  destruct (decide (k ∈ map fst (map_to_list l) ∧ k ≠ "params" ∧ is_Some (g !! k)))
    as [(Hin & ? & ?)|Hno].
  - apply elem_of_keys in Hin. by rewrite decide_True.
  - rewrite decide_False; [done|]. intros (Hin & ? & ?). apply Hno.
    by rewrite elem_of_keys.
Qed.

Lemma sync_groups_lookup (b : bool) (globals locals : list dict) :
  length (sync_groups b globals locals).1 = length globals
  ∧ length (sync_groups b globals locals).2 = length locals
  ∧ ∀ i,
      (sync_groups b globals locals).1 !! i =
      match globals !! i, locals !! i with
      | Some g, Some l => Some (sync_group b g l).1
      | _, _ => globals !! i
      end
      ∧ (sync_groups b globals locals).2 !! i =
        match globals !! i, locals !! i with
        | Some g, Some l => Some (sync_group b g l).2
        | _, _ => locals !! i
        end.
Proof.
  revert locals. induction globals as [|g globals IH]; intros [|l locals].
  - repeat split; done.
  - split; [done|]. split; [done|]. intros i. cbn [sync_groups fst snd].
    rewrite !lookup_nil. by split.
  - split; [done|]. split; [done|]. intros i. cbn [sync_groups fst snd].
    rewrite !lookup_nil. split; by destruct ((g :: globals) !! i).
  - cbn [sync_groups]. destruct (sync_group b g l) as [g' l'] eqn:Hpair.
    destruct (IH locals) as (Hlen1 & Hlen2 & Hlook).
    destruct (sync_groups b globals locals) as [gs ls]. cbn [fst snd] in *.
    split; [simpl; lia|]. split; [simpl; lia|].
    intros [|i]; [simpl; by rewrite Hpair|]. apply Hlook.
Qed.

(** X3. With [local_to_global=True], [_sync_param_groups] leaves the wrapped
    optimizer as it is and writes every entry of a local group other than
    ["params"] over the global group of the same index: the global group keeps
    its ["params"] and the keys that the local group does not have.  Global
    groups without a local counterpart are not touched. *)
Theorem sync_local_to_global (self : OSS) :
  opt_param_groups (optim (_sync_param_groups true self))
  = opt_param_groups (optim self)
  ∧ opt_state (optim (_sync_param_groups true self)) = opt_state (optim self)
  ∧ length (param_groups (_sync_param_groups true self))
    = length (param_groups self)
  ∧ ∀ i g,
      param_groups self !! i = Some g →
      ∃ g',
        param_groups (_sync_param_groups true self) !! i = Some g'
        ∧ g' !! "params" = g !! "params"
        ∧ g' = match opt_param_groups (optim self) !! i with
               | Some l => hyperparams l ∪ g
               | None => g
               end.
Proof.
  unfold _sync_param_groups.
  destruct (sync_groups_lookup true (param_groups self)
              (opt_param_groups (optim self))) as (Hlen1 & Hlen2 & Hlook).
  destruct (sync_groups true _ _) as [globals locals]. cbn [fst snd] in *.
  cbn [optim set_optim opt_param_groups opt_state param_groups set_param_groups].
  split.
  { apply list_eq. intros i. destruct (Hlook i) as [_ ->].
    destruct (param_groups self !! i) as [g|]; [|done].
    destruct (opt_param_groups (optim self) !! i) as [l|]; [|done].
    by rewrite sync_group_up. }
  split; [done|]. split; [done|].
  intros i g Hg. destruct (Hlook i) as [-> _]. rewrite Hg.
  destruct (opt_param_groups (optim self) !! i) as [l|].
  - rewrite sync_group_up. eexists. split; [done|]. split; [|done].
    unfold hyperparams. apply lookup_union_r, lookup_delete_eq.
  - eauto.
Qed.

(** X4. With [local_to_global=False], [_sync_param_groups] leaves the global
    groups as they are.  A local group keeps its keys and its ["params"];
    every other key takes the value that the global group of the same index
    has for it, and keeps its own when the global group lacks the key or
    there is no such global group. *)
Theorem sync_global_to_local (self : OSS) :
  param_groups (_sync_param_groups false self) = param_groups self
  ∧ opt_state (optim (_sync_param_groups false self)) = opt_state (optim self)
  ∧ length (opt_param_groups (optim (_sync_param_groups false self)))
    = length (opt_param_groups (optim self))
  ∧ ∀ i l,
      opt_param_groups (optim self) !! i = Some l →
      ∃ l',
        opt_param_groups (optim (_sync_param_groups false self)) !! i = Some l'
        ∧ dom l' = dom l
        ∧ l' !! "params" = l !! "params"
        ∧ ∀ k, k ≠ "params" → is_Some (l !! k) →
               l' !! k = match param_groups self !! i ≫= (λ g : dict, g !! k) with
                         | Some v => Some v
                         | None => l !! k
                         end.
Proof.
  split; [apply sync_param_groups_global|].
  unfold _sync_param_groups.
  destruct (sync_groups_lookup false (param_groups self)
              (opt_param_groups (optim self))) as (Hlen1 & Hlen2 & Hlook).
  destruct (sync_groups false _ _) as [globals locals]. cbn [fst snd] in *.
  cbn [optim set_optim opt_param_groups opt_state].
  split; [done|]. split; [done|].
  intros i l Hl. destruct (Hlook i) as [_ ->]. rewrite Hl.
  destruct (param_groups self !! i) as [g|]; cbn [mbind option_bind].
  - destruct (sync_group_down g l) as (l' & -> & Hl'). cbn [snd].
    exists l'. split; [done|]. split; [|split].
    + apply set_eq. intros k. rewrite !elem_of_dom, Hl'.
      destruct (decide (is_Some (l !! k) ∧ k ≠ "params" ∧ is_Some (g !! k)))
        as [(? & _ & ?)|_]; [|done]. by split.
    + rewrite Hl'. rewrite decide_False; [done|]. by intros (_ & ? & _).
    + intros k Hk Hin. rewrite Hl'.
      destruct (g !! k) as [v|] eqn:Hv.
      * rewrite decide_True; [done|]. repeat split; [done | done | by eexists].
      * rewrite decide_False; [done|]. by intros (_ & _ & [? ?]).
  - exists l. repeat split; done.
Qed.

Lemma sync_group_down_after_up (g l : dict) :
  sync_group false (hyperparams l ∪ g) l = (hyperparams l ∪ g, l).
Proof.
  destruct (sync_group_down (hyperparams l ∪ g) l) as (l' & -> & Hl').
  f_equal. apply map_eq. intros k. rewrite Hl'.
  destruct (decide (is_Some (l !! k) ∧ k ≠ "params"
                    ∧ is_Some ((hyperparams l ∪ g) !! k)))
    as [([v Hv] & Hne & _)|_]; [|done].
  rewrite Hv. apply lookup_union_Some_l. unfold hyperparams.
  by rewrite lookup_delete_ne.
Qed.

Lemma sync_groups_up_down (globals locals : list dict) :
  (sync_groups true globals locals).2 = locals
  ∧ sync_groups false (sync_groups true globals locals).1 locals
    = ((sync_groups true globals locals).1, locals).
Proof.
  revert locals. induction globals as [|g globals IH]; intros [|l locals];
    try done.
  cbn [sync_groups]. rewrite sync_group_up.
  destruct (IH locals) as [Hsnd Hdown].
  destruct (sync_groups true globals locals) as [gs ls]. cbn [fst snd] in *.
  subst ls. split; [done|]. cbn [sync_groups].
  by rewrite sync_group_down_after_up, Hdown.
Qed.

(** X5. Once the hyperparameters of the wrapped optimizer have been synced to the
    global groups, as at the end of [step], syncing in the other direction, as
    at the start of the next [step], changes nothing: only a write to the
    global groups in between makes the second sync act. *)
Theorem sync_down_after_up (self : OSS) :
  _sync_param_groups false (_sync_param_groups true self)
  = _sync_param_groups true self.
Proof.
  unfold _sync_param_groups at 2 3.
  destruct (sync_groups_up_down (param_groups self)
              (opt_param_groups (optim self))) as [Hsnd Hdown].
  destruct (sync_groups true _ _) as [gs ls]. cbn [fst snd] in *. subst ls.
  unfold _sync_param_groups.
  cbn [param_groups set_optim set_param_groups optim opt_param_groups opt_state].
  by rewrite Hdown.
Qed.

(** ** More on the checkpoints *)

Lemma rank_local_of_global (shards states : list value) (r : nat)
    (shard state : value) :
  shards !! r = Some shard → states !! r = Some state →
  rank_local_state_dict r
    (global_state states (concat (shard_groups <$> shards)) (offsets 0 shards)) =
  Some (<["state" := state]> (<["param_groups" := VList (shard_groups shard)]> ∅)).
Proof.
  intros Hr Hstate. unfold rank_local_state_dict.
  rewrite global_state_groups, global_state_partition, global_state_states.
  cbn [mbind option_bind items].
  rewrite list_lookup_fmap, (offsets_lookup _ _ _ Hr). cbn.
  rewrite Hstate. cbn [mbind option_bind]. do 4 f_equal.
  rewrite <- (take_drop_middle _ _ _ Hr) at 1.
  rewrite fmap_app, fmap_cons, concat_app. cbn [concat].
  rewrite !Z.add_0_l. apply py_slice_middle.
Qed.

Lemma flatten_length (shards : list value) :
  ∀ acc1 acc2 acc3 p g s,
    for_each flatten_shard shards (acc1, acc2, acc3) = Some (p, g, s) →
    length p = length acc1 + length shards.
Proof.
  induction shards as [|x shards IH]; intros acc1 acc2 acc3 p g s Hrun.
  - inversion Hrun; subst. simpl. lia.
  - cbn [for_each flatten_shard] in Hrun.
    destruct (getitem "param_groups" x ≫= items) as [gs|]; [|done].
    cbn [mbind option_bind] in Hrun.
    apply IH in Hrun. rewrite length_app in Hrun. simpl in *. lia.
Qed.

(** X6. Cutting the global dictionary rank by rank with [rank_local_state_dict]
    and putting the slices end to end gives back its flattened
    ["param_groups"]: the ranges of the partition map are adjacent, start at 0
    and cover the whole list, one per collected shard. *)
Theorem partition_map_tiles `{Collaborators} (self : OSS) :
  _all_states self ≠ [] → Forall is_shard (_all_states self) →
  ∃ d slices,
    state_dict self = Some (d, [])
    ∧ mapM (λ r, rank_groups r d) (seq 0 (length (_all_states self)))
      = Some slices
    ∧ d !! "param_groups" = Some (VList (concat slices)).
Proof.
  intros Hne Hshards.
  destruct (state_dict_global self Hne Hshards) as (states & Hsd & Hlook).
  exists (global_state states (concat (shard_groups <$> _all_states self))
                       (offsets 0 (_all_states self))),
         (shard_groups <$> _all_states self).
  split; [done|]. split; [|apply global_state_groups].
  apply mapM_Some_2, Forall2_same_length_lookup_2.
  { by rewrite length_seq, length_fmap. }
  intros r k slice Hk Hslice. apply lookup_seq in Hk as [Hk Hlt].
  simpl in Hk. subst k. unfold rank_groups.
  rewrite list_lookup_fmap in Hslice.
  destruct (_all_states self !! r) as [shard|] eqn:Hr; [|done].
  simpl in Hslice. inversion Hslice; subst slice.
  assert (Hshard : is_shard shard).
  { rewrite Forall_forall in Hshards. apply Hshards.
    by eapply list_elem_of_lookup_2. }
  destruct Hshard as [[state Hstate] _].
  rewrite (rank_local_of_global _ _ _ shard state Hr).
  - cbn [mbind option_bind]. by simplify_map_eq.
  - by rewrite Hlook, Hr.
Qed.

Lemma partition_map_tiles_witness :
  ∃ d slices,
    state_dict (H := Ex.collaborators)
               (consolidate_state_dict (H := Ex.collaborators) 0 Ex.oss0)
    = Some (d, [])
    ∧ mapM (λ r, rank_groups r d)
           (seq 0 (length (_all_states
                     (consolidate_state_dict (H := Ex.collaborators) 0 Ex.oss0))))
      = Some slices
    ∧ d !! "param_groups" = Some (VList (concat slices)).
Proof.
  apply (partition_map_tiles (H := Ex.collaborators)
           (consolidate_state_dict (H := Ex.collaborators) 0 Ex.oss0)).
  - done.
  - repeat constructor; by eexists.
Defined.

(** X7. [rank_local_state_dict] raises on the global dictionary for a rank that
    has no collected shard. *)
Theorem rank_local_out_of_range `{Collaborators} (self : OSS) (r : nat)
    (d : dict) (log : list string) :
  _all_states self ≠ [] → state_dict self = Some (d, log) →
  length (_all_states self) ≤ r →
  rank_local_state_dict r d = None.
Proof.
  intros Hne Hsd Hr. unfold state_dict in Hsd.
  destruct (decide (length (_all_states self) = 0)) as [Hlen|_].
  { by destruct (_all_states self). }
  destruct (for_each flatten_shard (_all_states self) ([], [], 0%Z))
    as [[[partition groups] stop]|] eqn:Hflat; [|done].
  cbn [mbind option_bind] in Hsd.
  destruct (mapM (getitem "state") (_all_states self)) as [states|] eqn:Hst;
    [|done].
  cbn [mbind option_bind] in Hsd. inversion Hsd; subst d log. clear Hsd.
  fold (global_state states groups partition).
  unfold rank_local_state_dict.
  rewrite global_state_groups, global_state_partition.
  cbn [mbind option_bind items]. rewrite list_lookup_fmap.
  apply flatten_length in Hflat. simpl in Hflat.
  rewrite lookup_ge_None_2 by lia. done.
Qed.

Lemma rank_local_out_of_range_witness :
  ∃ d,
    state_dict (H := Ex.collaborators)
               (consolidate_state_dict (H := Ex.collaborators) 0 Ex.oss0)
    = Some (d, [])
    ∧ rank_local_state_dict 2 d = None.
Proof.
  eexists. split; [vm_compute; reflexivity|].
  apply (rank_local_out_of_range (H := Ex.collaborators)
           (consolidate_state_dict (H := Ex.collaborators) 0 Ex.oss0) 2 _ []).
  - done.
  - vm_compute. reflexivity.
  - vm_compute. lia.
Defined.

(** X8. Before a consolidation [state_dict] returns the shard-only dictionary;
    [rank_local_state_dict] raises on it for every rank, the dictionary of the
    wrapped optimizer having no ["partition"]. *)
Theorem rank_local_of_local_dict `{Collaborators} (self : OSS) (r : nat)
    (d : dict) (log : list string) :
  _all_states self = [] → state_dict self = Some (d, log) →
  optim_state_dict (optim self) !! "partition" = None →
  rank_local_state_dict r d = None.
Proof.
  intros Hnil Hsd Hpart. unfold state_dict in Hsd. rewrite Hnil in Hsd.
  cbn in Hsd. inversion Hsd; subst d log. unfold rank_local_state_dict.
  unfold local_state_dict.
  destruct (<["local_state_dict":=VBool true]> (optim_state_dict (optim self))
              !! "param_groups" ≫= items) as [groups|]; [|done].
  cbn [mbind option_bind].
  assert (Hnone : <["local_state_dict":=VBool true]>
                    (optim_state_dict (optim self)) !! "partition" = None).
  { by rewrite lookup_insert_ne. }
  by rewrite Hnone.
Qed.

Lemma rank_local_of_local_dict_witness :
  ∃ d log,
    state_dict (H := Ex.collaborators) Ex.oss0 = Some (d, log)
    ∧ rank_local_state_dict 0 d = None.
Proof.
  eexists _, _. split; [reflexivity|].
  eapply (rank_local_of_local_dict (H := Ex.collaborators) Ex.oss0 0).
  - reflexivity.
  - reflexivity.
  - reflexivity.
Defined.

(** X9. On a rank other than the recipient, [consolidate_state_dict] collects
    nothing: a later [state_dict] still returns the shard-only dictionary,
    with the warnings, now showing the hyperparameters synced from the global
    groups. *)
Theorem consolidate_elsewhere `{Collaborators} (recipient_rank : nat) (self : OSS) :
  rank self ≠ recipient_rank → _all_states self = [] →
  consolidate_state_dict recipient_rank self = _sync_param_groups false self
  ∧ state_dict (consolidate_state_dict recipient_rank self) =
    Some (<["local_state_dict" := VBool true]>
            (optim_state_dict (optim (_sync_param_groups false self))),
          [warning_not_consolidated; warning_call_consolidate]).
Proof.
  intros Hrank Hnil.
  assert (Heq : consolidate_state_dict recipient_rank self
                = _sync_param_groups false self).
  { unfold consolidate_state_dict. rewrite sync_rank.
    by destruct (decide (rank self = recipient_rank)). }
  split; [done|]. rewrite Heq. unfold state_dict.
  assert (Hstates : _all_states (_sync_param_groups false self) = []).
  { unfold _sync_param_groups. by destruct (sync_groups _ _ _). }
  by rewrite Hstates.
Qed.

Lemma consolidate_elsewhere_witness :
  consolidate_state_dict (H := Ex.collaborators) 1 Ex.oss0
  = _sync_param_groups false Ex.oss0
  ∧ state_dict (H := Ex.collaborators)
               (consolidate_state_dict (H := Ex.collaborators) 1 Ex.oss0) =
    Some (<["local_state_dict" := VBool true]>
            (optim_state_dict (Collaborators := Ex.collaborators)
               (optim (_sync_param_groups false Ex.oss0))),
          [warning_not_consolidated; warning_call_consolidate]).
Proof.
  apply (consolidate_elsewhere (H := Ex.collaborators) 1 Ex.oss0).
  - simpl. lia.
  - reflexivity.
Defined.

Lemma collected_own_shard `{Collaborators} (self : OSS) :
  rank self < world_size self →
  _all_states (consolidate_state_dict (rank self) self) !! rank self =
  Some (recursive_copy_to_device
          (VDict (local_state_dict (_sync_param_groups false self)))).
Proof.
  intros Hrank. unfold consolidate_state_dict. rewrite sync_rank.
  destruct (decide (rank self = rank self)); [|done].
  cbn [_all_states set_all_states]. unfold _collect_sharded_states.
  rewrite list_lookup_fmap, sync_world_size, sync_rank, lookup_seq_lt by done.
  simpl. by rewrite decide_True.
Qed.

(** X10. On the recipient, consolidating and then extracting this rank's part of
    the global dictionary gives the ["state"] and the ["param_groups"] of the
    copy of its own local state dict, taken after the sync of the
    hyperparameters. *)
Theorem consolidate_own_round_trip `{Collaborators} (self : OSS)
    (state : value) (groups : list value) :
  rank self < world_size self →
  Forall is_shard (_all_states (consolidate_state_dict (rank self) self)) →
  getitem "state"
    (recursive_copy_to_device
       (VDict (local_state_dict (_sync_param_groups false self)))) = Some state →
  getitem "param_groups"
    (recursive_copy_to_device
       (VDict (local_state_dict (_sync_param_groups false self))))
  = Some (VList groups) →
  ∃ d,
    state_dict (consolidate_state_dict (rank self) self) = Some (d, [])
    ∧ rank_local_state_dict (rank self) d =
      Some (<["state" := state]> (<["param_groups" := VList groups]> ∅)).
Proof.
  intros Hrank Hshards Hstate Hgroups.
  pose proof (collected_own_shard self Hrank) as Hown.
  assert (Hne : _all_states (consolidate_state_dict (rank self) self) ≠ []).
  { intros Hnil. by rewrite Hnil in Hown. }
  destruct (state_dict_global _ Hne Hshards) as (states & Hsd & Hlook).
  eexists. split; [exact Hsd|].
  rewrite (rank_local_of_global _ _ _ _ state Hown).
  - unfold shard_groups. by rewrite Hgroups.
  - by rewrite Hlook, Hown.
Qed.

Lemma consolidate_own_round_trip_witness :
  ∃ d,
    state_dict (H := Ex.collaborators)
               (consolidate_state_dict (H := Ex.collaborators) 0 Ex.oss0)
    = Some (d, [])
    ∧ rank_local_state_dict 0 d =
      Some (<["state" := VNone]> (<["param_groups" := VList []]> ∅)).
Proof.
  apply (consolidate_own_round_trip (H := Ex.collaborators) Ex.oss0 VNone []).
  - simpl. lia.
  - repeat constructor; by eexists.
  - reflexivity.
  - reflexivity.
Defined.

(** ** Sorted lists and work handles in [_broadcast_params] *)











(** [_broadcast_params] in terms of the state that the issuing loops leave. *)
Lemma broadcast_params_state (self : OSS) (buffers : list Buffer)
    (per_rank_params : list (list Param)) (buffer0 : Buffer) :
  buffers !! 0 = Some buffer0 →
  ∃ segments requests,
    trace (issue_all (group self) (buf_numel buffer0) buffers per_rank_params)
    = concat segments
    ∧ Forall3 rank_request (zip (enumerate per_rank_params) buffers)
              segments requests
    ∧ _broadcast_params self buffers per_rank_params =
      Some (concat segments
              ++ concat (unroll_ops (rank self) <$> requests)
              ++ (OpWait <$> direct_handles (concat segments))).
Proof.
  intros Hb0. unfold _broadcast_params, issue_all. rewrite Hb0.
  cbn [mbind option_bind].
  destruct (issue_ranks_spec (group self) (buf_numel buffer0)
              (zip (enumerate per_rank_params) buffers) issue_start)
    as (segments & requests & Htr & Hbr & Hdir & Hall & Hall3).
  exists segments, requests. rewrite Htr, Hbr, Hdir. simpl.
  split; [done|]. split; [done|].
  rewrite unroll_buckets_spec.
  - simpl. by rewrite <- app_assoc.
  - apply Forall_lookup_2. intros i request Hi.
    destruct (Forall3_lookup_r _ _ _ _ _ _ Hall3 Hi)
      as (entry & ops & Hentry & _ & (_ & Hsrc & _)).
    apply entries_lookup in Hentry as (params & buffer & -> & _ & Hbuf).
    rewrite Hsrc. simpl. eauto.
Qed.

Lemma unroll_completion (self_rank : nat) (requests : list bucket_request) :
  Forall is_completion (concat (unroll_ops self_rank <$> requests)).
Proof.
  apply Forall_concat, Forall_fmap, Forall_forall. intros request _.
  eapply Forall_impl; [apply unroll_ops_completion|]. by intros o [? _].
Qed.



(** *** Work handles *)

Lemma issued_between_refl (s : issue) : issued_between s s.
Proof.
  exists []. rewrite app_nil_r, Nat.sub_diag. by repeat split.
Qed.

Lemma issued_between_trans (s1 s2 s3 : issue) :
  issued_between s1 s2 → issued_between s2 s3 → issued_between s1 s3.
Proof.
  intros (ops1 & Htr1 & Hle1 & Hh1) (ops2 & Htr2 & Hle2 & Hh2).
  exists (ops1 ++ ops2). split; [by rewrite Htr2, Htr1, app_assoc|].
  split; [lia|]. unfold all_handles in *. rewrite omap_app, Hh1, Hh2.
  replace (next_handle s3 - next_handle s1)
    with ((next_handle s2 - next_handle s1) + (next_handle s3 - next_handle s2))
    by lia.
  rewrite seq_app. do 2 f_equal. lia.
Qed.

Lemma issued_between_param (bs g r : nat) (s : issue) (p : Param) :
  issued_between s (issue_param bs g r s p).
Proof.
  destruct (issue_param_cases bs g r s p) as
    [(_ & _ & Heq)|[(_ & _ & Heq)|Heq]]; rewrite Heq; unfold issued_between;
    cbn [trace next_handle].
  - exists [OpPack r p (offset s) (offset s + numel p)].
    rewrite Nat.sub_diag. by repeat split.
  - eexists [_; _]. rewrite <- app_assoc. split; [done|]. split; [lia|].
    replace (S (S (next_handle s)) - next_handle s) with 2 by lia. done.
  - eexists [_]. split; [done|]. split; [lia|].
    replace (S (next_handle s) - next_handle s) with 1 by lia. done.
Qed.

Lemma issued_between_params (bs g r : nat) (params : list Param) :
  ∀ s, issued_between s (foldl (issue_param bs g r) s params).
Proof.
  induction params as [|p params IH]; intros s; [apply issued_between_refl|].
  cbn [foldl]. eapply issued_between_trans; [apply issued_between_param | apply IH].
Qed.

Lemma issued_between_rank (group : option (nat → nat)) (bs : nat) (s : issue)
    (entry : (nat * list Param) * Buffer) :
  issued_between s (issue_rank group bs s entry).
Proof.
  destruct entry as [[r params] buffer]. unfold issue_rank.
  set (g := get_global_rank group r).
  set (s0 := mkIssue 0 false [] (bucket_requests s) (direct_requests s)
                     (trace s) (next_handle s)).
  assert (H0 : issued_between s s0).
  { exists []. cbn [s0 trace next_handle]. rewrite app_nil_r, Nat.sub_diag.
    by repeat split. }
  pose proof (issued_between_params bs g r params s0) as Hloop.
  set (sl := foldl (issue_param bs g r) s0 params) in *.
  eapply issued_between_trans; [exact H0|].
  eapply issued_between_trans; [exact Hloop|].
  destruct (bucket_sent sl); cbn [negb]; [apply issued_between_refl|].
  eexists [_]. cbn [send_bucket trace next_handle]. split; [done|].
  split; [lia|].
  replace (S (next_handle sl) - next_handle sl) with 1 by lia. done.
Qed.

Lemma issued_between_ranks (group : option (nat → nat)) (bs : nat)
    (entries : list ((nat * list Param) * Buffer)) :
  ∀ s, issued_between s (foldl (issue_rank group bs) s entries).
Proof.
  induction entries as [|entry entries IH]; intros s; [apply issued_between_refl|].
  cbn [foldl]. eapply issued_between_trans; [apply issued_between_rank | apply IH].
Qed.

Lemma all_handles_app (ops1 ops2 : list op) :
  all_handles (ops1 ++ ops2) = all_handles ops1 ++ all_handles ops2.
Proof. apply omap_app. Qed.

Lemma all_handles_split (ops : list op) :
  all_handles ops ≡ₚ bucket_handles ops ++ direct_handles ops.
Proof.
  induction ops as [|o ops IH]; [done|].
  destruct o as [| [r|p] g h | |]; try exact IH.
  - change (h :: all_handles ops ≡ₚ (h :: bucket_handles ops) ++ direct_handles ops).
    simpl. by constructor.
  - change (h :: all_handles ops ≡ₚ bucket_handles ops ++ h :: direct_handles ops).
    rewrite <- Permutation_middle. by constructor.
Qed.

Lemma waited_unrolled (self_rank : nat)
    (entries : list ((nat * list Param) * Buffer)) (segments : list (list op))
    (requests : list bucket_request) :
  Forall3 rank_request entries segments requests →
  waited (concat (unroll_ops self_rank <$> requests))
  = bucket_handles (concat segments).
Proof.
  induction 1 as [|entry ops request ? ? ? Hreq _ IH]; [done|].
  rewrite fmap_cons. cbn [concat].
  rewrite waited_app, bucket_handles_app, waited_unroll_ops, IH.
  by destruct Hreq as (-> & _).
Qed.

Lemma all_handles_completion (ops : list op) :
  Forall is_completion ops → all_handles ops = [].
Proof.
  induction 1 as [|o ops Ho _ IH]; [done|]. by destruct o.
Qed.

Lemma waited_requests (ops : list op) :
  Forall is_request ops → waited ops = [].
Proof.
  induction 1 as [|o ops Ho _ IH]; [done|]. by destruct o.
Qed.

Lemma waited_waits (handles : list nat) : waited (OpWait <$> handles) = handles.
Proof. induction handles as [|h handles IH]; [done|]. simpl. by f_equal. Qed.

(** X12. Every broadcast of a pass returns a work handle of its own, and every one
    of these handles is waited on exactly once before [_broadcast_params]
    returns. *)
Theorem every_handle_waited_once (self : OSS) (buffers : list Buffer)
    (per_rank_params : list (list Param)) (buffer0 : Buffer) :
  buffers !! 0 = Some buffer0 →
  ∃ tr,
    _broadcast_params self buffers per_rank_params = Some tr
    ∧ NoDup (all_handles tr)
    ∧ waited tr ≡ₚ all_handles tr.
Proof.
  intros Hb0.
  destruct (broadcast_params_state self buffers per_rank_params buffer0 Hb0)
    as (segments & requests & Htr & Hall3 & Hrun).
  eexists. split; [exact Hrun|].
  assert (Hreq : Forall is_request (concat segments)).
  { destruct (broadcast_params_spec self buffers per_rank_params buffer0 Hb0)
      as (segments' & requests' & Hrun' & Hall & _).
    rewrite Hrun in Hrun'. inversion Hrun' as [Heq].
    destruct (issue_ranks_spec (group self) (buf_numel buffer0)
                (zip (enumerate per_rank_params) buffers) issue_start)
      as (segs & reqs & Htr2 & _ & _ & Hall2 & _).
    fold (issue_all (group self) (buf_numel buffer0) buffers per_rank_params)
      in Htr2.
    simpl in Htr2. rewrite Htr in Htr2. rewrite Htr2.
    apply Forall_concat. eapply Forall2_Forall_r; [apply Hall2|].
    apply Forall_forall. by intros entry _ ops (? & _). }
  assert (Hhandles : all_handles
            (concat segments ++ concat (unroll_ops (rank self) <$> requests)
               ++ (OpWait <$> direct_handles (concat segments)))
          = all_handles (concat segments)).
  { rewrite !all_handles_app.
    rewrite (all_handles_completion
               (concat (unroll_ops (rank self) <$> requests)))
      by apply unroll_completion.
    rewrite (all_handles_completion (OpWait <$> direct_handles (concat segments))).
    - by rewrite !app_nil_r.
    - apply Forall_fmap, Forall_forall. by intros h _. }
  rewrite Hhandles. split.
  - destruct (issued_between_ranks (group self) (buf_numel buffer0)
                (zip (enumerate per_rank_params) buffers) issue_start)
      as (ops & Htr' & _ & Hseq).
    fold (issue_all (group self) (buf_numel buffer0) buffers per_rank_params)
      in Htr'.
    simpl in Htr'. rewrite Htr in Htr'. rewrite Htr', Hseq. apply NoDup_seq.
  - rewrite !waited_app, (waited_requests _ Hreq), waited_waits.
    rewrite (waited_unrolled _ _ _ _ Hall3). simpl.
    symmetry. apply all_handles_split.
Qed.

Lemma every_handle_waited_once_witness :
  ∃ tr,
    _broadcast_params Ex.oss5 Ex.buffers4 Ex.sorted_params = Some tr
    ∧ NoDup (all_handles tr)
    ∧ waited tr ≡ₚ all_handles tr.
Proof.
  apply (every_handle_waited_once Ex.oss5 Ex.buffers4 Ex.sorted_params (mkBuffer 4)).
  reflexivity.
Defined.

(** ** The rank of every parameter *)

Lemma record_params_lookup (rank : nat) (params : list Param)
    (acc : gmap positive nat) (key : positive) :
  foldl (λ acc param, <[pid param := rank]> acc) acc params !! key =
  if decide (key ∈ pid <$> params) then Some rank else acc !! key.
Proof.
  revert acc. induction params as [|p params IH]; intros acc.
  - simpl. destruct (decide (key ∈ [])) as [Hin|_]; [|done].
    by apply elem_of_nil in Hin.
  - cbn [foldl]. rewrite IH, fmap_cons.
    destruct (decide (key ∈ pid <$> params)) as [Hin|Hout].
    + by rewrite decide_True by (by right).
    + destruct (decide (key = pid p)) as [->|Hne].
      * rewrite decide_True by (by left). apply lookup_insert_eq.
      * rewrite decide_False by (by intros [?|?]%elem_of_cons).
        by apply lookup_insert_ne.
Qed.

Lemma record_ranks_spec (rank : nat) (records : list dict) :
  Forall (λ g, is_Some (group_params g)) records →
  ∀ acc,
    record_ranks acc (rank, records) =
    Some (foldl (λ acc param, <[pid param := rank]> acc) acc (params_of records)).
Proof.
  unfold record_ranks.
  induction 1 as [|g records [params Hg] _ IH]; intros acc; [done|].
  cbn [for_each]. rewrite Hg. cbn [mbind option_bind]. rewrite IH.
  by rewrite params_of_cons, Hg, foldl_app.
Qed.

Lemma rank_loop (partition : list (list dict)) :
  Forall (Forall (λ g, is_Some (group_params g))) partition →
  ∀ (k : nat) (acc : gmap positive nat),
    ∃ m,
      for_each record_ranks (enumerate_from k partition) acc = Some m
      ∧ ∀ key, m !! key = match owner_from key k partition with
                          | Some r => Some r
                          | None => acc !! key
                          end.
Proof.
  induction 1 as [|records partition Hrecords _ IH]; intros k acc.
  - exists acc. by split.
  - cbn [enumerate_from for_each]. rewrite record_ranks_spec by done.
    cbn [mbind option_bind].
    destruct (IH (S k) (foldl (λ acc param, <[pid param := k]> acc) acc
                              (params_of records))) as (m & -> & Hm).
    exists m. split; [done|]. intros key. rewrite Hm. cbn [owner_from].
    destruct (owner_from key (S k) partition); [done|].
    rewrite record_params_lookup.
    by destruct (decide (key ∈ pid <$> params_of records)).
Qed.

Lemma owner_from_Some (key : positive) (partition : list (list dict)) :
  ∀ k r,
    owner_from key k partition = Some r →
    ∃ i records, r = k + i ∧ partition !! i = Some records
                 ∧ key ∈ pid <$> params_of records.
Proof.
  induction partition as [|records partition IH]; intros k r Hr; [done|].
  cbn [owner_from] in Hr.
  destruct (owner_from key (S k) partition) as [r'|] eqn:Hrest.
  - inversion Hr; subst r'. destruct (IH _ _ Hrest) as (i & recs & -> & Hi & Hin).
    exists (S i), recs. split; [lia|]. by split.
  - destruct (decide (key ∈ pid <$> params_of records)); [|done].
    inversion Hr; subst. exists 0, records. split; [lia|]. by split.
Qed.

Lemma owner_from_holder (key : positive) (partition : list (list dict)) :
  ∀ k i records,
    partition !! i = Some records → key ∈ pid <$> params_of records →
    ∃ j, i ≤ j ∧ owner_from key k partition = Some (k + j).
Proof.
  induction partition as [|recs partition IH]; intros k i records Hi Hin;
    [done|].
  cbn [owner_from]. destruct i as [|i].
  - simpl in Hi. inversion Hi; subst recs.
    destruct (owner_from key (S k) partition) as [r|] eqn:Hrest.
    + apply owner_from_Some in Hrest as (j & _ & -> & _ & _).
      exists (S j). split; [lia|]. f_equal. lia.
    + rewrite decide_True by done. exists 0. split; [lia|]. f_equal. lia.
  - destruct (IH (S k) i records Hi Hin) as (j & Hj & ->).
    exists (S j). split; [lia|]. f_equal. lia.
Qed.

Lemma partition_parameters_caches (self self' : OSS) (partition : list (list dict)) :
  partition_parameters self = Some (partition, self') →
  _param_rank self' = _param_rank self
  ∧ _per_device_params self' = _per_device_params self
  ∧ world_size self' = world_size self
  ∧ param_groups self' = param_groups self
  ∧ _broadcast_buffers self' = _broadcast_buffers self
  ∧ optim self' = optim self.
Proof.
  unfold partition_parameters.
  destruct (decide (length (_partition_parameters self) = 0)).
  - destruct (Partition.compute _ _) as [[p sizes]|]; [|done].
    simpl. by intros [= <- <-].
  - by intros [= <- <-].
Qed.

Lemma rank_map_owner (self self' : OSS) (partition : list (list dict)) :
  _param_rank self = ∅ →
  partition_parameters self = Some (partition, self') →
  Forall (Forall (λ g, is_Some (group_params g))) partition →
  NoDup (pid <$> concat (params_of <$> partition)) →
  ∃ m,
    param_to_rank self = Some (m, set_param_rank m self')
    ∧ (∀ r records p, partition !! r = Some records → p ∈ params_of records →
                      m !! pid p = Some r)
    ∧ (∀ key r, m !! key = Some r →
                ∃ records p, partition !! r = Some records
                             ∧ p ∈ params_of records ∧ pid p = key).
Proof.
  intros Hempty Hpart Hwf Hnd.
  destruct (partition_parameters_caches _ _ _ Hpart) as (Hrank & _).
  destruct (rank_loop partition Hwf 0 ∅) as (m & Hloop & Hm).
  exists m. split.
  { unfold param_to_rank. rewrite Hempty. simpl. rewrite Hpart.
    cbn [mbind option_bind]. unfold enumerate. rewrite Hrank, Hempty, Hloop.
    done. }
  split.
  - intros r records p Hr Hp. rewrite Hm.
    destruct (owner_from_holder (pid p) partition 0 r records Hr)
      as (j & Hj & Hown).
    { by apply list_elem_of_fmap_2. }
    rewrite Hown.
    apply owner_from_Some in Hown as (i & recs & Heq & Hi & Hin).
    rewrite fmap_concat, <- list_fmap_compose in Hnd.
    assert (r = i); [|f_equal; lia].
    eapply (NoDup_concat_lookup _ r i _ _ (pid p) Hnd).
    + by rewrite list_lookup_fmap, Hr.
    + by rewrite list_lookup_fmap, Hi.
    + simpl. by apply list_elem_of_fmap_2.
    + done.
  - intros key r Hkey. rewrite Hm in Hkey.
    destruct (owner_from key 0 partition) as [r'|] eqn:Hown; [|done].
    inversion Hkey; subst r'.
    apply owner_from_Some in Hown as (i & recs & -> & Hi & Hin).
    apply list_elem_of_fmap in Hin as (p & -> & Hp). by exists recs, p.
Qed.

Lemma rank_map_cached (self : OSS) (key : positive) (r : nat) :
  _param_rank self !! key = Some r →
  param_to_rank self = Some (_param_rank self, self).
Proof.
  intros Hkey. unfold param_to_rank.
  destruct (decide (size (_param_rank self) = 0)) as [Hsize|]; [|done].
  apply map_size_empty_iff in Hsize. by rewrite Hsize in Hkey.
Qed.

(** X13. With distinct parameters, each in the records of one rank,
    [param_to_rank] maps the identity of every parameter to the rank whose
    records hold it, and maps nothing else.  Once the map holds a parameter,
    reading it again returns the cached map and leaves the instance as it
    is. *)
Theorem param_to_rank_owner (self self' : OSS) (partition : list (list dict)) :
  _param_rank self = ∅ →
  partition_parameters self = Some (partition, self') →
  Forall (Forall (λ g, is_Some (group_params g))) partition →
  NoDup (pid <$> concat (params_of <$> partition)) →
  ∃ m,
    param_to_rank self = Some (m, set_param_rank m self')
    ∧ (∀ r records p, partition !! r = Some records → p ∈ params_of records →
                      m !! pid p = Some r)
    ∧ (∀ key r, m !! key = Some r →
                ∃ records p, partition !! r = Some records
                             ∧ p ∈ params_of records ∧ pid p = key)
    ∧ (∀ key r, m !! key = Some r →
                param_to_rank (set_param_rank m self')
                = Some (m, set_param_rank m self')).
Proof.
  intros Hempty Hpart Hwf Hnd.
  destruct (rank_map_owner self self' partition Hempty Hpart Hwf Hnd)
    as (m & Hrun & Hfwd & Hbwd).
  exists m. split; [done|]. split; [done|]. split; [done|].
  intros key r Hkey.
  by apply (rank_map_cached (set_param_rank m self') key r).
Qed.

Lemma param_to_rank_owner_witness :
  ∃ m,
    param_to_rank Ex.oss0
    = Some (m, set_param_rank m (set_partition_parameters Ex.partition0 Ex.oss0))
    ∧ (∀ r records p, Ex.partition0 !! r = Some records → p ∈ params_of records →
                      m !! pid p = Some r)
    ∧ (∀ key r, m !! key = Some r →
                ∃ records p, Ex.partition0 !! r = Some records
                             ∧ p ∈ params_of records ∧ pid p = key)
    ∧ (∀ key r, m !! key = Some r →
                param_to_rank
                  (set_param_rank m (set_partition_parameters Ex.partition0 Ex.oss0))
                = Some (m, set_param_rank m
                             (set_partition_parameters Ex.partition0 Ex.oss0))).
Proof.
  apply (param_to_rank_owner Ex.oss0
           (set_partition_parameters Ex.partition0 Ex.oss0) Ex.partition0).
  - reflexivity.
  - vm_compute. reflexivity.
  - repeat constructor; by eexists.
  - apply (bool_decide_unpack _). vm_compute. reflexivity.
Defined.

(** ** The device table *)

Lemma insert_by_numel_perm (x : Param) (l : list Param) :
  insert_by_numel x l ≡ₚ x :: l.
Proof.
  induction l as [|y l IH]; [done|]. simpl.
  destruct (decide (numel x < numel y)); [done|].
  rewrite IH. apply perm_swap.
Qed.

Lemma insert_by_numel_sorted (x : Param) (l : list Param) :
  StronglySorted by_numel l → StronglySorted by_numel (insert_by_numel x l).
Proof.
  induction 1 as [|y l Hsorted IH Hy]; simpl.
  - repeat constructor.
  - destruct (decide (numel x < numel y)) as [Hlt|Hge].
    + constructor; [by constructor|]. constructor; [unfold by_numel; lia|].
      eapply Forall_impl; [exact Hy|]. unfold by_numel. intros z Hz. lia.
    + constructor; [done|]. rewrite insert_by_numel_perm.
      constructor; [unfold by_numel; lia | done].
Qed.

Lemma sort_by_numel_spec (l : list Param) :
  sort_by_numel l ≡ₚ l ∧ StronglySorted by_numel (sort_by_numel l).
Proof.
  unfold sort_by_numel.
  assert (Hgen : ∀ acc, StronglySorted by_numel acc →
            foldl (λ acc x, insert_by_numel x acc) acc l ≡ₚ acc ++ l
            ∧ StronglySorted by_numel (foldl (λ acc x, insert_by_numel x acc) acc l)).
  { induction l as [|x l IH]; intros acc Hacc.
    - simpl. by rewrite app_nil_r.
    - cbn [foldl].
      destruct (IH (insert_by_numel x acc) (insert_by_numel_sorted x acc Hacc))
        as [Hperm Hsorted].
      split; [|done]. rewrite Hperm, insert_by_numel_perm. simpl.
      apply Permutation_middle. }
  apply (Hgen []). constructor.
Qed.

Lemma table_get_None (device : string) (t : table) :
  table_get device t = None ↔ device ∉ t.*1.
Proof.
  induction t as [|[d v] t IH]; simpl.
  - split; [intros _ ?%elem_of_nil; done | done].
  - destruct (decide (d = device)) as [->|Hne].
    + split; [done|]. intros Hout. exfalso. apply Hout. by left.
    + rewrite IH. split.
      * intros Hout [?|?]%elem_of_cons; [congruence | done].
      * intros Hout Hin. apply Hout. by right.
Qed.

Lemma table_set_absent (device : string) (v : list (list Param)) (t : table) :
  table_get device t = None → table_set device v t = t ++ [(device, v)].
Proof.
  induction t as [|[d w] t IH]; simpl; [done|].
  destruct (decide (d = device)); [done|]. intros Hnone. by rewrite IH.
Qed.

Lemma table_get_Some (device : string) (w : list (list Param)) (t : table) :
  table_get device t = Some w →
  ∃ t1 t2, t = t1 ++ (device, w) :: t2
           ∧ ∀ v, table_set device v t = t1 ++ (device, v) :: t2.
Proof.
  induction t as [|[d u] t IH]; simpl; [done|].
  destruct (decide (d = device)) as [->|Hne].
  - intros [= ->]. by exists [], t.
  - intros Hget. destruct (IH Hget) as (t1 & t2 & -> & Hset).
    exists ((d, u) :: t1), t2. split; [done|]. intros v. simpl. by rewrite Hset.
Qed.

Lemma table_get_set (device : string) (v : list (list Param)) (t : table) :
  table_get device (table_set device v t) = Some v.
Proof.
  induction t as [|[d w] t IH]; simpl.
  - by rewrite decide_True.
  - destruct (decide (d = device)) as [->|Hne]; simpl.
    + by rewrite decide_True.
    + by rewrite decide_False.
Qed.

Lemma concat_replicate_nil {A : Type} (n : nat) :
  concat (replicate n ([] : list A)) = [].
Proof. induction n; simpl; auto. Qed.

Lemma concat_insert_snoc {A : Type} (ls : list (list A)) (r : nat)
    (l : list A) (x : A) :
  ls !! r = Some l → concat (<[r := l ++ [x]]> ls) ≡ₚ x :: concat ls.
Proof.
  revert r. induction ls as [|l0 ls IH]; intros [|r] Hr; simpl in *; try done.
  - inversion Hr; subst. rewrite <- app_assoc. simpl.
    by rewrite <- Permutation_middle.
  - rewrite (IH r Hr). by rewrite Permutation_middle.
Qed.

Lemma table_params_app (t1 t2 : table) :
  table_params (t1 ++ t2) = table_params t1 ++ table_params t2.
Proof. unfold table_params. by rewrite fmap_app, concat_app. Qed.

Lemma table_params_cons (entry : string * list (list Param)) (t : table) :
  table_params (entry :: t) = concat entry.2 ++ table_params t.
Proof. done. Qed.

(** Opening the entry of a device keeps a placed table placed. *)
Lemma table_open (ws : nat) (m : gmap positive nat) (device : string) (t : table) :
  table_placed ws m t →
  ∃ lists,
    table_get device
      (match table_get device t with
       | None => table_set device (replicate ws []) t
       | Some _ => t
       end) = Some lists
    ∧ table_placed ws m
        (match table_get device t with
         | None => table_set device (replicate ws []) t
         | Some _ => t
         end)
    ∧ table_params
        (match table_get device t with
         | None => table_set device (replicate ws []) t
         | Some _ => t
         end) = table_params t.
Proof.
  intros [Hnd Hall]. destruct (table_get device t) as [lists|] eqn:Hget.
  - exists lists. by repeat split.
  - exists (replicate ws []). split; [apply table_get_set|].
    rewrite table_set_absent by done.
    split; [split|].
    + rewrite fmap_app. simpl. apply NoDup_app. split; [done|].
      split; [|apply NoDup_singleton].
      intros d Hd Heq. apply list_elem_of_singleton in Heq. subst d.
      by apply table_get_None in Hget.
    + apply Forall_app. split; [done|]. constructor; [|done]. simpl.
      split; [by rewrite length_replicate|].
      intros r l p Hr Hp. apply lookup_replicate in Hr as [-> _].
      by apply elem_of_nil in Hp.
    + rewrite table_params_app, table_params_cons. simpl.
      by rewrite concat_replicate_nil, !app_nil_r.
Qed.

(** Appending a parameter under its device and rank keeps the table placed. *)
Lemma table_append (ws : nat) (m : gmap positive nat) (t1 t2 : table)
    (lists : list (list Param)) (r : nat) (l : list Param) (p : Param) :
  table_placed ws m (t1 ++ (device p, lists) :: t2) →
  lists !! r = Some l → m !! pid p = Some r →
  table_placed ws m (t1 ++ (device p, <[r := l ++ [p]]> lists) :: t2)
  ∧ table_params (t1 ++ (device p, <[r := l ++ [p]]> lists) :: t2)
    ≡ₚ p :: table_params (t1 ++ (device p, lists) :: t2).
Proof.
  intros [Hnd Hall] Hr Hm. split; [split|].
  - by rewrite fmap_app in Hnd |- *.
  - apply Forall_app in Hall as [Hall1 Hall2].
    apply Forall_cons in Hall2 as [[Hlen Hplaced] Hall2]. simpl in *.
    apply Forall_app. split; [done|]. constructor; [|done]. simpl.
    split; [by rewrite length_insert|].
    intros r' l' q Hr' Hq.
    apply list_lookup_insert_Some in Hr' as [(-> & <- & _)|[Hne Hr']].
    + apply elem_of_app in Hq as [Hq|Hq]; [eauto|].
      apply list_elem_of_singleton in Hq. by subst q.
    + eauto.
  - rewrite !table_params_app, !table_params_cons. simpl.
    rewrite (concat_insert_snoc _ _ _ _ Hr). simpl.
    by rewrite <- Permutation_middle.
Qed.

(** One turn of the inner loop of [per_device_params]. *)
Lemma log_param_step (ws : nat) (m : gmap positive nat) (t : table)
    (self self1 : OSS) (p : Param) (r : nat) :
  world_size self = ws → param_to_rank self = Some (m, self1) →
  m !! pid p = Some r → r < ws → table_placed ws m t →
  ∃ t', log_param (t, self) p = Some (t', self1)
        ∧ table_placed ws m t'
        ∧ table_params t' ≡ₚ p :: table_params t.
Proof.
  intros Hws Hmap Hp Hr Hplaced.
  destruct (table_open ws m (device p) t Hplaced)
    as (lists & Hget & Hplaced' & Hparams).
  unfold log_param. rewrite Hws.
  set (t0 := match table_get (device p) t with
             | None => table_set (device p) (replicate ws []) t
             | Some _ => t
             end) in *.
  rewrite Hget. cbn [mbind option_bind]. rewrite Hmap. cbn [mbind option_bind].
  rewrite Hp. cbn [mbind option_bind].
  destruct (table_get_Some _ _ _ Hget) as (t1 & t2 & Heq & Hset).
  rewrite Heq in Hplaced', Hparams.
  assert (Hlen : length lists = ws).
  { destruct Hplaced' as [_ Hall]. apply Forall_app in Hall as [_ Hall].
    apply Forall_cons in Hall as [[Hlen _] _]. done. }
  destruct (lookup_lt_is_Some_2 lists r) as [l Hl]; [lia|].
  rewrite Hl. cbn [mbind option_bind]. rewrite Hset.
  destruct (table_append ws m t1 t2 lists r l p Hplaced' Hl Hp) as [Hpl Hperm].
  eexists. split; [done|]. split; [done|]. by rewrite Hperm, Hparams.
Qed.

(** The inner loop of [per_device_params], from a state in which the rank map
    is [m] and reading it leaves the state [self1]. *)
Lemma log_params_loop (ws : nat) (m : gmap positive nat) (self1 : OSS) :
  world_size self1 = ws → _param_rank self1 = m →
  ∀ (params : list Param) (t : table) (self : OSS),
    world_size self = ws → param_to_rank self = Some (m, self1) →
    Forall (λ p, ∃ r, m !! pid p = Some r ∧ r < ws) params →
    table_placed ws m t →
    ∃ t' self',
      for_each log_param params (t, self) = Some (t', self')
      ∧ (self' = self ∨ self' = self1)
      ∧ world_size self' = ws ∧ param_to_rank self' = Some (m, self1)
      ∧ table_placed ws m t'
      ∧ table_params t' ≡ₚ params ++ table_params t.
Proof.
  intros Hws1 Hm1.
  induction params as [|p params IH]; intros t self Hws Hmap Hknown Hplaced.
  - exists t, self. split; [done|]. split; [by left|].
    do 3 (split; [done|]). done.
  - apply Forall_cons in Hknown as [(r & Hp & Hr) Hknown].
    destruct (log_param_step ws m t self self1 p r Hws Hmap Hp Hr Hplaced)
      as (t1 & Hstep & Hplaced1 & Hperm1).
    cbn [for_each]. rewrite Hstep. cbn [mbind option_bind].
    destruct (IH t1 self1)
      as (t' & self' & Hloop & Hstate & Hws' & Hmap' & Hpl & Hperm);
      [done | | done | done |].
    { subst m. by apply (rank_map_cached self1 (pid p) r). }
    exists t', self'. split; [done|]. split; [right; by destruct Hstate|].
    do 3 (split; [done|]).
    rewrite Hperm, Hperm1. simpl. by rewrite Permutation_middle.
Qed.

Lemma log_group_params (acc : table * OSS) (g : dict) (params : list Param) :
  group_params g = Some params → log_group acc g = for_each log_param params acc.
Proof. intros Hg. unfold log_group. by rewrite Hg. Qed.

(** The outer loop of [per_device_params]. *)
Lemma log_groups_loop (ws : nat) (m : gmap positive nat) (self1 : OSS) :
  world_size self1 = ws → _param_rank self1 = m →
  ∀ (groups : list dict) (t : table) (self : OSS),
    world_size self = ws → param_to_rank self = Some (m, self1) →
    well_formed groups →
    Forall (λ p, ∃ r, m !! pid p = Some r ∧ r < ws) (all_params groups) →
    table_placed ws m t →
    ∃ t' self',
      for_each log_group groups (t, self) = Some (t', self')
      ∧ (self' = self ∨ self' = self1)
      ∧ table_placed ws m t'
      ∧ table_params t' ≡ₚ all_params groups ++ table_params t.
Proof.
  intros Hws1 Hm1.
  induction groups as [|g groups IH]; intros t self Hws Hmap Hwf Hknown Hplaced.
  - exists t, self. split; [done|]. split; [by left|]. split; [done|]. done.
  - apply Forall_cons in Hwf as [[params Hg] Hwf].
    rewrite all_params_cons in Hknown. unfold Greedy.params_list in Hknown.
    rewrite Hg in Hknown. cbn [default] in Hknown.
    apply Forall_app in Hknown as [Hparams Hknown].
    destruct (log_params_loop ws m self1 Hws1 Hm1 params t self
                Hws Hmap Hparams Hplaced)
      as (t1 & self' & Hloop & Hstate1 & Hws' & Hmap' & Hplaced1 & Hperm1).
    cbn [for_each]. rewrite (log_group_params _ _ _ Hg), Hloop.
    cbn [mbind option_bind].
    destruct (IH t1 self' Hws' Hmap' Hwf Hknown Hplaced1)
      as (t' & self2 & Hrest & Hstate2 & Hplaced2 & Hperm2).
    exists t', self2. split; [done|]. split.
    { destruct Hstate2 as [->| ->]; [done | by right]. }
    split; [done|].
    rewrite Hperm2, Hperm1, all_params_cons. unfold Greedy.params_list.
    rewrite Hg. cbn [default]. unfold id. rewrite !app_assoc. f_equiv.
    apply Permutation_app_comm.
Qed.

Lemma concat_sorted_perm (lists : list (list Param)) :
  concat (map sort_by_numel lists) ≡ₚ concat lists.
Proof.
  induction lists as [|l lists IH]; [done|]. simpl.
  by rewrite IH, (proj1 (sort_by_numel_spec l)).
Qed.

Lemma sort_table_params (t : table) :
  table_params (sort_table t) ≡ₚ table_params t.
Proof.
  induction t as [|[d lists] t IH]; [done|].
  cbn [sort_table map]. rewrite !table_params_cons. simpl.
  rewrite concat_sorted_perm. f_equiv. apply IH.
Qed.

Lemma sort_table_devices (t : table) : (sort_table t).*1 = t.*1.
Proof. induction t as [|[d lists] t IH]; [done|]. simpl. by f_equal. Qed.

Lemma sort_table_lookup (t : table) (d : string) (lists : list (list Param)) :
  (d, lists) ∈ sort_table t →
  ∃ lists0, (d, lists0) ∈ t ∧ lists = sort_by_numel <$> lists0.
Proof.
  unfold sort_table. intros Hin. apply list_elem_of_In, in_map_iff in Hin.
  destruct Hin as ([d0 lists0] & Heq & Hin). simpl in Heq.
  inversion Heq; subst. exists lists0. split; [by apply list_elem_of_In | done].
Qed.

Lemma sort_table_placed (ws : nat) (m : gmap positive nat) (t : table) :
  table_placed ws m t → table_placed ws m (sort_table t).
Proof.
  intros [Hnd Hall]. split; [by rewrite sort_table_devices|].
  apply Forall_forall. intros [d lists] Hin.
  apply sort_table_lookup in Hin as (lists0 & Hin & ->).
  rewrite Forall_forall in Hall. destruct (Hall _ Hin) as [Hlen Hentry].
  simpl in *. split; [by rewrite length_fmap|].
  intros r l p Hl Hp. rewrite list_lookup_fmap in Hl.
  destruct (lists0 !! r) as [l0|] eqn:Hl0; [|done]. simpl in Hl.
  inversion Hl; subst l. rewrite (proj1 (sort_by_numel_spec l0)) in Hp.
  by apply (Hentry r l0 p).
Qed.

Lemma sort_table_sorted (t : table) :
  Forall (λ entry : string * list (list Param),
            Forall (StronglySorted by_numel) entry.2) (sort_table t).
Proof.
  apply Forall_forall. intros [d lists] Hin.
  apply sort_table_lookup in Hin as (lists0 & Hin & ->). simpl.
  apply Forall_fmap, Forall_forall. intros l _.
  apply sort_by_numel_spec.
Qed.

Lemma partition_holds_all (ws : nat) (groups : list dict) :
  0 < ws → concat (params_of <$> Greedy.partition ws groups) ≡ₚ all_params groups.
Proof.
  intros Hpos. unfold Greedy.partition. rewrite <- list_fmap_compose.
  unfold compose.
  pose proof (partition_params_perm groups (replicate ws 0)) as Hperm.
  rewrite length_replicate in Hperm. by apply Hperm.
Qed.

Lemma greedy_partition_records (ws : nat) (groups : list dict) :
  Forall (Forall (λ g, is_Some (group_params g))) (Greedy.partition ws groups).
Proof.
  apply Forall_lookup_2. intros r records Hr.
  assert (r < ws).
  { apply lookup_lt_Some in Hr. by rewrite partition_length in Hr. }
  rewrite partition_lookup in Hr by done. inversion Hr; subst.
  apply Forall_lookup_2. intros gi record Hrec.
  destruct (lookup_lt_is_Some_2 groups gi) as [g Hg].
  { apply lookup_lt_Some in Hrec. by rewrite records_length in Hrec. }
  rewrite (records_lookup _ _ _ _ _ Hg) in Hrec. inversion Hrec; subst.
  rewrite group_params_record. eauto.
Qed.

Lemma elem_of_concat_lookup {A : Type} (ls : list (list A)) (x : A) :
  x ∈ concat ls → ∃ i l, ls !! i = Some l ∧ x ∈ l.
Proof.
  intros Hin. apply list_elem_of_In, in_concat in Hin as (l & Hl & Hx).
  apply list_elem_of_In, list_elem_of_lookup in Hl as [i Hi].
  exists i, l. split; [done|]. by apply list_elem_of_In.
Qed.

Lemma elem_of_concat_2 {A : Type} (ls : list (list A)) (l : list A) (x : A) :
  l ∈ ls → x ∈ l → x ∈ concat ls.
Proof.
  intros Hl Hx. apply list_elem_of_In, in_concat. exists l.
  split; by apply list_elem_of_In.
Qed.

(** ** The caches *)

Lemma greedy_cache_partition (self : OSS) :
  _partition_parameters self = []
  ∨ _partition_parameters self
    = Greedy.partition (world_size self) (param_groups self) →
  0 < world_size self → well_formed (param_groups self) →
  partition_parameters self =
  Some (Greedy.partition (world_size self) (param_groups self),
        set_partition_parameters
          (Greedy.partition (world_size self) (param_groups self)) self).
Proof.
  intros [Hempty|Hcache] Hpos Hwf; [by apply partition_parameters_fresh|].
  unfold partition_parameters.
  rewrite decide_False; [rewrite <- Hcache; by destruct self|].
  rewrite Hcache, partition_length. lia.
Qed.

Lemma cache_ok_greedy (self : OSS) :
  partition_cache_ok self → 0 < world_size self →
  well_formed (param_groups self) →
  _partition_parameters self = []
  ∨ _partition_parameters self
    = Greedy.partition (world_size self) (param_groups self).
Proof.
  intros [Hempty|Hok] Hpos Hwf; [by left|]. right.
  rewrite partition_parameters_fresh in Hok by done.
  cbn [world_size param_groups set_partition_parameters] in Hok.
  by injection Hok as Hcache Hself.
Qed.

Lemma cached_partition (self : OSS) :
  partition_cache_ok self → 0 < world_size self →
  well_formed (param_groups self) →
  partition_parameters self =
  Some (Greedy.partition (world_size self) (param_groups self),
        set_partition_parameters
          (Greedy.partition (world_size self) (param_groups self)) self).
Proof.
  intros Hok Hpos Hwf. apply greedy_cache_partition; [|done..].
  by apply cache_ok_greedy.
Qed.

(** The table that [per_device_params] builds when the rank map and the
    table are still to be computed. *)
Lemma device_table_spec (self : OSS) :
  _partition_parameters self = []
  ∨ _partition_parameters self
    = Greedy.partition (world_size self) (param_groups self) →
  _param_rank self = ∅ → _per_device_params self = [] →
  0 < world_size self → well_formed (param_groups self) →
  NoDup (pid <$> all_params (param_groups self)) →
  ∃ t self2 m,
    per_device_params self = Some (t, set_per_device_params t self2)
    ∧ (self2 = self
       ∨ self2 = set_param_rank m
                   (set_partition_parameters
                      (Greedy.partition (world_size self) (param_groups self))
                      self))
    ∧ table_placed (world_size self) m t
    ∧ table_params t ≡ₚ all_params (param_groups self)
    ∧ Forall (λ entry : string * list (list Param),
                Forall (StronglySorted by_numel) entry.2) t
    ∧ (∀ key r, m !! key = Some r →
         ∃ records p,
           Greedy.partition (world_size self) (param_groups self) !! r
           = Some records
           ∧ p ∈ params_of records ∧ pid p = key).
Proof.
  intros Hcache Hempty Htable Hpos Hwf Hnd.
  set (ws := world_size self) in *. set (groups := param_groups self) in *.
  pose proof (greedy_cache_partition self Hcache Hpos Hwf) as Hpart.
  fold ws groups in Hpart.
  pose proof (greedy_partition_records ws groups) as Hrecords.
  assert (HndP : NoDup (pid <$> concat (params_of <$> Greedy.partition ws groups))).
  { by rewrite (partition_holds_all ws groups Hpos). }
  destruct (rank_map_owner _ _ _ Hempty Hpart Hrecords HndP)
    as (m & Hmap & Hfwd & Hbwd).
  set (self1 := set_param_rank m
                  (set_partition_parameters (Greedy.partition ws groups) self))
    in *.
  assert (Hknown : Forall (λ p, ∃ r, m !! pid p = Some r ∧ r < ws)
                          (all_params groups)).
  { apply Forall_forall. intros p Hp.
    rewrite <- (partition_holds_all ws groups Hpos) in Hp.
    apply elem_of_concat_lookup in Hp as (r & l & Hr & Hl).
    rewrite list_lookup_fmap in Hr.
    destruct (Greedy.partition ws groups !! r) as [records|] eqn:Hrec; [|done].
    simpl in Hr. inversion Hr; subst l. exists r. split; [by eapply Hfwd|].
    apply lookup_lt_Some in Hrec. by rewrite partition_length in Hrec. }
  destruct (log_groups_loop ws m self1 eq_refl eq_refl groups [] self
              eq_refl Hmap Hwf Hknown)
    as (t & self2 & Hloop & Hstate & Hplaced & Hperm).
  { split; [constructor | constructor]. }
  change (table_params []) with (@nil Param) in Hperm.
  rewrite app_nil_r in Hperm.
  exists (sort_table t), self2, m.
  split.
  { unfold per_device_params. rewrite Htable. simpl. fold groups.
    by rewrite Hloop. }
  split; [done|]. split; [by apply sort_table_placed|].
  split; [by rewrite sort_table_params|].
  split; [apply sort_table_sorted | done].
Qed.

(** X14. From caches still to be computed, [per_device_params] files every
    parameter of the global groups once, under its own device and under the
    rank whose records in [partition_parameters] hold it; every device has
    one list per rank, and every list is in ascending order of element
    count. *)
Theorem per_device_params_by_owner (self : OSS) :
  partition_cache_ok self → _param_rank self = ∅ →
  _per_device_params self = [] →
  0 < world_size self → well_formed (param_groups self) →
  NoDup (pid <$> all_params (param_groups self)) →
  ∃ t self' partition self0,
    per_device_params self = Some (t, self')
    ∧ partition_parameters self = Some (partition, self0)
    ∧ _per_device_params self' = t
    ∧ NoDup t.*1
    ∧ table_params t ≡ₚ all_params (param_groups self)
    ∧ ∀ d lists, (d, lists) ∈ t →
        length lists = world_size self
        ∧ ∀ r l, lists !! r = Some l →
            StronglySorted by_numel l
            ∧ ∀ p, p ∈ l →
                device p = d
                ∧ ∃ records, partition !! r = Some records ∧ p ∈ params_of records.
Proof.
  intros Hcache Hempty Htable Hpos Hwf Hnd.
  destruct (device_table_spec self (cache_ok_greedy self Hcache Hpos Hwf)
              Hempty Htable Hpos Hwf Hnd)
    as (t & self2 & m & Hrun & _ & [HndT Hall] & Hperm & Hsorted & Hbwd).
  eexists t, _, _, _. split; [exact Hrun|].
  split; [by apply cached_partition|]. split; [done|]. split; [done|].
  split; [done|].
  intros d lists Hin. rewrite Forall_forall in Hall, Hsorted.
  destruct (Hall _ Hin) as [Hlen Hentry]. specialize (Hsorted _ Hin).
  simpl in Hlen, Hentry, Hsorted. split; [done|].
  intros r l Hl. rewrite Forall_forall in Hsorted.
  split; [apply Hsorted; by eapply list_elem_of_lookup_2|].
  intros p Hp. destruct (Hentry r l p Hl Hp) as [Hdev Hrank]. split; [done|].
  destruct (Hbwd _ _ Hrank) as (records & q & Hrec & Hq & Hpid).
  exists records. split; [done|].
  assert (Hpin : p ∈ all_params (param_groups self)).
  { rewrite <- Hperm. unfold table_params.
    apply (elem_of_concat_2 _ (concat lists)).
    - apply list_elem_of_fmap. by exists (d, lists).
    - apply (elem_of_concat_2 _ l); [by eapply list_elem_of_lookup_2 | done]. }
  assert (Hqin : q ∈ all_params (param_groups self)).
  { rewrite <- (partition_holds_all (world_size self) _ Hpos).
    apply (elem_of_concat_2 _ (params_of records)); [|done].
    apply list_elem_of_fmap. exists records. split; [done|].
    by eapply list_elem_of_lookup_2. }
  assert (q = p) as ->; [|done].
  apply list_elem_of_lookup in Hpin as [i Hi], Hqin as [j Hj].
  assert (i = j); [|congruence].
  eapply NoDup_lookup; [exact Hnd | |].
  - by rewrite list_lookup_fmap, Hi.
  - by rewrite list_lookup_fmap, Hj, <- Hpid.
Qed.

Lemma per_device_params_by_owner_witness :
  ∃ t self' partition self0,
    per_device_params Ex.oss0 = Some (t, self')
    ∧ partition_parameters Ex.oss0 = Some (partition, self0)
    ∧ _per_device_params self' = t
    ∧ NoDup t.*1
    ∧ table_params t ≡ₚ all_params (param_groups Ex.oss0)
    ∧ ∀ d lists, (d, lists) ∈ t →
        length lists = world_size Ex.oss0
        ∧ ∀ r l, lists !! r = Some l →
            StronglySorted by_numel l
            ∧ ∀ p, p ∈ l →
                device p = d
                ∧ ∃ records, partition !! r = Some records ∧ p ∈ params_of records.
Proof.
  apply (per_device_params_by_owner Ex.oss0).
  - by left.
  - reflexivity.
  - reflexivity.
  - simpl. lia.
  - repeat constructor. by eexists.
  - apply (bool_decide_unpack _). vm_compute. reflexivity.
Defined.

(** ** Adding a group *)

Lemma add_param_group_outside `{TorchOptimizer} (g : dict) (self : OSS)
    (groups' : list dict) :
  base_add_param_group g (param_groups self) = Some groups' →
  0 < world_size self → rank self < world_size self → well_formed groups' →
  add_param_group false g self =
  let partition := Greedy.partition (world_size self) groups' in
  let records := Greedy.records (rank self) (replicate (world_size self) 0) groups' in
  let self' := mkOSS groups' (world_size self) (rank self) (group self) (optim self)
                     partition [] ∅ (_all_states self) (_broadcast_buffers self)
                     (grads self) in
  if decide (length records = length (opt_param_groups (optim self)) + 1) then
    new_group ← last records;
    optim' ← wrapped_add_param_group new_group (optim self);
    Some (set_optim optim' self')
  else Some self'.
Proof.
  intros Hbase Hpos Hrank Hwf. unfold add_param_group. rewrite Hbase.
  cbn [mbind option_bind negb].
  rewrite partition_parameters_fresh by done.
  cbn [mbind option_bind rank world_size param_groups set_param_rank
       set_per_device_params set_partition_parameters set_param_groups].
  rewrite partition_lookup by done. cbn [mbind option_bind]. done.
Qed.



(** X16. Outside the constructor, when the wrapped optimizer does not hold exactly
    one group less than this rank's new records, [add_param_group] leaves the
    wrapped optimizer as it was: the new group is repartitioned but this
    rank's share of it reaches no optimizer. *)
Theorem add_param_group_leaves_optimizer `{TorchOptimizer} (g : dict) (self : OSS)
    (groups' : list dict) :
  base_add_param_group g (param_groups self) = Some groups' →
  0 < world_size self → rank self < world_size self → well_formed groups' →
  length groups' ≠ length (opt_param_groups (optim self)) + 1 →
  add_param_group false g self =
  Some (mkOSS groups' (world_size self) (rank self) (group self) (optim self)
              (Greedy.partition (world_size self) groups')
              [] ∅ (_all_states self) (_broadcast_buffers self) (grads self)).
Proof.
  intros Hbase Hpos Hrank Hwf Hlen.
  rewrite (add_param_group_outside g self _ Hbase Hpos Hrank Hwf).
  cbv zeta. rewrite records_length. by rewrite decide_False.
Qed.

Lemma add_param_group_leaves_optimizer_witness :
  add_param_group (H := Ex2.torch_optimizer) false Ex2.g1 Ex.oss0 =
  Some (mkOSS [Ex.g0; Ex2.g1] (world_size Ex.oss0) (rank Ex.oss0) (group Ex.oss0)
              (optim Ex.oss0)
              (Greedy.partition (world_size Ex.oss0) [Ex.g0; Ex2.g1])
              [] ∅ (_all_states Ex.oss0) (_broadcast_buffers Ex.oss0)
              (grads Ex.oss0)).
Proof.
  apply (add_param_group_leaves_optimizer (H := Ex2.torch_optimizer)
           Ex2.g1 Ex.oss0 [Ex.g0; Ex2.g1]).
  - reflexivity.
  - simpl. lia.
  - simpl. lia.
  - repeat constructor; by eexists.
  - simpl. lia.
Defined.

(** ** The default device *)









(** ** The buffers of the constructor *)


Lemma for_each_None {A S : Type} (body : S → A → option S) (xs : list A) (x : A) :
  x ∈ xs → (∀ s, body s x = None) → ∀ s, for_each body xs s = None.
Proof.
  intros Hx Hbody. induction xs as [|y xs IH]; intros s.
  - by apply elem_of_nil in Hx.
  - simpl. apply elem_of_cons in Hx as [->|Hx]; [by rewrite Hbody|].
    destruct (body s y); simpl; [by apply IH | done].
Qed.


Lemma mapM_none {A B : Type} (x : A) (l : list A) :
  mapM (λ _ : A, @None B) (x :: l) = None.
Proof. done. Qed.


Lemma allocate_no_first (bbs : nat) (acc : gmap string (list Buffer)) (d : string)
    (lists : list (list Param)) :
  lists !! 0 = Some [] → allocate bbs acc (d, lists) = None.
Proof.
  intros Hfirst. unfold allocate. rewrite Hfirst.
  cbn [mbind option_bind lookup list_lookup].
  destruct lists as [|l0 lists]; [done|]. done.
Qed.





(** X20. When rank 0 holds no parameter on some device of the table, the last
    loop of the constructor raises, on every rank. *)
Theorem allocate_buffers_needs_rank0 (bbs : nat) (self self1 : OSS) (t : table)
    (d : string) (lists : list (list Param)) :
  per_device_params self = Some (t, self1) →
  (d, lists) ∈ t → lists !! 0 = Some [] →
  allocate_buffers bbs self = None.
Proof.
  intros Hrun Hin Hfirst. unfold allocate_buffers. rewrite Hrun.
  cbn [mbind option_bind].
  rewrite (for_each_None (allocate bbs) t (d, lists) Hin); [done|].
  intros acc. by apply allocate_no_first.
Qed.

Lemma allocate_buffers_needs_rank0_witness :
  allocate_buffers 4 Ex2.oss_mixed = None.
Proof.
  eapply (allocate_buffers_needs_rank0 4 Ex2.oss_mixed _ _ "cuda:0" [[]; [Ex2.q2]]).
  - vm_compute. reflexivity.
  - apply elem_of_cons. right. apply elem_of_cons. by left.
  - reflexivity.
Defined.

(** ** When [step] runs to its end *)

Lemma sync_per_device_params (b : bool) (self : OSS) :
  _per_device_params (_sync_param_groups b self) = _per_device_params self.
Proof. unfold _sync_param_groups. by destruct (sync_groups _ _ _). Qed.

Lemma sync_param_rank (b : bool) (self : OSS) :
  _param_rank (_sync_param_groups b self) = _param_rank self.
Proof. unfold _sync_param_groups. by destruct (sync_groups _ _ _). Qed.

Lemma sync_broadcast_buffers (b : bool) (self : OSS) :
  _broadcast_buffers (_sync_param_groups b self) = _broadcast_buffers self.
Proof. unfold _sync_param_groups. by destruct (sync_groups _ _ _). Qed.

(** The state in which [step] reads the device table. *)
Lemma step_to_table `{Collaborators} (closure : option nat) (self : OSS) :
  _partition_parameters self = []
  ∨ _partition_parameters self
    = Greedy.partition (world_size self) (param_groups self) →
  0 < world_size self → well_formed (param_groups self) →
  ∃ self1 loss,
    step closure self =
      ('(t, self2) ← per_device_params self1;
       tr ← for_each (broadcast_device self2) t [];
       Some (_sync_param_groups true self2, loss, tr))
    ∧ _partition_parameters self1
      = Greedy.partition (world_size self) (param_groups self)
    ∧ _per_device_params self1 = _per_device_params self
    ∧ _param_rank self1 = _param_rank self
    ∧ _broadcast_buffers self1 = _broadcast_buffers self
    ∧ world_size self1 = world_size self
    ∧ param_groups self1 = param_groups self.
Proof.
  intros Hcache Hpos Hwf. unfold step, step_prepare.
  set (s := _sync_param_groups false self).
  assert (Hpart : partition_parameters s =
            Some (Greedy.partition (world_size self) (param_groups self),
                  set_partition_parameters
                    (Greedy.partition (world_size self) (param_groups self)) s)).
  { rewrite <- (sync_world_size false self), <- (sync_param_groups_global self).
    apply greedy_cache_partition.
    - unfold s. by rewrite sync_partition_parameters, sync_world_size,
        sync_param_groups_global.
    - unfold s. by rewrite sync_world_size.
    - unfold s. by rewrite sync_param_groups_global. }
  rewrite (free_other_grads_spec _ _ _ Hpart (greedy_partition_records _ _)).
  cbn [mbind option_bind]. unfold step_finish.
  destruct (optim_step _ _ _) as [[optim' grads'] loss].
  eexists _, loss. split; [reflexivity|].
  cbn [_partition_parameters _per_device_params _param_rank _broadcast_buffers
       world_size param_groups set_grads set_optim set_partition_parameters].
  unfold s.
  by rewrite sync_per_device_params, sync_param_rank, sync_broadcast_buffers,
    sync_world_size, sync_param_groups_global.
Qed.





Lemma table_params_elem (t : table) (p : Param) :
  p ∈ table_params t →
  ∃ d lists r l, (d, lists) ∈ t ∧ lists !! r = Some l ∧ p ∈ l.
Proof.
  unfold table_params. intros Hp.
  apply elem_of_concat_lookup in Hp as (i & ps & Hi & Hp).
  rewrite list_lookup_fmap in Hi.
  destruct (t !! i) as [[d lists]|] eqn:Hentry; [|done].
  simpl in Hi. inversion Hi; subst ps.
  apply elem_of_concat_lookup in Hp as (r & l & Hr & Hl).
  exists d, lists, r, l. split; [by eapply list_elem_of_lookup_2|]. by split.
Qed.

(** With the rank map and the table still to be computed, [step] stops at
    the first device that has no buffers. *)
Lemma step_stops `{Collaborators} (closure : option nat) (self : OSS) (p : Param) :
  _partition_parameters self = []
  ∨ _partition_parameters self
    = Greedy.partition (world_size self) (param_groups self) →
  _param_rank self = ∅ → _per_device_params self = [] →
  0 < world_size self → well_formed (param_groups self) →
  NoDup (pid <$> all_params (param_groups self)) →
  p ∈ all_params (param_groups self) →
  _broadcast_buffers self !! device p = None →
  step closure self = None.
Proof.
  intros Hcache Hempty Htable Hpos Hwf Hnd Hp Hnone.
  destruct (step_to_table closure self Hcache Hpos Hwf)
    as (self1 & loss & -> & HP & Hcached & Hrank & Hbuffers & Hws & Hgroups).
  destruct (device_table_spec self1)
    as (t & self2 & m & Hrun & Hstate & [_ Hall] & Hperm & _).
  { right. by rewrite HP, Hws, Hgroups. }
  { by rewrite Hrank. }
  { by rewrite Hcached. }
  { by rewrite Hws. }
  { by rewrite Hgroups. }
  { by rewrite Hgroups. }
  rewrite Hrun. cbn [mbind option_bind].
  rewrite Hgroups in Hperm. rewrite <- Hperm in Hp.
  apply table_params_elem in Hp as (d & lists & r & l & Hin & Hr & Hl).
  rewrite Forall_forall in Hall. destruct (Hall _ Hin) as [_ Hentry].
  destruct (Hentry r l p Hr Hl) as [Hdev _]. simpl in Hdev.
  rewrite (for_each_None _ t (d, lists) Hin); [done|].
  intros tr. unfold broadcast_device.
  cbn [_broadcast_buffers set_per_device_params].
  assert (Hsame : _broadcast_buffers self2 = _broadcast_buffers self).
  { by destruct Hstate as [-> | ->]. }
  by rewrite Hsame, <- Hdev, Hnone.
Qed.

(** X22. [add_param_group] allocates no buffer: after a group has been added
    outside the constructor with a parameter on a device that had no buffers,
    [step] raises. *)
Theorem step_after_new_device {C : Collaborators} {T : TorchOptimizer}
    (closure : option nat) (g : dict) (groups' : list dict)
    (self self' : OSS) (p : Param) :
  base_add_param_group g (param_groups self) = Some groups' →
  0 < world_size self → rank self < world_size self →
  well_formed groups' → NoDup (pid <$> all_params groups') →
  p ∈ all_params groups' →
  _broadcast_buffers self !! device p = None →
  add_param_group false g self = Some self' →
  step closure self' = None.
Proof.
  intros Hbase Hpos Hrank Hwf Hnd Hp Hnone Hadd.
  rewrite (add_param_group_outside g self _ Hbase Hpos Hrank Hwf) in Hadd.
  cbv zeta in Hadd.
  assert (Hfields :
    _partition_parameters self' = Greedy.partition (world_size self) groups'
    ∧ _param_rank self' = ∅ ∧ _per_device_params self' = []
    ∧ world_size self' = world_size self ∧ param_groups self' = groups'
    ∧ _broadcast_buffers self' = _broadcast_buffers self).
  { destruct (decide _) as [_|_].
    - destruct (last _) as [new_group|]; [|done]. simpl in Hadd.
      destruct (wrapped_add_param_group _ _) as [optim'|]; [|done].
      simpl in Hadd. by injection Hadd as <-.
    - by injection Hadd as <-. }
  destruct Hfields as (HP & Hrank' & Htable & Hws & Hgroups & Hbuffers).
  apply (step_stops closure self' p).
  - right. by rewrite HP, Hws, Hgroups.
  - done.
  - done.
  - by rewrite Hws.
  - by rewrite Hgroups.
  - by rewrite Hgroups.
  - by rewrite Hgroups.
  - by rewrite Hbuffers.
Qed.

Lemma step_after_new_device_witness :
  step (H := Ex.collaborators) None
       (mkOSS [Ex.g0; Ex2.g1] 2 0 None Ex.opt0
              (Greedy.partition 2 [Ex.g0; Ex2.g1]) [] ∅ []
              (<["cpu" := [mkBuffer 4; mkBuffer 4]]> ∅) ∅)
  = None.
Proof.
  apply (step_after_new_device (C := Ex.collaborators) (T := Ex2.torch_optimizer)
           None Ex2.g1 [Ex.g0; Ex2.g1] Ex2.oss_ready _ Ex2.q7).
  - reflexivity.
  - simpl. lia.
  - simpl. lia.
  - repeat constructor; by eexists.
  - apply (bool_decide_unpack _). vm_compute. reflexivity.
  - apply list_elem_of_In. vm_compute. tauto.
  - reflexivity.
  - vm_compute. reflexivity.
Defined.

(** ** The exchange of the shards *)

Lemma broadcast_sources `{Collaborators} (self : OSS) :
  (_broadcast_state_dict self).*2
  = get_global_rank (group self) <$> seq 0 (world_size self).
Proof.
  unfold _broadcast_state_dict. rewrite <- list_fmap_compose.
  apply list_fmap_ext. intros _ r _. simpl. unfold global_rank.
  by destruct (decide (r = rank self)) as [->|].
Qed.

Lemma collect_sources (self : OSS) :
  (collect_broadcasts self).*2
  = get_global_rank (group self) <$> seq 0 (world_size self).
Proof.
  unfold collect_broadcasts. rewrite <- list_fmap_compose.
  apply list_fmap_ext. intros _ r _. simpl. unfold global_rank.
  by destruct (decide (r = rank self)) as [->|].
Qed.

(** X23. When a replica collects the shards and another replica of the same group
    broadcasts its own, both make one call per rank with the same source
    ranks in the same order; the broadcasting replica sends its local state
    dict in its own turn and the one-element empty buffer in every other
    turn. *)
Theorem shard_exchange_lines_up `{Collaborators} (recipient other : OSS) :
  world_size other = world_size recipient → group other = group recipient →
  (collect_broadcasts recipient).*2 = (_broadcast_state_dict other).*2
  ∧ length (_broadcast_state_dict other) = world_size recipient
  ∧ ∀ r obj src,
      _broadcast_state_dict other !! r = Some (obj, src) →
      src = get_global_rank (group recipient) r
      ∧ obj = if decide (r = rank other) then VDict (local_state_dict other)
              else empty_buffer.
Proof.
  intros Hws Hgroup. split; [|split].
  - by rewrite collect_sources, broadcast_sources, Hws, Hgroup.
  - unfold _broadcast_state_dict. by rewrite length_fmap, length_seq.
  - intros r obj src Hr. unfold _broadcast_state_dict in Hr.
    rewrite list_lookup_fmap in Hr.
    destruct (seq 0 (world_size other) !! r) as [r'|] eqn:Hseq; [|done].
    apply lookup_seq in Hseq as [Heq _]. simpl in Heq. subst r'.
    simpl in Hr. unfold global_rank in Hr. rewrite <- Hgroup.
    destruct (decide (r = rank other)) as [->|]; by inversion Hr.
Qed.

Lemma shard_exchange_lines_up_witness :
  (collect_broadcasts Ex.oss0).*2
  = (_broadcast_state_dict (H := Ex.collaborators) Ex2.oss1).*2
  ∧ length (_broadcast_state_dict (H := Ex.collaborators) Ex2.oss1)
    = world_size Ex.oss0
  ∧ ∀ r obj src,
      _broadcast_state_dict (H := Ex.collaborators) Ex2.oss1 !! r = Some (obj, src) →
      src = get_global_rank (group Ex.oss0) r
      ∧ obj = if decide (r = rank Ex2.oss1)
              then VDict (local_state_dict (H := Ex.collaborators) Ex2.oss1)
              else empty_buffer.
Proof.
  apply (shard_exchange_lines_up (H := Ex.collaborators) Ex.oss0 Ex2.oss1).
  - reflexivity.
  - reflexivity.
Defined.

(** ** What the lazy properties leave alone *)

Lemma same_outside_caches_refl (self : OSS) : same_outside_caches self self.
Proof. by repeat split. Qed.

Lemma same_outside_caches_trans (s1 s2 s3 : OSS) :
  same_outside_caches s1 s2 → same_outside_caches s2 s3 →
  same_outside_caches s1 s3.
Proof.
  intros (? & ? & ? & ? & ? & ? & ? & ?) (? & ? & ? & ? & ? & ? & ? & ?).
  repeat split; congruence.
Qed.

Lemma partition_parameters_same (self self' : OSS) (partition : list (list dict)) :
  partition_parameters self = Some (partition, self') →
  same_outside_caches self self'.
Proof.
  unfold partition_parameters.
  destruct (decide (length (_partition_parameters self) = 0)).
  - destruct (Partition.compute _ _) as [[p sizes]|]; [|done].
    simpl. intros [= <- <-]. by repeat split.
  - intros [= <- <-]. apply same_outside_caches_refl.
Qed.

Lemma param_to_rank_same (self self' : OSS) (m : gmap positive nat) :
  param_to_rank self = Some (m, self') → same_outside_caches self self'.
Proof.
  unfold param_to_rank.
  destruct (decide (size (_param_rank self) = 0)).
  - destruct (partition_parameters self) as [[partition self1]|] eqn:Hpart;
      [|done].
    cbn [mbind option_bind].
    destruct (for_each record_ranks _ _) as [param_rank|]; [|done].
    simpl. intros [= <- <-].
    apply (same_outside_caches_trans _ self1); [by eapply partition_parameters_same|].
    by repeat split.
  - intros [= <- <-]. apply same_outside_caches_refl.
Qed.

Lemma log_param_same (t t' : table) (self self' : OSS) (p : Param) :
  log_param (t, self) p = Some (t', self') → same_outside_caches self self'.
Proof.
  unfold log_param.
  set (t0 := match table_get (device p) t with
             | None => table_set (device p) (replicate (world_size self) []) t
             | Some _ => t
             end).
  destruct (table_get (device p) t0) as [lists|]; [|done].
  cbn [mbind option_bind].
  destruct (param_to_rank self) as [[m self1]|] eqn:Hmap; [|done].
  cbn [mbind option_bind].
  destruct (m !! pid p) as [r|]; [|done]. cbn [mbind option_bind].
  destruct (lists !! r) as [l|]; [|done]. simpl. intros [= <- <-].
  by eapply param_to_rank_same.
Qed.

Lemma log_params_same (params : list Param) :
  ∀ (t t' : table) (self self' : OSS),
    for_each log_param params (t, self) = Some (t', self') →
    same_outside_caches self self'.
Proof.
  induction params as [|p params IH]; intros t t' self self' Hrun.
  - simpl in Hrun. inversion Hrun; subst. apply same_outside_caches_refl.
  - cbn [for_each] in Hrun.
    destruct (log_param (t, self) p) as [[t1 self1]|] eqn:Hstep; [|done].
    cbn [mbind option_bind] in Hrun.
    apply (same_outside_caches_trans _ self1).
    + by eapply log_param_same.
    + by eapply IH.
Qed.

Lemma log_groups_same (groups : list dict) :
  ∀ (t t' : table) (self self' : OSS),
    for_each log_group groups (t, self) = Some (t', self') →
    same_outside_caches self self'.
Proof.
  induction groups as [|g groups IH]; intros t t' self self' Hrun.
  - simpl in Hrun. inversion Hrun; subst. apply same_outside_caches_refl.
  - cbn [for_each] in Hrun.
    destruct (log_group (t, self) g) as [[t1 self1]|] eqn:Hstep; [|done].
    cbn [mbind option_bind] in Hrun.
    apply (same_outside_caches_trans _ self1); [|by eapply IH].
    unfold log_group in Hstep.
    destruct (group_params g) as [params|]; [|done].
    cbn [mbind option_bind] in Hstep. by eapply log_params_same.
Qed.

Lemma per_device_params_same (self self' : OSS) (t : table) :
  per_device_params self = Some (t, self') → same_outside_caches self self'.
Proof.
  unfold per_device_params.
  destruct (decide (length (_per_device_params self) = 0)).
  - destruct (for_each log_group _ _) as [[t0 self1]|] eqn:Hrun; [|done].
    intros [= <- <-].
    apply (same_outside_caches_trans _ self1); [by eapply log_groups_same|].
    by repeat split.
  - intros [= <- <-]. apply same_outside_caches_refl.
Qed.

(** X24. Whenever [step] returns, it returns the loss of the wrapped optimizer and
    leaves the optimizer and the gradients as the wrapped step left them; the
    global groups are as many as before, and each one is its value before the
    step overlaid with the entries other than ["params"] of the wrapped
    optimizer's group of the same index as they are after the wrapped step.
    The lazily computed table changes none of this. *)
Theorem step_exposes_optimizer `{Collaborators} (closure : option nat)
    (self self' : OSS) (loss : value) (tr : list op) :
  step closure self = Some (self', loss, tr) →
  ∃ prepared,
    step_prepare self = Some prepared
    ∧ loss = (optim_step closure (optim prepared) (grads prepared)).2
    ∧ grads self' = (optim_step closure (optim prepared) (grads prepared)).1.2
    ∧ optim self' = (optim_step closure (optim prepared) (grads prepared)).1.1
    ∧ length (param_groups self') = length (param_groups self)
    ∧ ∀ i g,
        param_groups self !! i = Some g →
        param_groups self' !! i =
        Some (match opt_param_groups
                      (optim_step closure (optim prepared) (grads prepared)).1.1 !! i
              with
              | Some l => hyperparams l ∪ g
              | None => g
              end).
Proof.
  unfold step. intros Hstep.
  destruct (step_prepare self) as [prepared|] eqn:Hprep; [|done].
  cbn [mbind option_bind] in Hstep. exists prepared. split; [done|].
  assert (Hglobal : param_groups prepared = param_groups self).
  { unfold step_prepare, _free_other_grads in Hprep.
    destruct (partition_parameters _) as [[partition s1]|] eqn:Hpart; [|done].
    cbn [mbind option_bind] in Hprep.
    destruct (for_each _ _ _) as [grads1|]; [|done]. simpl in Hprep.
    injection Hprep as <-. cbn [param_groups set_grads].
    destruct (partition_parameters_same _ _ _ Hpart) as (-> & _).
    apply sync_param_groups_global. }
  unfold step_finish in Hstep.
  destruct (optim_step closure (optim prepared) (grads prepared))
    as [[optim' grads'] loss'].
  destruct (per_device_params _) as [[t s2]|] eqn:Htable; [|done].
  cbn [mbind option_bind] in Hstep.
  destruct (for_each _ t []) as [tr'|]; [|done]. simpl in Hstep.
  injection Hstep as <- <- <-.
  destruct (per_device_params_same _ _ _ Htable)
    as (Hgroups & _ & _ & _ & Hoptim & _ & _ & Hgrads).
  cbn [param_groups optim grads set_grads set_optim] in Hgroups, Hoptim, Hgrads.
  cbn [fst snd]. split; [done|]. split; [by rewrite sync_grads|].
  unfold _sync_param_groups.
  destruct (sync_groups_lookup true (param_groups s2) (opt_param_groups (optim s2)))
    as (Hlen1 & Hlen2 & Hlook).
  destruct (sync_groups true _ _) as [globals locals] eqn:Hsync.
  cbn [fst snd] in *.
  cbn [optim set_optim opt_param_groups opt_state param_groups set_param_groups].
  split.
  { rewrite <- Hoptim. destruct (optim s2) as [groups state] eqn:Ho. f_equal.
    cbn [opt_param_groups opt_state] in *.
    apply list_eq. intros i. destruct (Hlook i) as [_ ->].
    destruct (param_groups s2 !! i) as [g|]; [|done].
    destruct (groups !! i) as [l|]; [|done].
    by rewrite sync_group_up. }
  split; [by rewrite Hlen1, Hgroups, Hglobal|].
  intros i g Hg. destruct (Hlook i) as [-> _].
  rewrite Hgroups, Hglobal, Hg, Hoptim.
  destruct (opt_param_groups optim' !! i) as [l|]; [|done].
  by rewrite sync_group_up.
Qed.

Lemma step_exposes_optimizer_witness :
  ∃ self' loss tr prepared,
    step (H := Ex.collaborators) None Ex2.oss_ready = Some (self', loss, tr)
    ∧ step_prepare Ex2.oss_ready = Some prepared
    ∧ loss = (optim_step (Collaborators := Ex.collaborators) None
                (optim prepared) (grads prepared)).2
    ∧ grads self' = (optim_step (Collaborators := Ex.collaborators) None
                       (optim prepared) (grads prepared)).1.2
    ∧ optim self' = (optim_step (Collaborators := Ex.collaborators) None
                       (optim prepared) (grads prepared)).1.1
    ∧ length (param_groups self') = length (param_groups Ex2.oss_ready)
    ∧ ∀ i g,
        param_groups Ex2.oss_ready !! i = Some g →
        param_groups self' !! i =
        Some (match opt_param_groups
                      (optim_step (Collaborators := Ex.collaborators) None
                         (optim prepared) (grads prepared)).1.1 !! i
              with
              | Some l => hyperparams l ∪ g
              | None => g
              end).
Proof.
  destruct (step (H := Ex.collaborators) None Ex2.oss_ready)
    as [[[self' loss] tr]|] eqn:Hstep; [|by vm_compute in Hstep].
  destruct (step_exposes_optimizer (H := Ex.collaborators) None Ex2.oss_ready
              self' loss tr Hstep) as (prepared & Hrest).
  exists self', loss, tr, prepared. split; [done | exact Hrest].
Defined.

(** X25. Computing the device table touches the three caches only: the groups,
    the wrapped optimizer, the gradients, the collected states, the buffers
    and the place in the process group are as they were. *)
Theorem per_device_params_only_caches (self self' : OSS) (t : table) :
  per_device_params self = Some (t, self') →
  same_outside_caches self self'.
Proof.
  intros Hrun. unfold per_device_params in Hrun.
  destruct (decide (length (_per_device_params self) = 0)).
  - destruct (for_each log_group _ _) as [[t0 self1]|] eqn:Hloop; [|done].
    injection Hrun as <- <-.
    apply (same_outside_caches_trans _ self1); [by eapply log_groups_same|].
    by repeat split.
  - injection Hrun as <- <-. apply same_outside_caches_refl.
Qed.

Lemma per_device_params_only_caches_witness :
  same_outside_caches Ex.oss0
    (set_per_device_params [("cpu", [[Ex.p10]; [Ex.p1a; Ex.p1b]])]
       (set_param_rank
          (<[1%positive := 0]> (<[2%positive := 1]> (<[3%positive := 1]> ∅)))
          (set_partition_parameters Ex.partition0 Ex.oss0))).
Proof.
  apply (per_device_params_only_caches Ex.oss0 _
           [("cpu", [[Ex.p10]; [Ex.p1a; Ex.p1b]])]).
  vm_compute. reflexivity.
Defined.
